(** * ONDRLax: cut-set congestion estimator and training utilities

    A shallow embedding of [capacity_bound_estimation/cutsets_bounds.py] and
    of [xlron/train/train_utils.py].  Arrays are lists, matrices are lists of
    rows; the entries of integer arrays are [Z] numbers wrapped to 32 bits
    ([int32]) where the source does arithmetic on them; exact rationals [Q]
    stand for the real numbers that the floating-point arrays approximate,
    and the IEEE formats of [SpecFloat] are used where rounding itself is
    the question. *)

From Stdlib Require Import String Ascii.
From Stdlib Require Import ZArith QArith Qround List Bool Lia Arith.
From Stdlib Require Import Permutation Sorted.
From Stdlib Require Import Floats.SpecFloat.
Import ListNotations.

Local Open Scope Z_scope.

(** ** Array helpers shared by the modules below *)

(** [jnp.arange(n)]. *)
Definition arange (n : nat) : list Z := map Z.of_nat (seq 0 n).

(** [jnp.arange(n - 1, -1, -1)]. *)
Definition arange_desc (n : nat) : list Z := rev (arange n).

Lemma nth_map_lt {A B} (f : A -> B) (l : list A) (i : nat) (d : B) (d' : A) :
  (i < length l)%nat -> nth i (map f l) d = f (nth i l d').
Proof.
  intros Hi. rewrite nth_indep with (d' := f d') by (now rewrite length_map).
  apply map_nth.
Qed.

Lemma arange_length n : length (arange n) = n.
Proof. unfold arange. now rewrite length_map, length_seq. Qed.




(** ** Gray-code mask generation *)

(** The entry of a 32-bit integer array that an arithmetic operation with
    exact result [x] leaves: [x] wrapped to two's complement.  JAX builds
    [jnp.arange], [jnp.array(0)] and the results of their arithmetic as
    [int32] arrays. *)
Definition int32 (x : Z) : Z := (x + 2 ^ 31) mod 2 ^ 32 - 2 ^ 31.

Lemma int32_small (x : Z) : - 2 ^ 31 <= x < 2 ^ 31 -> int32 x = x.
Proof. intros H. unfold int32. rewrite Z.mod_small; lia. Qed.

Lemma int32_range (x : Z) : - 2 ^ 31 <= int32 x < 2 ^ 31.
Proof.
  unfold int32. pose proof (Z.mod_pos_bound (x + 2 ^ 31) (2 ^ 32) ltac:(lia)). lia.
Qed.

Module Gray.

(** [generate_gray_code_masks(n_nodes, max_batch_size, start)].  The sums
    and the powers are entries of [int32] arrays and wrap; the exclusive or
    and the shift of an [int32] stay in range.  More than 32 nodes make a
    power wrap to 0, and the quotient by it is left to the platform: the
    model says nothing faithful there. *)
Definition generate_gray_code_masks (n_nodes max_batch_size : nat) (start : Z)
  : list (list Z) :=
  let base_sequence := map (fun i => int32 (i + start)) (arange max_batch_size) in
  let gray_numbers := map (fun b => Z.lxor b (Z.shiftr b 1)) base_sequence in
  let powers_of_two := map (fun e => int32 (2 ^ e)) (arange_desc n_nodes) in
  map (fun number => map (fun p => (number / p) mod 2) powers_of_two)
      gray_numbers.

(** The specification's [gray(k) = k XOR (k >> 1)]. *)
Definition gray (k : Z) : Z := Z.lxor k (Z.shiftr k 1).


(** The row of one integer [k] in unbounded arithmetic: the binary digits
    of [gray k], most significant first. *)
Definition mask_row (n_nodes : nat) (k : Z) : list Z :=
  map (fun p => (gray k / p) mod 2) (map (fun e => 2 ^ e) (arange_desc n_nodes)).

(** The batch lies inside the 32-bit range and the masks have at most 31
    positions: no sum and no power wraps. *)
Definition in_int32 (n_nodes max_batch_size : nat) (start : Z) : Prop :=
  (n_nodes <= 31)%nat /\ - 2 ^ 31 <= start /\ start + Z.of_nat max_batch_size <= 2 ^ 31.

Lemma in_arange_desc n e : In e (arange_desc n) -> 0 <= e < Z.of_nat n.
Proof.
  unfold arange_desc, arange. rewrite <- in_rev, in_map_iff.
  intros (k & <- & Hk). apply in_seq in Hk. lia.
Qed.

Lemma masks_rows n b start :
  in_int32 n b start ->
  generate_gray_code_masks n b start =
  map (fun j => mask_row n (Z.of_nat j + start)) (seq 0 b).
Proof.
  intros (Hn & Hlo & Hhi).
  assert (Hp : map (fun e => int32 (2 ^ e)) (arange_desc n)
               = map (fun e => 2 ^ e) (arange_desc n)).
  { apply map_ext_in. intros e He. apply in_arange_desc in He.
    apply int32_small.
    assert (2 ^ e <= 2 ^ 30) by (apply Z.pow_le_mono_r; lia).
    assert (0 < 2 ^ e) by (apply Z.pow_pos_nonneg; lia). lia. }
  unfold generate_gray_code_masks, mask_row, gray, arange.
  rewrite Hp, !map_map. apply map_ext_in. intros j Hj. apply in_seq in Hj.
  now rewrite int32_small by lia.
Qed.

Lemma masks_length n b start :
  length (generate_gray_code_masks n b start) = b.
Proof.
  unfold generate_gray_code_masks. now rewrite !length_map, arange_length.
Qed.

Lemma masks_nth n b start j :
  in_int32 n b start -> (j < b)%nat ->
  nth j (generate_gray_code_masks n b start) [] = mask_row n (start + Z.of_nat j).
Proof.
  intros Hin Hj. rewrite masks_rows by exact Hin.
  rewrite nth_map_lt with (d' := 0%nat) by (now rewrite length_seq).
  rewrite seq_nth by exact Hj. f_equal. lia.
Qed.



(** Bit-level facts about [gray]. *)



Lemma gray_nonneg k : 0 <= k -> 0 <= gray k.
Proof.
  intros Hk. unfold gray. apply Z.lxor_nonneg.
  split; intros _; [apply Z.shiftr_nonneg|]; lia.
Qed.







(** Consecutive integers: [k xor (k+1)] is a block of low ones. *)








(** Counting the positions where two rows differ. *)






(** The eight masks of three nodes, as the generator lists them. *)
Example gray_masks_3 :
  generate_gray_code_masks 3 8 0 =
  [[0;0;0]; [0;0;1]; [0;1;1]; [0;1;0]; [1;1;0]; [1;1;1]; [1;0;1]; [1;0;0]].
Proof. reflexivity. Qed.



End Gray.

(** ** Cut-set congestion scoring and path-derived partitions *)

Module Cutsets.

Local Open Scope nat_scope.

Abbreviation vector := (list Z).
Abbreviation matrix := (list (list Z)).

(** Arrays built position by position; [n] is [num_nodes], the shape of
    every node vector ([n]) and node matrix ([n] by [n]) of the module. *)
Definition vec_init {A} (n : nat) (f : nat -> A) : list A := map f (seq 0 n).

Definition mat_init {A} (n : nat) (f : nat -> nat -> A) : list (list A) :=
  vec_init n (fun i => vec_init n (f i)).

Definition vget (v : vector) (i : nat) : Z := nth i v 0%Z.
Definition mget (m : matrix) (i j : nat) : Z := nth j (nth i m []) 0%Z.

(** [jnp.sum] of a vector and of a matrix. *)
Definition vsum (v : vector) : Z := fold_right Z.add 0%Z v.
Definition msum (m : matrix) : Z := vsum (map vsum m).

(** [m.sum(axis=0)] (one sum per column) and [m.sum(axis=1)] (per row). *)
Definition sum_axis0 (n : nat) (m : matrix) : vector :=
  vec_init n (fun j => vsum (vec_init n (fun i => mget m i j))).
Definition sum_axis1 (n : nat) (m : matrix) : vector :=
  vec_init n (fun i => vsum (vec_init n (fun j => mget m i j))).

(** Reading [a[i]] at a computed index: an index past the end is clamped to
    the last position. *)
Definition gather (v : vector) (i : nat) : Z := vget v (Nat.min i (length v - 1)).

(** The same for an array of node numbers ([source_nodes[idx]]); node
    numbers are naturals. *)
Definition gather_node (v : list nat) (i : nat) : nat :=
  nth (Nat.min i (length v - 1)) v 0.

(** [jax.lax.dynamic_update_slice(adj, [[v]], (s, d))]: overwrite one cell,
    the start indices clamped so that the cell lies inside the matrix. *)
Fixpoint set_nth {A} (l : list A) (i : nat) (x : A) : list A :=
  match l, i with
  | [], _ => []
  | _ :: t, O => x :: t
  | h :: t, S i' => h :: set_nth t i' x
  end.

Definition dynamic_update_cell (adj : matrix) (v : Z) (s d : nat) : matrix :=
  let s' := Nat.min s (length adj - 1) in
  let row := nth s' adj [] in
  set_nth adj s' (set_nth row (Nat.min d (length row - 1)) v).

(** [edges_to_adjacency(path_array, source_nodes, dest_nodes, num_nodes)]:
    the [fori_loop] over the edge positions, as a left fold. *)
Definition edges_to_adjacency (path_array : vector) (source_nodes dest_nodes : list nat)
    (num_nodes : nat) : matrix :=
  let update_adj adj idx :=
    let s := gather_node source_nodes idx in
    let d := gather_node dest_nodes idx in
    let update_val := (1 * vget path_array idx)%Z in
    let adj := dynamic_update_cell adj update_val s d in
    dynamic_update_cell adj update_val d s in
  fold_left update_adj (seq 0 (length path_array)) (mat_init num_nodes (fun _ _ => 0%Z)).

(** [find_cutset_edges(p1, p2, source_nodes, dest_nodes)].  The node numbers
    are shifted by the smallest one; [jnp.min] of an empty array raises, which
    is the [None].  [source_nodes] and [dest_nodes] are the two columns of
    one edge list and have the same length ([jnp.stack] takes no others). *)
Definition find_cutset_edges (p1 p2 : vector) (source_nodes dest_nodes : list nat)
  : option vector :=
  match source_nodes ++ dest_nodes with
  | [] => None
  | x :: rest =>
      let lowest := fold_left Nat.min rest x in
      let is_cut_edge (edge : nat * nat) : Z :=
        let u := fst edge - lowest in
        let v := snd edge - lowest in
        Z.b2z ((negb (gather p1 u =? 0)%Z && negb (gather p2 v =? 0)%Z)
               || (negb (gather p1 v =? 0)%Z && negb (gather p2 u =? 0)%Z)) in
      Some (map is_cut_edge (combine source_nodes dest_nodes))
  end.

(** [calculate_congestion(partition_mask, adjacency_matrix, traffic_matrix,
    source_nodes, dest_nodes)], the debug prints left out. *)
Definition calculate_congestion (partition_mask : vector) (adjacency_matrix : matrix)
    (traffic_matrix : list (list Q)) (source_nodes dest_nodes : list nat)
  : option Q :=
  let num_nodes := length adjacency_matrix in
  let partition1 := partition_mask in
  let partition2 := map (fun x => 1 - x)%Z partition_mask in
  match find_cutset_edges partition1 partition2 source_nodes dest_nodes with
  | None => None
  | Some edges =>
      let cut_matrix := edges_to_adjacency edges source_nodes dest_nodes num_nodes in
      let cut_size := msum cut_matrix in
      let traffic_across_cut :=
        fold_right Qplus 0%Q
          (concat (mat_init num_nodes (fun i j =>
             (nth j (nth i traffic_matrix []) 0%Q
              * inject_Z (vget partition1 i * vget partition2 j))%Q))) in
      let congestion :=
        if (cut_size >? 0)%Z then (traffic_across_cut / inject_Z cut_size)%Q else 0%Q in
      let partitioned_adj :=
        mat_init num_nodes (fun i j => (mget adjacency_matrix i j - mget cut_matrix i j)%Z) in
      let masked1 :=
        mat_init num_nodes (fun i j =>
          if (vget partition1 i * vget partition1 j >? 0)%Z
          then mget partitioned_adj i j else 0%Z) in
      let masked2 :=
        mat_init num_nodes (fun i j =>
          if (vget partition2 i * vget partition2 j >? 0)%Z
          then mget partitioned_adj i j else 0%Z) in
      let check1 :=
        vec_init num_nodes (fun j =>
          if (vget partition1 j >? 0)%Z
          then (vget (sum_axis0 num_nodes masked1) j >? 0)%Z else true) in
      let check2 :=
        vec_init num_nodes (fun j =>
          if (vget partition2 j >? 0)%Z
          then (vget (sum_axis0 num_nodes masked2) j >? 0)%Z else true) in
      let connected1 := forallb (fun b => b) check1 in
      let connected2 := forallb (fun b => b) check2 in
      let both_connected := if connected1 && connected2 then 1%Q else 0%Q in
      Some (congestion * both_connected)%Q
  end.

(** [make_complete_subgraph(path_adj_matrix, adj_matrix)]. *)
Definition make_complete_subgraph (path_adj_matrix adj_matrix : matrix) : matrix :=
  let n := length adj_matrix in
  let active :=
    vec_init n (fun k =>
      (vget (sum_axis0 n path_adj_matrix) k + vget (sum_axis1 n path_adj_matrix) k >? 0)%Z) in
  mat_init n (fun i j =>
    (Z.b2z (nth i active false && nth j active false) * mget adj_matrix i j)%Z).

(** [find_cutset_adj(subgraph_matrix, full_matrix)]. *)
Definition find_cutset_adj (subgraph_matrix full_matrix : matrix) : list (list bool) :=
  let n := length full_matrix in
  let in_subgraph :=
    vec_init n (fun k =>
      (vget (sum_axis0 n subgraph_matrix) k + vget (sum_axis1 n subgraph_matrix) k >? 0)%Z) in
  let inside i := nth i in_subgraph false in
  let outside j := negb (nth j in_subgraph false) in
  mat_init n (fun i j =>
    negb (mget full_matrix i j =? 0)%Z
    && ((inside i && outside j) || (outside i && inside j))).

(** The graph left once the cutset edges are taken out of the adjacency:
    [adjacency.val * (1 - cutset_adjacency)] in [get_cutset_from_path]. *)
Definition remaining_graph (path_array : vector) (adjacency : matrix)
    (source_nodes dest_nodes : list nat) : matrix :=
  let num_nodes := length adjacency in
  let path_adjacency := edges_to_adjacency path_array source_nodes dest_nodes num_nodes in
  let subgraph_adjacency := make_complete_subgraph path_adjacency adjacency in
  let cutset_adjacency := find_cutset_adj subgraph_adjacency adjacency in
  mat_init num_nodes (fun i j =>
    (mget adjacency i j * (1 - Z.b2z (nth j (nth i cutset_adjacency []) false)))%Z).

(** [jnp.matmul(reachable, remaining_graph)]: a row vector times a matrix. *)
Definition matmul_vec (n : nat) (v : vector) (m : matrix) : vector :=
  vec_init n (fun j => vsum (vec_init n (fun i => (vget v i * mget m i j)%Z))).

(** One round of the scan of [get_cutset_from_path]. *)
Definition update_reachable (n : nat) (remaining : matrix) (reachable : vector) : vector :=
  let new_reachable := matmul_vec n reachable remaining in
  vec_init n (fun j => if (vget new_reachable j >? 0)%Z then 1%Z else vget reachable j).

(** [get_cutset_from_path(path_array, adjacency, source_nodes, dest_nodes)]. *)
Definition get_cutset_from_path (path_array : vector) (adjacency : matrix)
    (source_nodes dest_nodes : list nat) : vector * vector :=
  let num_nodes := length adjacency in
  let remaining := remaining_graph path_array adjacency source_nodes dest_nodes in
  let reachable := set_nth (vec_init num_nodes (fun _ => 0%Z)) 0 1%Z in
  let partition1 :=
    fold_left (fun reachable _ => update_reachable num_nodes remaining reachable)
              (seq 0 (num_nodes - 1)) reachable in
  let partition2 := map (fun x => 1 - x)%Z partition1 in
  (partition1, partition2).

(** Nodes that a walk along positive entries of [g] reaches from node 0. *)
Inductive reachable_from_0 (n : nat) (g : matrix) : nat -> Prop :=
| reach_start : 0 < n -> reachable_from_0 n g 0
| reach_step i j :
    reachable_from_0 n g i -> j < n -> (0 < mget g i j)%Z ->
    reachable_from_0 n g j.

(** *** Array lemmas *)

Lemma vec_init_length {A} n (f : nat -> A) : length (vec_init n f) = n.
Proof. unfold vec_init. now rewrite length_map, length_seq. Qed.

Lemma vec_init_nth {A} n (f : nat -> A) i d : i < n -> nth i (vec_init n f) d = f i.
Proof.
  intros Hi. unfold vec_init.
  rewrite nth_map_lt with (d' := 0) by (now rewrite length_seq).
  now rewrite seq_nth.
Qed.

Lemma vec_init_S {A} n (f : nat -> A) : vec_init (S n) f = vec_init n f ++ [f n].
Proof. unfold vec_init. now rewrite seq_S, map_app. Qed.

Lemma mat_init_get n (f : nat -> nat -> Z) i j :
  i < n -> j < n -> mget (mat_init n f) i j = f i j.
Proof.
  intros Hi Hj. unfold mget, mat_init. now rewrite !vec_init_nth.
Qed.

Lemma vsum_app a b : vsum (a ++ b) = (vsum a + vsum b)%Z.
Proof. induction a as [ | x a IH]; simpl; [reflexivity | rewrite IH; lia]. Qed.

Lemma vsum_init_nonneg n f :
  (forall i, i < n -> (0 <= f i)%Z) -> (0 <= vsum (vec_init n f))%Z.
Proof.
  induction n as [ | n IH]; intros H; [simpl; lia|].
  rewrite vec_init_S, vsum_app. simpl.
  specialize (IH (fun i Hi => H i (Nat.lt_lt_succ_r _ _ Hi))).
  specialize (H n (Nat.lt_succ_diag_r n)). lia.
Qed.

Lemma vsum_init_pos n f :
  (forall i, i < n -> (0 <= f i)%Z) ->
  (0 < vsum (vec_init n f))%Z <-> exists i, i < n /\ (0 < f i)%Z.
Proof.
  induction n as [ | n IH]; intros H.
  - simpl. split; [lia | intros (i & Hi & _); lia].
  - assert (H' : forall i, i < n -> (0 <= f i)%Z) by (intros; apply H; lia).
    specialize (IH H'). pose proof (vsum_init_nonneg n f H') as Hs.
    pose proof (H n (Nat.lt_succ_diag_r n)) as Hn.
    rewrite vec_init_S, vsum_app. simpl. split.
    + intros Hpos. destruct (Z_lt_le_dec 0 (f n)) as [Hf | Hf].
      * exists n. split; [lia | exact Hf].
      * assert (Hp : (0 < vsum (vec_init n f))%Z) by lia.
        apply IH in Hp. destruct Hp as (i & Hi & Hfi). exists i. split; [lia | exact Hfi].
    + intros (i & Hi & Hfi). destruct (Nat.eq_dec i n) as [-> | Hne]; [lia|].
      assert (Hp : (0 < vsum (vec_init n f))%Z) by (apply IH; exists i; split; [lia | exact Hfi]).
      lia.
Qed.

Lemma set_nth_length {A} (l : list A) i x : length (set_nth l i x) = length l.
Proof.
  revert i. induction l as [ | h t IH]; intros [ | i]; simpl; try reflexivity.
  now rewrite IH.
Qed.

Lemma set_nth_same {A} (l : list A) i x d :
  i < length l -> nth i (set_nth l i x) d = x.
Proof.
  revert i. induction l as [ | h t IH]; intros [ | i]; simpl; intros Hi; try lia.
  - reflexivity.
  - apply IH. lia.
Qed.

Lemma set_nth_other {A} (l : list A) i j x d :
  i <> j -> nth j (set_nth l i x) d = nth j l d.
Proof.
  revert i j. induction l as [ | h t IH]; intros [ | i] [ | j] Hne; simpl;
    try reflexivity; try lia.
  apply IH. lia.
Qed.

(** Two vectors, one below the other position by position: the sums compare
    the same way, and equal sums force equal vectors. *)
Lemma pointwise_le_vsum (a b : vector) :
  length a = length b ->
  (forall i, i < length a -> (vget a i <= vget b i)%Z) ->
  (vsum a <= vsum b)%Z /\ (vsum a = vsum b -> a = b).
Proof.
  revert b. induction a as [ | x a IH]; intros [ | y b] Hlen Hle; simpl in *;
    try discriminate.
  - split; [lia | reflexivity].
  - assert (Hxy : (x <= y)%Z) by (apply (Hle 0); lia).
    destruct (IH b) as [Hs He]; [lia | intros i Hi; apply (Hle (S i)); lia | ].
    split; [lia|]. intros E. assert (x = y) by lia. subst y.
    f_equal. apply He. lia.
Qed.

Lemma vsum_le_length (a : vector) :
  (forall i, i < length a -> (vget a i <= 1)%Z) -> (vsum a <= Z.of_nat (length a))%Z.
Proof.
  induction a as [ | x a IH]; intros H; simpl length; [simpl; lia|].
  assert (Hx : (x <= 1)%Z) by (apply (H 0); simpl; lia).
  assert (Ha : (vsum a <= Z.of_nat (length a))%Z)
    by (apply IH; intros i Hi; apply (H (S i)); simpl; lia).
  simpl vsum. lia.
Qed.

Lemma fold_left_const_iter {A B} (f : A -> A) (l : list B) (x : A) :
  fold_left (fun a _ => f a) l x = Nat.iter (length l) f x.
Proof.
  revert x. induction l as [ | b l IH]; intros x; [reflexivity|].
  simpl fold_left. rewrite IH. simpl length. now rewrite Nat.iter_succ_r.
Qed.

(** *** Reachability propagation *)

Section Reachability.

Variable n : nat.
Variable g : matrix.
Hypothesis g_nonneg : forall i j, i < n -> j < n -> (0 <= mget g i j)%Z.

Definition is_mask (v : vector) : Prop :=
  length v = n /\ forall j, j < n -> vget v j = 0%Z \/ vget v j = 1%Z.

Let start : vector := set_nth (vec_init n (fun _ => 0%Z)) 0 1%Z.
Let step : vector -> vector := update_reachable n g.

Lemma step_get v j :
  j < n ->
  vget (step v) j =
  if (vsum (vec_init n (fun i => (vget v i * mget g i j)%Z)) >? 0)%Z
  then 1%Z else vget v j.
Proof.
  intros Hj. unfold step, update_reachable, matmul_vec, vget.
  now rewrite !vec_init_nth.
Qed.

Lemma step_spec v j :
  is_mask v -> j < n ->
  vget (step v) j = 1%Z <->
  vget v j = 1%Z \/ exists i, i < n /\ vget v i = 1%Z /\ (0 < mget g i j)%Z.
Proof.
  intros [_ Hv] Hj. rewrite step_get by exact Hj.
  assert (Hnn : forall i, i < n -> (0 <= vget v i * mget g i j)%Z).
  { intros i Hi. specialize (g_nonneg i j Hi Hj). destruct (Hv i Hi) as [-> | ->]; lia. }
  pose proof (vsum_init_pos n _ Hnn) as Hpos.
  destruct (Z.gtb_spec (vsum (vec_init n (fun i => (vget v i * mget g i j)%Z))) 0) as [Hgt | Hle].
  - split; [intros _ | reflexivity]. right.
    apply Hpos in Hgt. destruct Hgt as (i & Hi & Hp). exists i. split; [exact Hi|].
    destruct (Hv i Hi) as [E | E]; rewrite E in Hp; [lia|]. split; [exact E | lia].
  - split; [now left|]. intros [E | (i & Hi & E & Hp)]; [exact E|].
    exfalso. assert (0 < vsum (vec_init n (fun i => (vget v i * mget g i j)%Z)))%Z; [|lia].
    apply Hpos. exists i. split; [exact Hi|]. rewrite E. lia.
Qed.

Lemma step_mask v : is_mask v -> is_mask (step v).
Proof.
  intros [Hl Hv]. split; [apply vec_init_length|].
  intros j Hj. rewrite step_get by exact Hj.
  destruct (_ >? _)%Z; [now right | now apply Hv].
Qed.

Lemma step_mono v j : is_mask v -> j < n -> (vget v j <= vget (step v) j)%Z.
Proof.
  intros [_ Hv] Hj. rewrite step_get by exact Hj.
  destruct (_ >? _)%Z; [|lia]. destruct (Hv j Hj) as [-> | ->]; lia.
Qed.

Lemma mask_vsum_le v : is_mask v -> (vsum v <= Z.of_nat n)%Z.
Proof.
  intros [Hl Hv]. rewrite <- Hl. apply vsum_le_length.
  intros i Hi. rewrite Hl in Hi. destruct (Hv i Hi) as [-> | ->]; lia.
Qed.

(** A round either changes nothing or reaches at least one more node. *)
Lemma step_progress v :
  is_mask v -> step v = v \/ (vsum v + 1 <= vsum (step v))%Z.
Proof.
  intros Hm. destruct (pointwise_le_vsum v (step v)) as [Hle Heq].
  - destruct Hm as [Hl _]. unfold step, update_reachable. now rewrite vec_init_length.
  - intros i Hi. apply step_mono; [exact Hm|]. destruct Hm as [Hl _]. lia.
  - destruct (Z.eq_dec (vsum v) (vsum (step v))) as [E | Hne].
    + left. symmetry. now apply Heq.
    + right. lia.
Qed.

Lemma start_mask : is_mask start.
Proof.
  split; [unfold start; now rewrite set_nth_length, vec_init_length|].
  intros j Hj. unfold start, vget. destruct j as [ | j].
  - right. apply set_nth_same. now rewrite vec_init_length.
  - left. rewrite set_nth_other by lia. now apply vec_init_nth.
Qed.

Lemma start_get j : j < n -> vget start j = if Nat.eqb j 0 then 1%Z else 0%Z.
Proof.
  intros Hj. unfold start, vget. destruct j as [ | j]; simpl Nat.eqb.
  - apply set_nth_same. now rewrite vec_init_length.
  - rewrite set_nth_other by lia. now apply vec_init_nth.
Qed.

Lemma start_vsum : 0 < n -> vsum start = 1%Z.
Proof.
  intros Hn. unfold start. destruct n as [ | m]; [lia|].
  unfold vec_init. simpl. clear. generalize 1 as s.
  induction m as [ | m IH]; intros s; simpl; [reflexivity|].
  specialize (IH (S s)). lia.
Qed.

Lemma iter_mask r : is_mask (Nat.iter r step start).
Proof. induction r as [ | r IH]; simpl; [apply start_mask | now apply step_mask]. Qed.

Lemma iter_progress r :
  0 < n ->
  step (Nat.iter r step start) = Nat.iter r step start
  \/ (Z.of_nat r + 1 <= vsum (Nat.iter r step start))%Z.
Proof.
  intros Hn. induction r as [ | r IH].
  - right. simpl. rewrite start_vsum by exact Hn. lia.
  - simpl Nat.iter. destruct IH as [Hfix | Hbig].
    + left. now rewrite !Hfix.
    + destruct (step_progress _ (iter_mask r)) as [Hfix | Hmore].
      * left. now rewrite !Hfix.
      * right. lia.
Qed.

(** After [n - 1] rounds another round changes nothing. *)
Lemma iter_closed : step (Nat.iter (n - 1) step start) = Nat.iter (n - 1) step start.
Proof.
  destruct (Nat.eq_dec n 0) as [Hz | Hnz].
  - pose proof (iter_mask (n - 1)) as [Hl _].
    pose proof (step_mask _ (iter_mask (n - 1))) as [Hl' _].
    rewrite Hz in *. apply length_zero_iff_nil in Hl. apply length_zero_iff_nil in Hl'.
    congruence.
  - destruct (iter_progress (n - 1)) as [Hfix | Hbig]; [lia | exact Hfix | ].
    destruct (step_progress _ (iter_mask (n - 1))) as [Hfix | Hmore]; [exact Hfix|].
    pose proof (mask_vsum_le _ (step_mask _ (iter_mask (n - 1)))). lia.
Qed.

Lemma reachable_lt j : reachable_from_0 n g j -> j < n.
Proof. intros H. destruct H; assumption. Qed.

Lemma iter_sound r j :
  j < n -> vget (Nat.iter r step start) j = 1%Z -> reachable_from_0 n g j.
Proof.
  revert j. induction r as [ | r IH]; intros j Hj H.
  - simpl in H. rewrite start_get in H by exact Hj.
    destruct j; simpl in H; [constructor; lia | discriminate].
  - simpl Nat.iter in H. apply step_spec in H; [ | apply iter_mask | exact Hj].
    destruct H as [H | (i & Hi & H & Hp)]; [now apply IH|].
    apply reach_step with (i := i); auto.
Qed.

Lemma iter_keeps_start r : 0 < n -> vget (Nat.iter r step start) 0 = 1%Z.
Proof.
  intros Hn. induction r as [ | r IH]; simpl Nat.iter.
  - now rewrite start_get.
  - apply step_spec; [apply iter_mask | exact Hn | now left].
Qed.

Lemma iter_complete j :
  reachable_from_0 n g j -> vget (Nat.iter (n - 1) step start) j = 1%Z.
Proof.
  induction 1 as [Hn | i j Hi IH Hj Hp].
  - now apply iter_keeps_start.
  - rewrite <- iter_closed. apply step_spec; [apply iter_mask | exact Hj | ].
    right. exists i. split; [now apply reachable_lt | auto].
Qed.

Lemma propagate_reachable j :
  j < n ->
  vget (Nat.iter (n - 1) step start) j = 1%Z <-> reachable_from_0 n g j.
Proof. intros Hj. split; [now apply iter_sound | apply iter_complete]. Qed.

End Reachability.

(** *** The partitions of [get_cutset_from_path] *)

(** A square adjacency matrix without negative entries. *)
Definition adjacency_ok (adjacency : matrix) : bool :=
  forallb (fun row => Nat.eqb (length row) (length adjacency)
                      && forallb (fun x => (0 <=? x)%Z) row) adjacency.

Lemma adjacency_ok_nonneg adjacency i j :
  adjacency_ok adjacency = true -> (0 <= mget adjacency i j)%Z.
Proof.
  intros Hok. unfold mget.
  destruct (Nat.lt_ge_cases i (length adjacency)) as [Hi | Hi];
    [ | rewrite (nth_overflow adjacency) by exact Hi; destruct j; simpl; lia].
  unfold adjacency_ok in Hok. rewrite forallb_forall in Hok.
  specialize (Hok (nth i adjacency []) (nth_In _ _ Hi)).
  apply andb_true_iff in Hok. destruct Hok as [_ Hrow].
  destruct (Nat.lt_ge_cases j (length (nth i adjacency []))) as [Hj | Hj];
    [ | rewrite nth_overflow by exact Hj; lia].
  rewrite forallb_forall in Hrow. specialize (Hrow _ (nth_In _ 0%Z Hj)). lia.
Qed.

Lemma remaining_graph_get path_array adjacency source_nodes dest_nodes i j :
  i < length adjacency -> j < length adjacency ->
  exists b : bool,
    mget (remaining_graph path_array adjacency source_nodes dest_nodes) i j
    = (mget adjacency i j * (1 - Z.b2z b))%Z.
Proof.
  intros Hi Hj. unfold remaining_graph. rewrite mat_init_get by assumption.
  eexists. reflexivity.
Qed.

Lemma remaining_graph_nonneg path_array adjacency source_nodes dest_nodes i j :
  adjacency_ok adjacency = true ->
  i < length adjacency -> j < length adjacency ->
  (0 <= mget (remaining_graph path_array adjacency source_nodes dest_nodes) i j)%Z.
Proof.
  intros Hok Hi Hj.
  destruct (remaining_graph_get path_array adjacency source_nodes dest_nodes i j Hi Hj)
    as [b ->].
  pose proof (adjacency_ok_nonneg adjacency i j Hok). destruct b; simpl; lia.
Qed.

Lemma remaining_graph_symmetric path_array adjacency source_nodes dest_nodes i j :
  (forall a b, mget adjacency a b = mget adjacency b a) ->
  i < length adjacency -> j < length adjacency ->
  mget (remaining_graph path_array adjacency source_nodes dest_nodes) i j
  = mget (remaining_graph path_array adjacency source_nodes dest_nodes) j i.
Proof.
  intros Hsym Hi Hj. unfold remaining_graph, find_cutset_adj.
  rewrite !mat_init_get by assumption.
  unfold mat_init. rewrite !vec_init_nth by assumption.
  rewrite (Hsym j i). f_equal. f_equal. f_equal.
  repeat match goal with
         | |- context [(?x >? 0)%Z] => destruct (x >? 0)%Z
         end;
    destruct (mget adjacency i j =? 0)%Z; reflexivity.
Qed.

(** C3.  For a square adjacency matrix without negative entries,
    [get_cutset_from_path] returns as partition1 the indicator vector of the
    nodes reachable from node 0 in the remaining graph (the adjacency with
    the computed cutset edges removed), reached by [n_nodes - 1] rounds of
    propagate-and-threshold, and as partition2 its complement.  When the
    adjacency is symmetric the reachable set is also closed under edges
    taken backwards, so it is the connected component of node 0. *)
Theorem get_cutset_from_path_component
    (path_array : vector) (adjacency : matrix) (source_nodes dest_nodes : list nat) :
  adjacency_ok adjacency = true ->
  let n := length adjacency in
  let remaining := remaining_graph path_array adjacency source_nodes dest_nodes in
  let partition1 := fst (get_cutset_from_path path_array adjacency source_nodes dest_nodes) in
  let partition2 := snd (get_cutset_from_path path_array adjacency source_nodes dest_nodes) in
  length partition1 = n /\ length partition2 = n /\
  (forall j, j < n ->
     (vget partition1 j = 1%Z <-> reachable_from_0 n remaining j) /\
     (vget partition1 j = 0%Z <-> ~ reachable_from_0 n remaining j) /\
     vget partition2 j = (1 - vget partition1 j)%Z) /\
  ((forall a b, mget adjacency a b = mget adjacency b a) ->
   forall i j, reachable_from_0 n remaining i -> j < n ->
               (0 < mget remaining j i)%Z -> reachable_from_0 n remaining j).
Proof.
  intros Hok n remaining partition1 partition2.
  assert (Hnn : forall i j, i < n -> j < n -> (0 <= mget remaining i j)%Z)
    by (intros; now apply remaining_graph_nonneg).
  assert (E1 : partition1 =
               Nat.iter (n - 1) (update_reachable n remaining)
                        (set_nth (vec_init n (fun _ => 0%Z)) 0 1%Z)).
  { unfold partition1, get_cutset_from_path. cbn [fst].
    now rewrite fold_left_const_iter, length_seq. }
  assert (E2 : partition2 = map (fun x => (1 - x)%Z) partition1) by reflexivity.
  pose proof (iter_mask n remaining (n - 1)) as [Hlen Hbin].
  rewrite <- E1 in Hlen, Hbin.
  split; [exact Hlen|]. split; [now rewrite E2, length_map|]. split.
  - intros j Hj.
    pose proof (propagate_reachable n remaining Hnn j Hj) as Hr. rewrite <- E1 in Hr.
    split; [exact Hr|]. split.
    + split; [intros H0 Hreach; apply Hr in Hreach; lia|].
      intros Hno. destruct (Hbin j Hj) as [H0 | H1]; [exact H0|].
      exfalso. apply Hno, Hr, H1.
    + rewrite E2. unfold vget.
      rewrite nth_map_lt with (d' := 0%Z) by (rewrite Hlen; exact Hj). reflexivity.
  - intros Hsym i j Hi Hj Hp. apply reach_step with (i := i); [exact Hi | exact Hj | ].
    unfold remaining. rewrite remaining_graph_symmetric; auto.
    now apply (reachable_lt n remaining).
Qed.

(** A four-node ring, edges in sorted order, and the path that uses only the
    link 0-1. *)
Definition ring_adjacency : matrix :=
  [[0; 1; 0; 1]; [1; 0; 1; 0]; [0; 1; 0; 1]; [1; 0; 1; 0]]%Z.
Definition ring_sources : list nat := [0; 0; 1; 2].
Definition ring_dests : list nat := [1; 3; 2; 3].

Lemma get_cutset_from_path_component_witness :
  adjacency_ok ring_adjacency = true
  /\ get_cutset_from_path [1; 0; 0; 0]%Z ring_adjacency ring_sources ring_dests
     = ([1; 1; 0; 0]%Z, [0; 0; 1; 1]%Z)
  /\ reachable_from_0 4
       (remaining_graph [1; 0; 0; 0]%Z ring_adjacency ring_sources ring_dests) 1
  /\ ~ reachable_from_0 4
       (remaining_graph [1; 0; 0; 0]%Z ring_adjacency ring_sources ring_dests) 2.
Proof.
  split; [reflexivity|]. split; [reflexivity|].
  destruct (get_cutset_from_path_component
              [1; 0; 0; 0]%Z ring_adjacency ring_sources ring_dests eq_refl)
    as (_ & _ & H & _).
  split.
  - apply (H 1); [repeat constructor | reflexivity].
  - apply (H 2); [repeat constructor | reflexivity].
Defined.

(** *** Congestion as the specification words it *)

Definition in_partition (p : vector) (u : nat) : bool := negb (vget p u =? 0)%Z.

(** An edge is in the cut when exactly one endpoint is in partition1. *)
Definition is_cut_edge_spec (partition1 : vector) (edge : nat * nat) : bool :=
  xorb (in_partition partition1 (fst edge)) (in_partition partition1 (snd edge)).

(** [cut_size]: the number of edges with exactly one endpoint in partition1. *)
Definition cut_size_spec (partition1 : vector) (source_nodes dest_nodes : list nat) : nat :=
  length (filter (is_cut_edge_spec partition1) (combine source_nodes dest_nodes)).

(** [traffic_crossing]: the sum over ordered pairs of
    [traffic_matrix[i][j] * partition1[i] * partition2[j]]. *)
Definition traffic_crossing_spec (n : nat) (traffic_matrix : list (list Q))
    (partition1 partition2 : vector) : Q :=
  fold_right Qplus 0%Q
    (concat (mat_init n (fun i j =>
       (nth j (nth i traffic_matrix []) 0%Q
        * inject_Z (vget partition1 i) * inject_Z (vget partition2 j))%Q))).

(** The connectivity gate of one side: every node of [p] keeps a neighbour
    in [p] once the cut edges are gone (an edge inside [p] is never cut). *)
Definition gate_spec (n : nat) (adjacency : matrix) (p : vector) : bool :=
  forallb (fun j =>
    implb (in_partition p j)
          (existsb (fun i => in_partition p i && negb (mget adjacency i j =? 0)%Z)
                   (seq 0 n)))
    (seq 0 n).

(** The congestion as the specification defines it. *)
Definition congestion_spec (partition_mask : vector) (adjacency : matrix)
    (traffic_matrix : list (list Q)) (source_nodes dest_nodes : list nat) : Q :=
  let n := length adjacency in
  let partition1 := partition_mask in
  let partition2 := map (fun x => 1 - x)%Z partition_mask in
  let cut_size := cut_size_spec partition1 source_nodes dest_nodes in
  if Nat.ltb 0 cut_size && gate_spec n adjacency partition1 && gate_spec n adjacency partition2
  then (traffic_crossing_spec n traffic_matrix partition1 partition2
        / inject_Z (Z.of_nat cut_size))%Q
  else 0%Q.

(** Unit demand between every two distinct nodes. *)
Definition unit_traffic : list (list Q) :=
  [[0; 1; 1; 1]; [1; 0; 1; 1]; [1; 1; 0; 1]; [1; 1; 1; 0]]%Q.

(** C1, at the ring with partition1 = {0, 1}: two edges (1-2 and 0-3) cross
    the cut and four units of traffic cross it, so the specified congestion is
    4 / 2 = 2; [calculate_congestion] sums the symmetric cut matrix, which
    holds every cut edge twice, and returns 4 / 4 = 1. *)
Theorem calculate_congestion_counts_cut_edges_twice :
  cut_size_spec [1; 1; 0; 0]%Z ring_sources ring_dests = 2
  /\ option_map msum
       (option_map (fun edges => edges_to_adjacency edges ring_sources ring_dests 4)
          (find_cutset_edges [1; 1; 0; 0]%Z [0; 0; 1; 1]%Z ring_sources ring_dests))
     = Some 4%Z
  /\ option_map Qred
       (calculate_congestion [1; 1; 0; 0]%Z ring_adjacency unit_traffic
          ring_sources ring_dests) = Some 1%Q
  /\ Qred (congestion_spec [1; 1; 0; 0]%Z ring_adjacency unit_traffic
             ring_sources ring_dests) = 2%Q.
Proof. repeat split; reflexivity. Qed.

(** *** The cut matrix holds every cut edge twice *)

Definition square (n : nat) (m : matrix) : Prop :=
  length m = n /\ forall row, In row m -> length row = n.

Lemma mat_init_square n (f : nat -> nat -> Z) : square n (mat_init n f).
Proof.
  split; [apply vec_init_length|]. intros row H. unfold mat_init, vec_init in H.
  apply in_map_iff in H. destruct H as (i & <- & _). now rewrite length_map, length_seq.
Qed.

Lemma set_nth_In {A} (l : list A) i x y :
  In y (set_nth l i x) -> y = x \/ In y l.
Proof.
  revert i. induction l as [ | h t IH]; intros [ | i]; simpl; try tauto.
  - intros [<- | H]; auto.
  - intros [<- | H]; auto. destruct (IH i H); auto.
Qed.

Lemma vsum_set_nth (l : vector) i x :
  i < length l -> vsum (set_nth l i x) = (vsum l - nth i l 0 + x)%Z.
Proof.
  revert i. induction l as [ | h t IH]; intros [ | i] Hi; simpl in *; try lia.
  rewrite IH by lia. lia.
Qed.

Lemma map_set_nth {A B} (f : A -> B) (l : list A) i x :
  map f (set_nth l i x) = set_nth (map f l) i (f x).
Proof.
  revert i. induction l as [ | h t IH]; intros [ | i]; simpl; try reflexivity.
  now rewrite IH.
Qed.

Section CellUpdate.

Variable n : nat.
Variable m : matrix.
Hypothesis m_square : square n m.
Variables s d : nat.
Hypothesis s_lt : s < n.
Hypothesis d_lt : d < n.

Lemma row_length i : i < n -> length (nth i m []) = n.
Proof.
  destruct m_square as [Hl Hr]. intros Hi. apply Hr, nth_In. lia.
Qed.

Lemma update_cell_unfold (v : Z) :
  dynamic_update_cell m v s d = set_nth m s (set_nth (nth s m []) d v).
Proof.
  destruct m_square as [Hl _]. unfold dynamic_update_cell.
  rewrite Hl. replace (Nat.min s (n - 1)) with s by lia.
  rewrite row_length by exact s_lt. now replace (Nat.min d (n - 1)) with d by lia.
Qed.

Lemma update_cell_square (v : Z) : square n (dynamic_update_cell m v s d).
Proof.
  rewrite update_cell_unfold. destruct m_square as [Hl Hr]. split.
  - now rewrite set_nth_length.
  - intros row H. apply set_nth_In in H. destruct H as [-> | H]; [|now apply Hr].
    rewrite set_nth_length. now apply row_length.
Qed.

Lemma update_cell_get (v : Z) i j :
  mget (dynamic_update_cell m v s d) i j
  = if Nat.eqb i s && Nat.eqb j d then v else mget m i j.
Proof.
  rewrite update_cell_unfold. unfold mget. destruct m_square as [Hl _].
  destruct (Nat.eqb_spec i s) as [-> | Hi]; simpl.
  - rewrite set_nth_same by lia.
    destruct (Nat.eqb_spec j d) as [-> | Hj].
    + apply set_nth_same. now rewrite row_length.
    + apply set_nth_other. auto.
  - now rewrite set_nth_other by auto.
Qed.

Lemma update_cell_sum (v : Z) :
  msum (dynamic_update_cell m v s d) = (msum m - mget m s d + v)%Z.
Proof.
  rewrite update_cell_unfold. unfold msum, mget. destruct m_square as [Hl _].
  rewrite map_set_nth.
  rewrite vsum_set_nth by (rewrite length_map; lia).
  rewrite vsum_set_nth by (now rewrite row_length).
  rewrite nth_map_lt with (d' := []) by lia. lia.
Qed.

End CellUpdate.

(** The two writes that [update_adj] makes for one edge. *)
Definition scatter_edge (adj : matrix) (e : nat * nat * Z) : matrix :=
  let s := fst (fst e) in
  let d := snd (fst e) in
  let update_val := (1 * snd e)%Z in
  dynamic_update_cell (dynamic_update_cell adj update_val s d) update_val d s.

Definition same_edge (e e' : nat * nat) : bool :=
  (Nat.eqb (fst e) (fst e') && Nat.eqb (snd e) (snd e'))
  || (Nat.eqb (fst e) (snd e') && Nat.eqb (snd e) (fst e')).

(** An edge list of a simple undirected graph on the nodes [0 .. n-1]: end
    points in range, no loop, no edge listed twice in either direction. *)
Fixpoint simple_edges (n : nat) (E : list (nat * nat)) : bool :=
  match E with
  | [] => true
  | e :: E' =>
      Nat.ltb (fst e) n && Nat.ltb (snd e) n && negb (Nat.eqb (fst e) (snd e))
      && forallb (fun e' => negb (same_edge e e')) E' && simple_edges n E'
  end.

Lemma fold_left_index {A B} (g : A -> B -> A) (l pre : list B) (d : B) (a : A) :
  fold_left (fun acc i => g acc (nth i (pre ++ l) d)) (seq (length pre) (length l)) a
  = fold_left g l a.
Proof.
  revert pre a. induction l as [ | x l IH]; intros pre a; [reflexivity|].
  simpl length. simpl seq. simpl fold_left. rewrite nth_middle.
  specialize (IH (pre ++ [x]) (g a x)).
  rewrite <- app_assoc, length_app in IH. simpl in IH.
  rewrite Nat.add_1_r in IH. exact IH.
Qed.

Lemma fold_left_ext_in {A B} (f g : A -> B -> A) (l : list B) (a : A) :
  (forall acc x, In x l -> f acc x = g acc x) -> fold_left f l a = fold_left g l a.
Proof.
  revert a. induction l as [ | x l IH]; intros a H; [reflexivity|].
  simpl. rewrite H by now left. apply IH. intros acc y Hy. apply H. now right.
Qed.

Lemma edges_to_adjacency_fold (flags : vector) (source_nodes dest_nodes : list nat) n :
  length source_nodes = length flags -> length dest_nodes = length flags ->
  edges_to_adjacency flags source_nodes dest_nodes n
  = fold_left scatter_edge (combine (combine source_nodes dest_nodes) flags)
              (mat_init n (fun _ _ => 0%Z)).
Proof.
  intros Hs Hd. unfold edges_to_adjacency.
  set (T := combine (combine source_nodes dest_nodes) flags).
  assert (HT : length T = length flags).
  { unfold T. rewrite !length_combine. lia. }
  rewrite <- (fold_left_index scatter_edge T [] (0, 0, 0%Z)).
  simpl length. rewrite HT. cbn [app]. apply fold_left_ext_in.
  intros acc idx Hidx. apply in_seq in Hidx.
  unfold scatter_edge, T, gather_node, vget.
  rewrite !combine_nth by (rewrite ?length_combine; lia). cbn [fst snd].
  rewrite Hs, Hd. now replace (Nat.min idx (length flags - 1)) with idx by lia.
Qed.

Lemma same_edge_false s d s' d' :
  same_edge (s, d) (s', d') = false ->
  ~ (s' = s /\ d' = d) /\ ~ (s' = d /\ d' = s).
Proof.
  unfold same_edge. cbn [fst snd]. intros H. apply orb_false_iff in H.
  destruct H as [H1 H2]. apply andb_false_iff in H1. apply andb_false_iff in H2.
  rewrite !Nat.eqb_neq in H1, H2. lia.
Qed.

Lemma scatter_edge_get n (M : matrix) s d f i j :
  square n M -> s < n -> d < n ->
  mget (scatter_edge M (s, d, f)) i j
  = if Nat.eqb i d && Nat.eqb j s then f
    else if Nat.eqb i s && Nat.eqb j d then f else mget M i j.
Proof.
  intros HM Hs Hd. unfold scatter_edge. cbn [fst snd]. rewrite Z.mul_1_l.
  rewrite (update_cell_get n) by (try apply update_cell_square; assumption).
  now rewrite (update_cell_get n) by assumption.
Qed.

Lemma scatter_edge_square n (M : matrix) s d f :
  square n M -> s < n -> d < n -> square n (scatter_edge M (s, d, f)).
Proof.
  intros HM Hs Hd. unfold scatter_edge.
  repeat apply update_cell_square; assumption.
Qed.

Lemma scatter_edge_sum n (M : matrix) s d f :
  square n M -> s < n -> d < n -> s <> d ->
  mget M s d = 0%Z -> mget M d s = 0%Z ->
  msum (scatter_edge M (s, d, f)) = (msum M + 2 * f)%Z.
Proof.
  intros HM Hs Hd Hne H1 H2. unfold scatter_edge. cbn [fst snd]. rewrite Z.mul_1_l.
  rewrite (update_cell_sum n) by (try apply update_cell_square; assumption).
  rewrite (update_cell_get n), (update_cell_sum n) by assumption.
  rewrite H1. destruct (Nat.eqb_spec d s); [lia|]. cbn [andb]. rewrite H2. lia.
Qed.

(** Scattering the edges of a simple graph into cells that hold 0 adds every
    flag twice to the sum of the matrix. *)
Lemma scatter_sum n (T : list (nat * nat * Z)) (M : matrix) :
  square n M -> simple_edges n (map fst T) = true ->
  (forall e, In e (map fst T) ->
     mget M (fst e) (snd e) = 0%Z /\ mget M (snd e) (fst e) = 0%Z) ->
  msum (fold_left scatter_edge T M) = (msum M + 2 * vsum (map snd T))%Z.
Proof.
  revert M. induction T as [ | [[s d] f] T IH]; intros M HM Hsimple Hzero.
  - simpl. lia.
  - simpl in Hsimple. rewrite !andb_true_iff in Hsimple.
    destruct Hsimple as ((((Hs & Hd) & Hne) & Hfresh) & Hrest).
    apply Nat.ltb_lt in Hs, Hd. apply negb_true_iff, Nat.eqb_neq in Hne.
    destruct (Hzero (s, d)) as [Z1 Z2]; [now left|]. cbn [fst snd] in Z1, Z2.
    simpl fold_left. rewrite IH.
    + rewrite (scatter_edge_sum n) by assumption.
      change (vsum (map snd ((s, d, f) :: T))) with (f + vsum (map snd T))%Z. lia.
    + now apply scatter_edge_square.
    + exact Hrest.
    + intros [s' d'] Hin. cbn [fst snd].
      rewrite forallb_forall in Hfresh. specialize (Hfresh _ Hin).
      apply negb_true_iff, same_edge_false in Hfresh. destruct Hfresh as [F1 F2].
      destruct (Hzero (s', d')) as [Z1' Z2']; [now right|]. cbn [fst snd] in Z1', Z2'.
      rewrite !(scatter_edge_get n) by assumption.
      destruct (Nat.eqb_spec s' d), (Nat.eqb_spec d' s), (Nat.eqb_spec s' s),
        (Nat.eqb_spec d' d); cbn [andb]; try lia; auto.
Qed.

Lemma simple_edges_in n E e :
  simple_edges n E = true -> In e E -> fst e < n /\ snd e < n.
Proof.
  induction E as [ | e' E IH]; simpl; [contradiction|].
  rewrite !andb_true_iff. intros ((((Hs & Hd) & _) & _) & Hrest) [-> | Hin].
  - apply Nat.ltb_lt in Hs, Hd. auto.
  - now apply IH.
Qed.

(** A cell that is not 0 after the scatter was not 0 before, or holds the
    flag of an edge between its two indices. *)
Lemma scatter_cell n (T : list (nat * nat * Z)) (M : matrix) i j :
  square n M -> simple_edges n (map fst T) = true ->
  mget (fold_left scatter_edge T M) i j <> 0%Z ->
  mget M i j <> 0%Z
  \/ exists e, In e T /\ snd e <> 0%Z /\ same_edge (fst e) (i, j) = true.
Proof.
  revert M. induction T as [ | [[s d] f] T IH]; intros M HM Hsimple Hnz.
  - now left.
  - pose proof (simple_edges_in n _ (s, d) Hsimple (or_introl eq_refl)) as [Hs Hd].
    cbn [fst snd] in Hs, Hd.
    simpl in Hsimple. rewrite !andb_true_iff in Hsimple. destruct Hsimple as (_ & Hrest).
    simpl fold_left in Hnz. apply IH in Hnz;
      [ | now apply scatter_edge_square | exact Hrest].
    destruct Hnz as [Hnz | (e & He & Hf & Hsame)].
    + rewrite (scatter_edge_get n) in Hnz by assumption.
      destruct (Nat.eqb i d && Nat.eqb j s) eqn:E1;
        [ | destruct (Nat.eqb i s && Nat.eqb j d) eqn:E2].
      * right. exists (s, d, f). split; [now left|]. split; [exact Hnz|].
        unfold same_edge. cbn [fst snd].
        apply andb_true_iff in E1. destruct E1 as [A B].
        apply Nat.eqb_eq in A, B. subst. rewrite !Nat.eqb_refl. apply orb_true_r.
      * right. exists (s, d, f). split; [now left|]. split; [exact Hnz|].
        unfold same_edge. cbn [fst snd].
        apply andb_true_iff in E2. destruct E2 as [A B].
        apply Nat.eqb_eq in A, B. subst. now rewrite !Nat.eqb_refl.
      * now left.
    + right. exists e. split; [now right | auto].
Qed.

(** *** What [calculate_congestion] returns on a simple graph *)

(** A mask of [n] entries, each 0 or 1. *)
Definition binary_mask (n : nat) (p : vector) : bool :=
  Nat.eqb (length p) n && forallb (fun x => (x =? 0)%Z || (x =? 1)%Z) p.

(** Inputs of [calculate_congestion] as [main_jax] builds them: a binary
    mask, a square adjacency without negative entries, the edges of a simple
    graph whose nodes are numbered from 0. *)
Definition well_formed (partition_mask : vector) (adjacency : matrix)
    (source_nodes dest_nodes : list nat) : bool :=
  binary_mask (length adjacency) partition_mask
  && adjacency_ok adjacency
  && Nat.eqb (length source_nodes) (length dest_nodes)
  && simple_edges (length adjacency) (combine source_nodes dest_nodes)
  && existsb (Nat.eqb 0) (source_nodes ++ dest_nodes).

Lemma binary_mask_get n p j :
  binary_mask n p = true -> j < n -> vget p j = 0%Z \/ vget p j = 1%Z.
Proof.
  unfold binary_mask. rewrite andb_true_iff, Nat.eqb_eq, forallb_forall.
  intros [Hl Hall] Hj. specialize (Hall (vget p j)).
  rewrite orb_true_iff, !Z.eqb_eq in Hall. apply Hall, nth_In. lia.
Qed.

Lemma complement_get n p j :
  length p = n -> j < n -> vget (map (fun x => 1 - x)%Z p) j = (1 - vget p j)%Z.
Proof. intros Hl Hj. unfold vget. apply nth_map_lt. lia. Qed.

Lemma complement_binary n p :
  binary_mask n p = true -> binary_mask n (map (fun x => 1 - x)%Z p) = true.
Proof.
  unfold binary_mask. rewrite !andb_true_iff, !Nat.eqb_eq, !forallb_forall, length_map.
  intros [Hl Hall]. split; [exact Hl|]. intros x Hx. apply in_map_iff in Hx.
  destruct Hx as (y & <- & Hy). specialize (Hall y Hy).
  rewrite orb_true_iff, !Z.eqb_eq in *. lia.
Qed.

Lemma fold_min_zero (l : list nat) (a : nat) :
  a = 0 \/ In 0 l -> fold_left Nat.min l a = 0.
Proof.
  revert a. induction l as [ | y l IH]; intros a H; simpl.
  - destruct H as [H | []]. exact H.
  - apply IH. destruct H as [-> | [-> | H]]; [left | left | right]; auto; lia.
Qed.

Lemma combine_with_map {A B} (g : A -> B) (l : list A) :
  combine l (map g l) = map (fun x => (x, g x)) l.
Proof. induction l as [ | x l IH]; simpl; [reflexivity | now rewrite IH]. Qed.

(** On well-formed input the flags of [find_cutset_edges] mark the edges
    with exactly one end point in partition1. *)
Lemma find_cutset_edges_spec (partition_mask : vector) (adjacency : matrix)
    (source_nodes dest_nodes : list nat) :
  well_formed partition_mask adjacency source_nodes dest_nodes = true ->
  find_cutset_edges partition_mask (map (fun x => 1 - x)%Z partition_mask)
                    source_nodes dest_nodes
  = Some (map (fun e => Z.b2z (is_cut_edge_spec partition_mask e))
              (combine source_nodes dest_nodes)).
Proof.
  unfold well_formed. rewrite !andb_true_iff.
  intros ((((Hbin & _) & _) & Hsimple) & Hzero).
  unfold find_cutset_edges.
  apply existsb_exists in Hzero. destruct Hzero as (z & Hz & E).
  apply Nat.eqb_eq in E. subst z.
  destruct (source_nodes ++ dest_nodes) as [ | x rest]; [contradiction|].
  rewrite fold_min_zero by (destruct Hz; auto).
  f_equal. apply map_ext_in. intros [u v] Hin.
  destruct (simple_edges_in _ _ _ Hsimple Hin) as [Hu Hv]. cbn [fst snd] in *.
  assert (Hl : length partition_mask = length adjacency).
  { unfold binary_mask in Hbin. apply andb_true_iff in Hbin.
    now apply Nat.eqb_eq. }
  unfold gather, is_cut_edge_spec, in_partition. cbn [fst snd].
  rewrite length_map, Hl, !Nat.sub_0_r.
  replace (Nat.min u (length adjacency - 1)) with u by lia.
  replace (Nat.min v (length adjacency - 1)) with v by lia.
  rewrite !(complement_get (length adjacency)) by assumption.
  destruct (binary_mask_get _ _ u Hbin Hu) as [-> | ->],
           (binary_mask_get _ _ v Hbin Hv) as [-> | ->]; reflexivity.
Qed.

Lemma vsum_flags {A} (g : A -> bool) (l : list A) :
  vsum (map (fun e => Z.b2z (g e)) l) = Z.of_nat (length (filter g l)).
Proof.
  induction l as [ | x l IH]; [reflexivity|].
  simpl map. simpl filter. change (vsum (?a :: ?t)) with (a + vsum t)%Z.
  rewrite IH. destruct (g x); simpl Z.b2z; simpl length; lia.
Qed.

Lemma zeros_get n i j : i < n -> j < n -> mget (mat_init n (fun _ _ => 0%Z)) i j = 0%Z.
Proof. intros. now apply mat_init_get. Qed.

Lemma vsum_zeros {A} (l : list A) : vsum (map (fun _ => 0%Z) l) = 0%Z.
Proof. induction l as [ | x l IH]; [reflexivity | exact IH]. Qed.

Lemma zeros_sum n : msum (mat_init n (fun _ _ => 0%Z)) = 0%Z.
Proof.
  unfold msum, mat_init, vec_init. rewrite map_map.
  rewrite map_ext with (g := fun _ => 0%Z) by (intros; apply vsum_zeros).
  apply vsum_zeros.
Qed.

Section CutMatrix.

Variables (partition_mask : vector) (adjacency : matrix).
Variables (source_nodes dest_nodes : list nat).
Hypothesis wf : well_formed partition_mask adjacency source_nodes dest_nodes = true.

Let n := length adjacency.
Let E := combine source_nodes dest_nodes.
Let flags := map (fun e => Z.b2z (is_cut_edge_spec partition_mask e)) E.
Let cut_matrix := edges_to_adjacency flags source_nodes dest_nodes n.

Lemma wf_parts :
  binary_mask n partition_mask = true /\ adjacency_ok adjacency = true
  /\ length source_nodes = length dest_nodes /\ simple_edges n E = true.
Proof.
  unfold well_formed in wf. rewrite !andb_true_iff in wf.
  destruct wf as ((((H1 & H2) & H3) & H4) & _). apply Nat.eqb_eq in H3. auto.
Qed.

Lemma cut_matrix_fold :
  cut_matrix = fold_left scatter_edge (map (fun e => (e, Z.b2z (is_cut_edge_spec partition_mask e))) E)
                         (mat_init n (fun _ _ => 0%Z)).
Proof.
  destruct wf_parts as (_ & _ & Hlen & _).
  unfold cut_matrix. rewrite edges_to_adjacency_fold.
  - fold E. unfold flags. now rewrite combine_with_map.
  - unfold flags, E. rewrite length_map, length_combine. lia.
  - unfold flags, E. rewrite length_map, length_combine. lia.
Qed.

(** The sum of the cut matrix is twice the number of cut edges. *)
Lemma cut_matrix_sum :
  msum cut_matrix
  = (2 * Z.of_nat (cut_size_spec partition_mask source_nodes dest_nodes))%Z.
Proof.
  destruct wf_parts as (_ & _ & _ & Hsimple).
  rewrite cut_matrix_fold, (scatter_sum n).
  - rewrite !map_map. cbn [snd]. rewrite vsum_flags.
    now rewrite zeros_sum.
  - apply mat_init_square.
  - rewrite map_map. cbn [fst]. now rewrite map_id.
  - intros e He. rewrite map_map in He. cbn [fst] in He. rewrite map_id in He.
    destruct (simple_edges_in _ _ _ Hsimple He). now rewrite !zeros_get.
Qed.

(** The cut matrix is 0 between two nodes of the same side. *)
Lemma cut_matrix_same_side i j :
  i < n -> j < n ->
  in_partition partition_mask i = in_partition partition_mask j ->
  mget cut_matrix i j = 0%Z.
Proof.
  intros Hi Hj Hside. destruct wf_parts as (_ & _ & _ & Hsimple).
  destruct (Z.eq_dec (mget cut_matrix i j) 0) as [Hz | Hnz]; [exact Hz|].
  exfalso. rewrite cut_matrix_fold in Hnz.
  apply (scatter_cell n) in Hnz;
    [ | apply mat_init_square | rewrite map_map; cbn [fst]; now rewrite map_id].
  destruct Hnz as [Hnz | ([[s d] f] & Hin & Hf & Hsame)].
  - now rewrite zeros_get in Hnz.
  - apply in_map_iff in Hin. destruct Hin as (e & He & _). injection He as -> <-.
    cbn [fst snd] in *. unfold is_cut_edge_spec in Hf. cbn [fst snd] in Hf.
    unfold same_edge in Hsame. cbn [fst snd] in Hsame.
    rewrite orb_true_iff, !andb_true_iff, !Nat.eqb_eq in Hsame.
    destruct Hsame as [[-> ->] | [-> ->]];
      rewrite Hside, xorb_nilpotent in Hf; now apply Hf.
Qed.

End CutMatrix.

(** The connectivity gate of the code and the gate of the specification. *)

Lemma forallb_vec_init n (f : nat -> bool) :
  forallb (fun b => b) (vec_init n f) = forallb f (seq 0 n).
Proof.
  unfold vec_init. induction (seq 0 n) as [ | x l IH]; simpl; [reflexivity|].
  now rewrite IH.
Qed.

Lemma forallb_ext_in {A} (f g : A -> bool) (l : list A) :
  (forall x, In x l -> f x = g x) -> forallb f l = forallb g l.
Proof.
  induction l as [ | x l IH]; intros H; simpl; [reflexivity|].
  rewrite H by now left. f_equal. apply IH. intros y Hy. apply H. now right.
Qed.

Lemma vec_init_ext {A} n (f g : nat -> A) :
  (forall i, i < n -> f i = g i) -> vec_init n f = vec_init n g.
Proof.
  intros H. unfold vec_init. apply map_ext_in. intros i Hi. apply H.
  apply in_seq in Hi. lia.
Qed.

Lemma gate_code_spec n (adjacency cut_matrix : matrix) (p : vector) :
  binary_mask n p = true ->
  (forall i j, (0 <= mget adjacency i j)%Z) ->
  (forall i j, i < n -> j < n -> vget p i = 1%Z -> vget p j = 1%Z ->
               mget cut_matrix i j = 0%Z) ->
  let partitioned_adj :=
    mat_init n (fun i j => (mget adjacency i j - mget cut_matrix i j)%Z) in
  let masked :=
    mat_init n (fun i j =>
      if (vget p i * vget p j >? 0)%Z then mget partitioned_adj i j else 0%Z) in
  forallb (fun b => b)
    (vec_init n (fun j =>
       if (vget p j >? 0)%Z then (vget (sum_axis0 n masked) j >? 0)%Z else true))
  = gate_spec n adjacency p.
Proof.
  intros Hbin Hnn Hcut partitioned_adj masked.
  rewrite forallb_vec_init. unfold gate_spec. apply forallb_ext_in.
  intros j Hj. apply in_seq in Hj. assert (Hjn : j < n) by lia. clear Hj.
  unfold in_partition at 1.
  destruct (binary_mask_get n p j Hbin Hjn) as [Ej | Ej]; rewrite Ej;
    [reflexivity|]. cbn [Z.gtb Z.compare Z.eqb negb implb].
  assert (G : forall i, i < n ->
                mget masked i j = if (vget p i =? 1)%Z then mget adjacency i j else 0%Z).
  { intros i Hi. unfold masked, partitioned_adj. rewrite !mat_init_get by assumption.
    rewrite Ej. destruct (binary_mask_get n p i Hbin Hi) as [Ei | Ei]; rewrite Ei;
      [reflexivity|]. cbn. rewrite (Hcut i j) by assumption. lia. }
  unfold sum_axis0, vget at 1. rewrite vec_init_nth by exact Hjn.
  rewrite (vec_init_ext n _ _ G).
  apply eq_true_iff_eq. rewrite Z.gtb_lt, existsb_exists.
  rewrite vsum_init_pos
    by (intros i _; destruct (vget p i =? 1)%Z; [apply Hnn | lia]).
  split.
  - intros (i & Hi & Hpos). exists i. split; [apply in_seq; lia|].
    unfold in_partition. destruct (Z.eqb_spec (vget p i) 1) as [E1 | E1]; [|lia].
    rewrite E1. cbn. apply negb_true_iff, Z.eqb_neq. lia.
  - intros (i & Hi & H). apply in_seq in Hi. exists i. split; [lia|].
    apply andb_true_iff in H. destruct H as [Hin Hadj].
    unfold in_partition in Hin. apply negb_true_iff, Z.eqb_neq in Hin, Hadj.
    destruct (binary_mask_get n p i Hbin) as [Ei | Ei]; [lia | congruence | ].
    rewrite Ei. cbn. specialize (Hnn i j). lia.
Qed.

(** The two ways of writing the traffic sum agree. *)

Lemma qsum_Forall2 (l l' : list Q) :
  Forall2 Qeq l l' -> fold_right Qplus 0%Q l == fold_right Qplus 0%Q l'.
Proof.
  induction 1 as [ | x y l l' Hxy _ IH]; simpl; [reflexivity|].
  now rewrite Hxy, IH.
Qed.

Lemma map_Forall2 {A B} (R : B -> B -> Prop) (f g : A -> B) (l : list A) :
  (forall x, In x l -> R (f x) (g x)) -> Forall2 R (map f l) (map g l).
Proof.
  induction l as [ | x l IH]; intros H; simpl; constructor.
  - apply H. now left.
  - apply IH. intros y Hy. apply H. now right.
Qed.

Lemma concat_Forall2 {A} (R : A -> A -> Prop) (ll ll' : list (list A)) :
  Forall2 (Forall2 R) ll ll' -> Forall2 R (concat ll) (concat ll').
Proof.
  induction 1 as [ | l l' ll ll' H _ IH]; simpl; [constructor|].
  now apply Forall2_app.
Qed.

Lemma traffic_sum_agrees n (traffic_matrix : list (list Q)) (p1 p2 : vector) :
  fold_right Qplus 0%Q
    (concat (mat_init n (fun i j =>
       (nth j (nth i traffic_matrix []) 0%Q * inject_Z (vget p1 i * vget p2 j))%Q)))
  == traffic_crossing_spec n traffic_matrix p1 p2.
Proof.
  unfold traffic_crossing_spec. apply qsum_Forall2, concat_Forall2.
  unfold mat_init, vec_init. apply map_Forall2. intros i _.
  apply map_Forall2. intros j _. rewrite inject_Z_mult. ring.
Qed.

(** On well-formed input [calculate_congestion] returns, and what it returns
    is half the specified congestion: the traffic crossing the cut divided
    by twice the number of cut edges when the cut is not empty and both
    connectivity gates pass, and 0 otherwise. *)
Theorem calculate_congestion_is_half (partition_mask : vector) (adjacency : matrix)
    (traffic_matrix : list (list Q)) (source_nodes dest_nodes : list nat) :
  well_formed partition_mask adjacency source_nodes dest_nodes = true ->
  exists q,
    calculate_congestion partition_mask adjacency traffic_matrix source_nodes dest_nodes
    = Some q
    /\ q == congestion_spec partition_mask adjacency traffic_matrix
                            source_nodes dest_nodes * (1 # 2).
Proof.
  intros wf.
  destruct (wf_parts _ _ _ _ wf) as (Hbin & Hok & _ & _).
  pose proof (complement_binary _ _ Hbin) as Hbin2.
  assert (Hl : length partition_mask = length adjacency).
  { unfold binary_mask in Hbin. apply andb_true_iff in Hbin. now apply Nat.eqb_eq. }
  unfold calculate_congestion. rewrite (find_cutset_edges_spec _ adjacency) by exact wf.
  eexists. split; [reflexivity|].
  rewrite cut_matrix_sum by exact wf.
  rewrite !gate_code_spec.
  - unfold congestion_spec.
    set (c := cut_size_spec partition_mask source_nodes dest_nodes).
    set (g1 := gate_spec _ _ partition_mask).
    set (g2 := gate_spec _ _ (map _ partition_mask)).
    destruct c as [ | c].
    + cbn [Nat.ltb Nat.leb andb Z.of_nat Z.mul Z.gtb Z.compare].
      destruct (g1 && g2); ring.
    + replace (2 * Z.of_nat (S c) >? 0)%Z with true by (symmetry; apply Z.gtb_lt; lia).
      replace (Nat.ltb 0 (S c)) with true by (symmetry; apply Nat.ltb_lt; lia).
      cbn [andb]. destruct (g1 && g2).
      * rewrite traffic_sum_agrees, inject_Z_mult. field.
        change 0%Q with (inject_Z 0). rewrite inject_Z_injective. lia.
      * ring.
  - exact Hbin2.
  - intros i j. now apply adjacency_ok_nonneg.
  - intros i j Hi Hj Ei Ej. apply cut_matrix_same_side; try assumption.
    rewrite (complement_get (length adjacency)) in Ei, Ej by assumption.
    unfold in_partition. replace (vget partition_mask i) with 0%Z by lia.
    now replace (vget partition_mask j) with 0%Z by lia.
  - exact Hbin.
  - intros i j. now apply adjacency_ok_nonneg.
  - intros i j Hi Hj Ei Ej. apply cut_matrix_same_side; try assumption.
    unfold in_partition. now rewrite Ei, Ej.
Qed.

Lemma calculate_congestion_is_half_witness :
  well_formed [1; 1; 0; 0]%Z ring_adjacency ring_sources ring_dests = true
  /\ exists q,
       calculate_congestion [1; 1; 0; 0]%Z ring_adjacency unit_traffic
                            ring_sources ring_dests = Some q
       /\ q == 2 * (1 # 2).
Proof.
  split; [reflexivity|].
  destruct (calculate_congestion_is_half [1; 1; 0; 0]%Z ring_adjacency unit_traffic
              ring_sources ring_dests eq_refl) as (q & E & H).
  exists q. split; [exact E|]. rewrite H. reflexivity.
Defined.

End Cutsets.

(** ** Stable sorting, as [jnp.argsort] and [jnp.unique] order their output *)

Section StableSort.

Context {A : Type} (leb : A -> A -> bool).

Fixpoint insert (x : A) (l : list A) : list A :=
  match l with
  | [] => [x]
  | y :: t => if leb x y then x :: y :: t else y :: insert x t
  end.

Definition stable_sort (l : list A) : list A := fold_right insert [] l.

Lemma insert_perm x l : Permutation (x :: l) (insert x l).
Proof.
  induction l as [ | y t IH]; simpl; [reflexivity|].
  destruct (leb x y); [reflexivity|].
  rewrite perm_swap. now apply perm_skip.
Qed.

Lemma stable_sort_perm l : Permutation l (stable_sort l).
Proof.
  induction l as [ | x l IH]; simpl; [constructor|].
  rewrite <- insert_perm. now apply perm_skip.
Qed.

Hypothesis leb_total : forall x y, leb x y = true \/ leb y x = true.
Hypothesis leb_trans : forall x y z, leb x y = true -> leb y z = true -> leb x z = true.

Let le (x y : A) : Prop := leb x y = true.

Lemma insert_sorted x l : StronglySorted le l -> StronglySorted le (insert x l).
Proof.
  induction 1 as [ | y t Hs IH Hy]; simpl; [repeat constructor|].
  destruct (leb x y) eqn:E.
  - constructor; [now constructor|]. constructor; [exact E|].
    eapply Forall_impl; [|exact Hy]. intros z Hz. now apply leb_trans with y.
  - constructor; [exact IH|].
    apply (Permutation_Forall (insert_perm x t)). constructor; [|exact Hy].
    destruct (leb_total x y) as [H | H]; [congruence | exact H].
Qed.

Lemma stable_sort_sorted l : StronglySorted le (stable_sort l).
Proof. induction l as [ | x l IH]; simpl; [constructor | now apply insert_sorted]. Qed.

Lemma sorted_app_le (a b : list A) x y :
  StronglySorted le (a ++ b) -> In x a -> In y b -> leb x y = true.
Proof.
  induction a as [ | h a IH]; simpl; intros Hs Hx Hy; [contradiction|].
  inversion Hs as [ | ? ? Hs' Hall]; subst. destruct Hx as [-> | Hx].
  - rewrite Forall_forall in Hall. apply Hall, in_or_app. now right.
  - now apply IH.
Qed.

End StableSort.

(** ** Shared post-processing of the estimator *)

Module Postprocess.

Import Cutsets.
Local Open Scope nat_scope.

Record heavy_cut_sets : Type := {
  congestion : list Q;
  partition1 : list vector;
  partition2 : list vector;
  cutset_edges : list vector
}.

(** [a[idx]]: the rows of [a] at the positions [idx]. *)
Definition index {A} (d : A) (a : list A) (idx : list nat) : list A :=
  map (fun i => nth i a d) idx.

(** [a[-k:]]: the last [k] entries; [a[-0:]] is all of [a]. *)
Definition last_k {A} (k : nat) (a : list A) : list A :=
  if Nat.eqb k 0 then a else skipn (length a - k) a.

(** [jnp.argsort(keys)]: positions in ascending order of key, ties in
    position order. *)
Definition argsort (keys : list Q) : list nat :=
  stable_sort (fun i j => Qle_bool (nth i keys 0%Q) (nth j keys 0%Q))
              (seq 0 (length keys)).

Fixpoint row_eqb (a b : vector) : bool :=
  match a, b with
  | [], [] => true
  | x :: a', y :: b' => (x =? y)%Z && row_eqb a' b'
  | _, _ => false
  end.

(** Lexicographic order of rows. *)
Fixpoint row_leb (a b : vector) : bool :=
  match a, b with
  | [], _ => true
  | _ :: _, [] => false
  | x :: a', y :: b' => (x <? y)%Z || ((x =? y)%Z && row_leb a' b')
  end.

(** Row [i] is not equal to any earlier row. *)
Definition first_occurrence (rows : list vector) (i : nat) : bool :=
  negb (existsb (fun j => row_eqb (nth j rows []) (nth i rows [])) (seq 0 i)).

(** The index array of [jnp.unique(rows, axis=0, return_index=True)]: for
    every distinct row the position of its first occurrence, listed in the
    sorted order of the rows. *)
Definition unique_index (rows : list vector) : list nat :=
  stable_sort (fun i j => row_leb (nth i rows []) (nth j rows []))
              (filter (first_occurrence rows) (seq 0 (length rows))).

Fixpoint all_some {A} (l : list (option A)) : option (list A) :=
  match l with
  | [] => Some []
  | None :: _ => None
  | Some x :: t => option_map (cons x) (all_some t)
  end.

(** [jax.vmap(find_cutset_edges, in_axes=(0, 0, None, None))]. *)
Definition recomputed_cutset_edges (partition1 partition2 : list vector)
    (source_nodes destination_nodes : list nat) : option (list vector) :=
  all_some (map (fun p => find_cutset_edges (fst p) (snd p) source_nodes destination_nodes)
                (combine partition1 partition2)).

(** The tail of [main_jax], from the flattened results to the printed
    dictionary. *)
Definition main_jax_postprocess (top_k : nat) (congestions : list Q)
    (partition1 partition2 : list vector) (source_nodes destination_nodes : list nat)
  : option heavy_cut_sets :=
  match recomputed_cutset_edges partition1 partition2 source_nodes destination_nodes with
  | None => None
  | Some cutset_edges =>
      let unique_indices := unique_index cutset_edges in
      let cutset_edges := index [] cutset_edges unique_indices in
      let congestions := index 0%Q congestions unique_indices in
      let partition1 := index [] partition1 unique_indices in
      let partition2 := index [] partition2 unique_indices in
      let top_k_indices := last_k top_k (argsort congestions) in
      Some {| congestion := index 0%Q congestions top_k_indices;
              partition1 := index [] partition1 top_k_indices;
              partition2 := index [] partition2 top_k_indices;
              cutset_edges := index [] cutset_edges top_k_indices |}
  end.

(** *** Deduplication *)

Lemma row_eqb_eq a b : row_eqb a b = true <-> a = b.
Proof.
  revert b. induction a as [ | x a IH]; intros [ | y b]; simpl;
    try (split; [discriminate | discriminate]); [tauto|].
  rewrite andb_true_iff, Z.eqb_eq, IH. split; [intros [-> ->]; reflexivity|].
  intros E. injection E. auto.
Qed.

Lemma first_occurrence_spec rows i :
  first_occurrence rows i = true <->
  forall j, j < i -> nth j rows [] <> nth i rows [].
Proof.
  unfold first_occurrence. rewrite negb_true_iff. split.
  - intros H j Hj E.
    assert (Hex : existsb (fun j => row_eqb (nth j rows []) (nth i rows [])) (seq 0 i) = true).
    { apply existsb_exists. exists j. split; [apply in_seq; lia | now apply row_eqb_eq]. }
    congruence.
  - intros H. destruct (existsb _ _) eqn:E; [|reflexivity].
    apply existsb_exists in E. destruct E as (j & Hj & E).
    apply in_seq in Hj. apply row_eqb_eq in E. exfalso. apply (H j); [lia | exact E].
Qed.

Lemma unique_index_In rows k :
  In k (unique_index rows) <-> k < length rows /\ first_occurrence rows k = true.
Proof.
  unfold unique_index. split.
  - intros H. apply (Permutation_in _ (Permutation_sym (stable_sort_perm _ _))) in H.
    apply filter_In in H. destruct H as [H1 H2]. apply in_seq in H1. split; [lia | exact H2].
  - intros [H1 H2]. apply (Permutation_in _ (stable_sort_perm _ _)).
    apply filter_In. split; [apply in_seq; lia | exact H2].
Qed.

Lemma unique_index_NoDup rows : NoDup (unique_index rows).
Proof.
  unfold unique_index. eapply Permutation_NoDup; [apply stable_sort_perm|].
  apply NoDup_filter, seq_NoDup.
Qed.

(** Every row has a first occurrence at or before it. *)
Lemma first_occurrence_exists rows i :
  exists k, k <= i /\ first_occurrence rows k = true /\ nth k rows [] = nth i rows [].
Proof.
  induction i as [i IH] using lt_wf_ind.
  destruct (first_occurrence rows i) eqn:E.
  - exists i. auto.
  - unfold first_occurrence in E. rewrite negb_false_iff in E.
    apply existsb_exists in E. destruct E as (j & Hj & E).
    apply in_seq in Hj. apply row_eqb_eq in E.
    destruct (IH j) as (k & Hk & Hf & Hr); [lia|].
    exists k. split; [lia|]. split; [exact Hf | congruence].
Qed.

(** *** Selection of the top rows *)

Lemma Qle_bool_total x y : Qle_bool x y = true \/ Qle_bool y x = true.
Proof.
  rewrite !Qle_bool_iff. destruct (Qlt_le_dec x y) as [H | H]; [left | right]; auto.
  now apply Qlt_le_weak.
Qed.

Lemma Qle_bool_trans x y z :
  Qle_bool x y = true -> Qle_bool y z = true -> Qle_bool x z = true.
Proof. rewrite !Qle_bool_iff. apply Qle_trans. Qed.

Lemma argsort_perm keys : Permutation (seq 0 (length keys)) (argsort keys).
Proof. apply stable_sort_perm. Qed.

Lemma argsort_sorted keys :
  StronglySorted (fun i j => Qle_bool (nth i keys 0%Q) (nth j keys 0%Q) = true)
                 (argsort keys).
Proof.
  apply stable_sort_sorted.
  - intros x y. apply Qle_bool_total.
  - intros x y z. apply Qle_bool_trans.
Qed.

Lemma last_k_suffix {A} k (a : list A) : exists pre, a = pre ++ last_k k a.
Proof.
  unfold last_k. destruct (Nat.eqb k 0).
  - exists []. reflexivity.
  - exists (firstn (length a - k) a). symmetry. apply firstn_skipn.
Qed.

Lemma last_k_length {A} k (a : list A) :
  length (last_k k a) = if Nat.eqb k 0 then length a else Nat.min k (length a).
Proof.
  unfold last_k. destruct (Nat.eqb k 0); [reflexivity|].
  rewrite length_skipn. lia.
Qed.

Lemma NoDup_map_nth {A} (l : list A) (d : A) (idx : list nat) :
  NoDup l -> NoDup idx -> (forall t, In t idx -> t < length l) ->
  NoDup (map (fun t => nth t l d) idx).
Proof.
  intros Hl Hidx Hlt. induction Hidx as [ | t idx Hnot Hnd IH]; simpl; constructor.
  - intros Hin. apply in_map_iff in Hin. destruct Hin as (u & E & Hu).
    apply Hnot. rewrite NoDup_nth in Hl.
    rewrite <- (Hl u t); [exact Hu | apply Hlt; now right | apply Hlt; now left | exact E].
  - apply IH. intros u Hu. apply Hlt. now right.
Qed.

Lemma index_index {A} (d : A) (a : list A) (kept idx : list nat) :
  (forall t, In t idx -> t < length kept) ->
  index d (index d a kept) idx = index d a (index 0 kept idx).
Proof.
  intros Hlt. unfold index. rewrite map_map. apply map_ext_in. intros t Ht.
  apply (nth_map_lt (fun i => nth i a d)). now apply Hlt.
Qed.

(** C4.  Of the rows of the recomputed cutset-edge array that are equal to
    one another, the post-processing keeps exactly one, the first in the
    original order; the rows it selects afterwards are taken among the kept
    ones only, each with its own congestion and partitions, and they are the
    [top_k] of largest congestion among the kept rows. *)
Theorem main_jax_keeps_first_of_duplicates
    (top_k : nat) (congestions : list Q) (p1 p2 : list vector)
    (source_nodes destination_nodes : list nat) (rows : list vector) :
  recomputed_cutset_edges p1 p2 source_nodes destination_nodes = Some rows ->
  let kept := unique_index rows in
  NoDup kept /\
  (forall k, In k kept -> k < length rows) /\
  (forall i, i < length rows ->
     exists k, In k kept /\ k <= i /\ nth k rows [] = nth i rows []
               /\ (forall j, j < k -> nth j rows [] <> nth i rows [])
               /\ (forall k', In k' kept -> nth k' rows [] = nth i rows [] -> k' = k)) /\
  exists out selected,
    main_jax_postprocess top_k congestions p1 p2 source_nodes destination_nodes = Some out
    /\ incl selected kept /\ NoDup selected
    /\ length selected
       = (if Nat.eqb top_k 0 then length kept else Nat.min top_k (length kept))
    /\ (forall i j, In i selected -> In j kept -> ~ In j selected ->
          (nth j congestions 0 <= nth i congestions 0)%Q)
    /\ congestion out = index 0%Q congestions selected
    /\ partition1 out = index [] p1 selected
    /\ partition2 out = index [] p2 selected
    /\ cutset_edges out = index [] rows selected.
Proof.
  intros Hrows kept.
  split; [apply unique_index_NoDup|].
  split; [intros k Hk; now apply unique_index_In in Hk|].
  split.
  { intros i Hi. destruct (first_occurrence_exists rows i) as (k & Hle & Hf & Hr).
    exists k. split; [apply unique_index_In; split; [lia | exact Hf]|].
    split; [exact Hle|]. split; [exact Hr|]. split.
    - rewrite <- Hr. now apply first_occurrence_spec.
    - intros k' Hk' Hr'. apply unique_index_In in Hk'. destruct Hk' as [_ Hf'].
      rewrite first_occurrence_spec in Hf, Hf'.
      destruct (Nat.lt_trichotomy k' k) as [Hlt | [E | Hlt]]; [ | exact E | ].
      + exfalso. apply (Hf k' Hlt). congruence.
      + exfalso. apply (Hf' k Hlt). congruence. }
  unfold main_jax_postprocess. rewrite Hrows. fold kept.
  set (c' := index 0%Q congestions kept).
  set (tk := last_k top_k (argsort c')).
  assert (Hlen : length c' = length kept) by apply length_map.
  pose proof (argsort_perm c') as Hperm. rewrite Hlen in Hperm.
  destruct (last_k_suffix top_k (argsort c')) as [pre Hpre]. fold tk in Hpre.
  assert (Hin : forall t, In t tk -> t < length kept).
  { intros t Ht. assert (In t (argsort c')) by (rewrite Hpre; apply in_or_app; now right).
    apply (Permutation_in _ (Permutation_sym Hperm)), in_seq in H. lia. }
  assert (Hnd : NoDup tk).
  { assert (NoDup (argsort c')) by (eapply Permutation_NoDup; [exact Hperm | apply seq_NoDup]).
    rewrite Hpre in H. now apply NoDup_app_remove_l in H. }
  eexists. exists (index 0 kept tk). split; [reflexivity|].
  split.
  { intros x Hx. apply in_map_iff in Hx. destruct Hx as (t & <- & Ht).
    apply nth_In. now apply Hin. }
  split; [apply NoDup_map_nth; [apply unique_index_NoDup | exact Hnd | exact Hin]|].
  split.
  { unfold index. rewrite length_map. unfold tk. rewrite last_k_length.
    now rewrite <- (Permutation_length Hperm), length_seq. }
  split.
  { intros i j Hi Hj Hnot.
    apply in_map_iff in Hi. destruct Hi as (t & <- & Ht).
    destruct (In_nth _ _ 0 Hj) as (u & Hu & <-).
    assert (Hpu : In u pre).
    { assert (Hsrt : In u (argsort c'))
        by (apply (Permutation_in _ Hperm), in_seq; lia).
      rewrite Hpre in Hsrt. apply in_app_or in Hsrt. destruct Hsrt as [H | H]; [exact H|].
      exfalso. apply Hnot. apply in_map_iff. exists u. auto. }
    pose proof (argsort_sorted c') as Hs. rewrite Hpre in Hs.
    pose proof (sorted_app_le _ pre tk u t Hs Hpu Ht) as Hle.
    apply Qle_bool_iff in Hle. unfold c', index in Hle.
    rewrite !(nth_map_lt (fun i => nth i congestions 0%Q)) with (d' := 0) in Hle
      by (try exact Hu; now apply Hin).
    exact Hle. }
  cbn [congestion partition1 partition2 cutset_edges].
  rewrite !index_index by exact Hin. unfold c'.
  rewrite index_index by exact Hin. repeat split.
Qed.

Definition demo_rows : list vector :=
  [[0; 1; 1; 0]; [1; 1; 0; 0]; [0; 1; 1; 0]; [0; 1; 0; 1]]%Z.
Definition demo_partition1 : list vector :=
  [[1; 1; 0; 0]; [1; 0; 0; 0]; [0; 0; 1; 1]; [1; 1; 1; 0]]%Z.
Definition demo_partition2 : list vector :=
  [[0; 0; 1; 1]; [0; 1; 1; 1]; [1; 1; 0; 0]; [0; 0; 0; 1]]%Z.

(** On the ring the partitions {0,1} and {2,3} have the same cut edges; the
    second of them (row 2, congestion 2) is dropped, the first is kept. *)
Example main_jax_postprocess_ring :
  main_jax_postprocess 2 [1; 3; 2; 5]%Q demo_partition1 demo_partition2
                       ring_sources ring_dests
  = Some {| congestion := [3; 5]%Q;
            partition1 := [[1; 0; 0; 0]; [1; 1; 1; 0]]%Z;
            partition2 := [[0; 1; 1; 1]; [0; 0; 0; 1]]%Z;
            cutset_edges := [[1; 1; 0; 0]; [0; 1; 0; 1]]%Z |}.
Proof. reflexivity. Qed.

Lemma main_jax_keeps_first_of_duplicates_witness :
  recomputed_cutset_edges demo_partition1 demo_partition2 ring_sources ring_dests
  = Some demo_rows
  /\ In 0 (unique_index demo_rows) /\ ~ In 2 (unique_index demo_rows)
  /\ NoDup (unique_index demo_rows).
Proof.
  split; [reflexivity|].
  destruct (main_jax_keeps_first_of_duplicates
              2 [1; 3; 2; 5]%Q demo_partition1 demo_partition2
              ring_sources ring_dests demo_rows eq_refl)
    as (Hnd & _ & Hfirst & _).
  split; [|split; [|exact Hnd]].
  - destruct (Hfirst 2) as (k & Hk & _ & _ & _ & Huniq); [repeat constructor|].
    simpl. tauto.
  - simpl. intros [H | [H | [H | []]]]; discriminate.
Defined.

End Postprocess.

(** ** Training utilities *)

Module TrainUtils.

Local Open Scope string_scope.

(** *** Parameter trees *)

(** A pytree: an array at a leaf, a dictionary of subtrees at a node. *)
#[local] Set Warnings "-register-all".
Inductive pytree : Type :=
| Leaf (a : list Q)
| Dict (items : list (string * pytree)).

Fixpoint pytree_rect' (P : pytree -> Prop)
    (HL : forall a, P (Leaf a))
    (HD : forall items, Forall (fun kv => P (snd kv)) items -> P (Dict items))
    (t : pytree) : P t :=
  match t with
  | Leaf a => HL a
  | Dict items =>
      HD items
         ((fix go (l : list (string * pytree)) : Forall (fun kv => P (snd kv)) l :=
             match l with
             | [] => Forall_nil _
             | (k, v) :: l' => Forall_cons (k, v) (pytree_rect' P HL HD v) (go l')
             end) items)
  end.

(** The key under which flax stores subtrees that the gradient overwrites. *)
Definition OVERWRITE_WITH_GRADIENT : string := "_overwrite_with_gradient".

(** [key in tree]. *)
Definition contains (key : string) (t : pytree) : bool :=
  match t with
  | Leaf _ => false
  | Dict items => existsb (fun kv => String.eqb (fst kv) key) items
  end.

(** [tree[key]]; a missing key raises [KeyError]. *)
Definition lookup (key : string) (t : pytree) : option pytree :=
  match t with
  | Leaf _ => None
  | Dict items =>
      option_map snd (find (fun kv => String.eqb (fst kv) key) items)
  end.

(** [jax.tree_util.tree_map(jnp.zeros_like, t)]: the all-zero tree of the
    structure of [t]. *)
Fixpoint zeros_like (t : pytree) : pytree :=
  match t with
  | Leaf a => Leaf (map (fun _ => 0%Q) a)
  | Dict items =>
      Dict ((fix go (l : list (string * pytree)) : list (string * pytree) :=
               match l with
               | [] => []
               | (k, v) :: l' => (k, zeros_like v) :: go l'
               end) items)
  end.

(** [optax.apply_updates(params, updates)]: leaf by leaf [p + u]; trees of
    different structure raise. *)
Fixpoint apply_updates (params updates : pytree) {struct params} : option pytree :=
  match params, updates with
  | Leaf p, Leaf u =>
      if Nat.eqb (length p) (length u)
      then Some (Leaf (map (fun pu => (fst pu + snd pu)%Q) (combine p u)))
      else None
  | Dict ps, Dict us =>
      option_map Dict
        ((fix go (ps us : list (string * pytree)) {struct ps}
            : option (list (string * pytree)) :=
            match ps, us with
            | [], [] => Some []
            | (k, p) :: ps', (k', u) :: us' =>
                if String.eqb k k'
                then match apply_updates p u, go ps' us' with
                     | Some x, Some r => Some ((k, x) :: r)
                     | _, _ => None
                     end
                else None
            | _, _ => None
            end) ps us)
  | _, _ => None
  end.

(** *** The train state *)

(** An Optax gradient transformation. *)
Record GradientTransformation (OptState : Type) : Type := {
  init : pytree -> OptState;
  update : pytree -> OptState -> pytree -> pytree * OptState
}.
Arguments init {OptState}.
Arguments update {OptState}.

(** [step] is the value of the [int32] array [jnp.array(0)] that [create]
    puts there and [apply_gradients] increments. *)
Record TrainState (ApplyFn OptState : Type) : Type := {
  step : Z;
  apply_fn : ApplyFn;
  params : pytree;
  tx : GradientTransformation OptState;
  opt_state : OptState
}.
Arguments step {ApplyFn OptState}.
Arguments apply_fn {ApplyFn OptState}.
Arguments params {ApplyFn OptState}.
Arguments tx {ApplyFn OptState}.
Arguments opt_state {ApplyFn OptState}.

Section TrainStateOps.

Context {ApplyFn OptState : Type}.

(** One keyword argument [field=value]. *)
Inductive field : Type :=
| step_field (v : Z)
| apply_fn_field (v : ApplyFn)
| params_field (v : pytree)
| tx_field (v : GradientTransformation OptState)
| opt_state_field (v : OptState).

Definition set_field (s : TrainState ApplyFn OptState) (f : field)
  : TrainState ApplyFn OptState :=
  match f with
  | step_field v =>
      {| step := v; apply_fn := apply_fn s; params := params s;
         tx := tx s; opt_state := opt_state s |}
  | apply_fn_field v =>
      {| step := step s; apply_fn := v; params := params s;
         tx := tx s; opt_state := opt_state s |}
  | params_field v =>
      {| step := step s; apply_fn := apply_fn s; params := v;
         tx := tx s; opt_state := opt_state s |}
  | tx_field v =>
      {| step := step s; apply_fn := apply_fn s; params := params s;
         tx := v; opt_state := opt_state s |}
  | opt_state_field v =>
      {| step := step s; apply_fn := apply_fn s; params := params s;
         tx := tx s; opt_state := v |}
  end.

(** [self.replace] with the keyword arguments [changes]. *)
Definition replace (s : TrainState ApplyFn OptState) (changes : list field)
  : TrainState ApplyFn OptState :=
  fold_left set_field changes s.

(** A keyword that [apply_gradients] already passes to [replace] itself:
    giving it again in [**kwargs] is a [TypeError]. *)
Definition given_by_apply_gradients (f : field) : bool :=
  match f with
  | step_field _ | params_field _ | opt_state_field _ => true
  | apply_fn_field _ | tx_field _ => false
  end.

(** [TrainState.apply_gradients(self, *, grads, **kwargs)]; [None] stands
    for a raised exception. *)
Definition apply_gradients (self : TrainState ApplyFn OptState)
    (grads : pytree) (kwargs : list field) : option (TrainState ApplyFn OptState) :=
  let owg := contains OVERWRITE_WITH_GRADIENT grads in
  let with_opt :=
    if owg then (lookup "params" grads, lookup "params" (params self))
    else (Some grads, Some (params self)) in
  match with_opt with
  | (Some grads_with_opt, Some params_with_opt) =>
      let (updates, new_opt_state) :=
        update (tx self) grads_with_opt (opt_state self) params_with_opt in
      match apply_updates params_with_opt updates with
      | None => None
      | Some new_params_with_opt =>
          let new_params :=
            if owg
            then option_map
                   (fun g => Dict [("params", new_params_with_opt);
                                   (OVERWRITE_WITH_GRADIENT, g)])
                   (lookup OVERWRITE_WITH_GRADIENT grads)
            else Some new_params_with_opt in
          match new_params with
          | None => None
          | Some new_params =>
              if existsb given_by_apply_gradients kwargs then None
              else Some (replace self
                           ([step_field (int32 (step self + 1));
                             params_field new_params;
                             opt_state_field new_opt_state] ++ kwargs))
          end
      end
  | _ => None
  end.

(** [TrainState.create(cls, *, apply_fn, params, tx, **kwargs)].  The class
    has no field besides the five it sets, so any extra keyword raises. *)
Definition create (apply_fn : ApplyFn) (params : pytree)
    (tx : GradientTransformation OptState) (kwargs : list field)
  : option (TrainState ApplyFn OptState) :=
  let params_with_opt :=
    if contains OVERWRITE_WITH_GRADIENT params then lookup "params" params
    else Some params in
  match params_with_opt, kwargs with
  | Some params_with_opt, [] =>
      let opt_state := init tx params_with_opt in
      Some {| step := 0; apply_fn := apply_fn; params := params;
              tx := tx; opt_state := opt_state |}
  | _, _ => None
  end.

(** [n] calls of [apply_gradients], each with the gradient [grads_of] picks
    for the current state. *)
Fixpoint apply_gradients_n (n : nat) (grads_of : TrainState ApplyFn OptState -> pytree)
    (s : TrainState ApplyFn OptState) : option (TrainState ApplyFn OptState) :=
  match n with
  | O => Some s
  | S n' =>
      match apply_gradients s (grads_of s) [] with
      | None => None
      | Some s' => apply_gradients_n n' grads_of s'
      end
  end.

End TrainStateOps.

(** *** Facts about trees *)

Lemma Qplus_zero_r (x : Q) : (x + 0)%Q = x.
Proof.
  destruct x as [n d]. unfold Qplus. simpl.
  rewrite Z.mul_1_r, Z.add_0_r, Pos.mul_1_r. reflexivity.
Qed.

Lemma add_zeros (a : list Q) :
  map (fun pu => (fst pu + snd pu)%Q) (combine a (map (fun _ => 0%Q) a)) = a.
Proof.
  induction a as [ | x a IH]; simpl; [reflexivity|].
  now rewrite Qplus_zero_r, IH.
Qed.

Lemma apply_updates_zeros (p : pytree) : apply_updates p (zeros_like p) = Some p.
Proof.
  induction p as [a | items IH] using pytree_rect'.
  - simpl. rewrite length_map, Nat.eqb_refl, add_zeros. reflexivity.
  - simpl. match goal with |- option_map Dict ?x = _ => assert (E : x = Some items) end;
      [ | now rewrite E].
    induction IH as [ | [k v] l Hv _ IHl]; [reflexivity|].
    simpl in Hv. rewrite String.eqb_refl, Hv, IHl. reflexivity.
Qed.

Lemma contains_zeros_like key (p : pytree) :
  contains key (zeros_like p) = contains key p.
Proof.
  destruct p as [a | items]; simpl; [reflexivity|].
  induction items as [ | [k v] l IH]; simpl; [reflexivity | now rewrite IH].
Qed.

(** *** The step counter and the frame of [apply_gradients] *)

Section TrainStateFacts.

Context {ApplyFn OptState : Type}.
Abbreviation state := (TrainState ApplyFn OptState).
Abbreviation kwarg := (@field ApplyFn OptState).

(** An optimizer whose update of an all-zero gradient is the all-zero
    update. *)
Definition additive (t : GradientTransformation OptState) : Prop :=
  forall (p : pytree) (st : OptState), fst (update t (zeros_like p) st p) = zeros_like p.

Lemma replace_keeps (s : state) (kwargs : list kwarg) :
  existsb given_by_apply_gradients kwargs = false ->
  step (replace s kwargs) = step s
  /\ params (replace s kwargs) = params s
  /\ opt_state (replace s kwargs) = opt_state s.
Proof.
  unfold replace. revert s. induction kwargs as [ | f kw IH]; intros s H; simpl;
    [auto|].
  simpl in H. apply orb_false_iff in H. destruct H as [Hf Hkw].
  destruct (IH (set_field s f) Hkw) as (E1 & E2 & E3).
  rewrite E1, E2, E3. destruct f; simpl in *; try discriminate; auto.
Qed.

(** What a returning call of [apply_gradients] returns. *)
Lemma apply_gradients_inv (s s' : state) (grads : pytree) (kwargs : list kwarg) :
  apply_gradients s grads kwargs = Some s' ->
  exists new_params new_opt_state,
    existsb given_by_apply_gradients kwargs = false
    /\ s' = replace s ([step_field (int32 (step s + 1)); params_field new_params;
                        opt_state_field new_opt_state] ++ kwargs).
Proof.
  unfold apply_gradients. intros H.
  destruct (if contains OVERWRITE_WITH_GRADIENT grads
            then (lookup "params" grads, lookup "params" (params s))
            else (Some grads, Some (params s))) as [[gw | ] [pw | ]];
    try discriminate.
  destruct (update (tx s) gw (opt_state s) pw) as [updates new_opt_state].
  destruct (apply_updates pw updates) as [npw | ]; [|discriminate].
  destruct (if contains OVERWRITE_WITH_GRADIENT grads then _ else _) as [np | ];
    [|discriminate].
  destruct (existsb given_by_apply_gradients kwargs) eqn:E; [discriminate|].
  injection H as <-. exists np, new_opt_state. auto.
Qed.

Lemma apply_gradients_step (s s' : state) (grads : pytree) (kwargs : list kwarg) :
  apply_gradients s grads kwargs = Some s' -> step s' = int32 (step s + 1).
Proof.
  intros H. apply apply_gradients_inv in H.
  destruct H as (np & no & Hkw & ->).
  unfold replace. simpl fold_left.
  now destruct (replace_keeps
    {| step := int32 (step s + 1); apply_fn := apply_fn s; params := np;
       tx := tx s; opt_state := no |} kwargs Hkw) as (E & _).
Qed.

(** With an all-zero gradient, no overwrite-with-gradient subtree and an
    additive optimizer the call returns and leaves the parameters alone. *)
Lemma apply_gradients_zero (s : state) :
  contains OVERWRITE_WITH_GRADIENT (params s) = false ->
  additive (tx s) ->
  exists s',
    apply_gradients s (zeros_like (params s)) [] = Some s'
    /\ params s' = params s /\ step s' = int32 (step s + 1)
    /\ tx s' = tx s /\ apply_fn s' = apply_fn s.
Proof.
  intros Hno Hadd. unfold apply_gradients.
  rewrite contains_zeros_like, Hno.
  specialize (Hadd (params s) (opt_state s)).
  destruct (update (tx s) (zeros_like (params s)) (opt_state s) (params s))
    as [updates new_opt_state].
  simpl in Hadd. subst updates. rewrite apply_updates_zeros. simpl.
  eexists. split; [reflexivity|]. simpl. auto.
Qed.

Lemma apply_gradients_n_zero (n : nat) (s : state) :
  contains OVERWRITE_WITH_GRADIENT (params s) = false ->
  additive (tx s) ->
  (- 2 ^ 31 <= step s)%Z -> (step s + Z.of_nat n < 2 ^ 31)%Z ->
  exists s',
    apply_gradients_n n (fun s => zeros_like (params s)) s = Some s'
    /\ params s' = params s /\ step s' = (step s + Z.of_nat n)%Z
    /\ tx s' = tx s.
Proof.
  revert s. induction n as [ | n IH]; intros s Hno Hadd Hlo Hhi.
  - exists s. simpl. repeat split; auto. lia.
  - destruct (apply_gradients_zero s Hno Hadd) as (s1 & E1 & Hp & Hs & Ht & _).
    rewrite int32_small in Hs by lia.
    destruct (IH s1) as (s' & E' & Hp' & Hs' & Ht');
      [congruence | congruence | lia | lia | ].
    exists s'. simpl apply_gradients_n. rewrite E1.
    split; [exact E'|]. split; [congruence|]. split; [lia | congruence].
Qed.

(** C9.  A call of [apply_gradients] without extra keyword arguments that
    returns gives a state with the [apply_fn] and the [tx] of the original;
    the returned state differs from the original in [step] (the 32-bit
    increment of the old one), [params] and [opt_state] only. *)
Theorem apply_gradients_frame (s s' : state) (grads : pytree) :
  apply_gradients s grads [] = Some s' ->
  apply_fn s' = apply_fn s /\ tx s' = tx s
  /\ exists new_params new_opt_state,
       s' = {| step := int32 (step s + 1); apply_fn := apply_fn s;
               params := new_params; tx := tx s; opt_state := new_opt_state |}.
Proof.
  intros H. apply apply_gradients_inv in H. destruct H as (np & no & _ & ->).
  simpl. split; [reflexivity|]. split; [reflexivity|]. exists np, no. reflexivity.
Qed.

(** C6, amended.  [create] starts the counter at 0 and every returning call
    of [apply_gradients] adds 1 to it in 32-bit arithmetic: the next value
    is [step + 1] below [2 ^ 31 - 1] and wraps to [- 2 ^ 31] there.  When
    the parameters hold no overwrite-with-gradient subtree, the gradient is
    all-zero and the optimizer is additive, the call returns, the parameters
    of the new state are the old ones, and [N] such calls after [create],
    for [N] below [2 ^ 31], leave the counter at [N] with the parameters
    unchanged. *)
Theorem train_state_step_counter :
  (forall af p t kwargs (s0 : state), create af p t kwargs = Some s0 -> step s0 = 0%Z)
  /\ (forall (s s' : state) grads kwargs,
        apply_gradients s grads kwargs = Some s' ->
        step s' = int32 (step s + 1)
        /\ ((- 2 ^ 31 <= step s < 2 ^ 31 - 1)%Z -> step s' = (step s + 1)%Z)
        /\ (step s = (2 ^ 31 - 1)%Z -> step s' = (- 2 ^ 31)%Z))
  /\ (forall s : state,
        contains OVERWRITE_WITH_GRADIENT (params s) = false -> additive (tx s) ->
        exists s', apply_gradients s (zeros_like (params s)) [] = Some s'
                   /\ params s' = params s /\ step s' = int32 (step s + 1))
  /\ (forall af p t (N : nat),
        contains OVERWRITE_WITH_GRADIENT p = false -> additive t ->
        (Z.of_nat N < 2 ^ 31)%Z ->
        exists s0 sN : state,
          create af p t [] = Some s0
          /\ apply_gradients_n N (fun s => zeros_like (params s)) s0 = Some sN
          /\ step sN = Z.of_nat N /\ params sN = p).
Proof.
  split; [|split; [|split]].
  - intros af p t kwargs s0 H. unfold create in H.
    destruct (if contains OVERWRITE_WITH_GRADIENT p then _ else _); [|discriminate].
    destruct kwargs; [|discriminate]. injection H as <-. reflexivity.
  - intros s s' grads kwargs H. apply apply_gradients_step in H. rewrite H.
    split; [reflexivity|]. split.
    + intros Hr. apply int32_small. lia.
    + intros ->. reflexivity.
  - intros s Hno Hadd.
    destruct (apply_gradients_zero s Hno Hadd) as (s' & E & Hp & Hs & _).
    exists s'. auto.
  - intros af p t N Hno Hadd HN. unfold create. rewrite Hno.
    eexists.
    destruct (apply_gradients_n_zero N
                {| step := 0; apply_fn := af; params := p; tx := t;
                   opt_state := init t p |} Hno Hadd) as (sN & E & Hp & Hs & _);
      [cbn; lia | cbn; lia | ].
    exists sN. split; [reflexivity|]. split; [exact E|]. simpl in *. split; [lia | exact Hp].
Qed.

End TrainStateFacts.

(** [optax.identity()]: the update is the gradient itself. *)
Definition identity_tx : GradientTransformation unit :=
  {| init := fun _ => tt; update := fun grads st _ => (grads, st) |}.

Definition plain_params : pytree :=
  Dict [("dense", Dict [("bias", Leaf [1 # 2]%Q); ("kernel", Leaf [1; 2; 3]%Q)])].

(** Parameters with a subtree that the gradient overwrites. *)
Definition owg_params : pytree :=
  Dict [("params", Dict [("kernel", Leaf [1; 2]%Q)]);
        (OVERWRITE_WITH_GRADIENT, Dict [("scale", Leaf [3]%Q)])].

Definition owg_state : TrainState nat unit :=
  {| step := 0; apply_fn := 7%nat; params := owg_params; tx := identity_tx;
     opt_state := tt |}.

Lemma identity_tx_additive : additive identity_tx.
Proof. intros p st. reflexivity. Qed.

Lemma apply_gradients_frame_witness :
  apply_gradients owg_state (zeros_like owg_params) []
  = Some {| step := 1; apply_fn := 7%nat;
            params := Dict [("params", Dict [("kernel", Leaf [1; 2]%Q)]);
                            (OVERWRITE_WITH_GRADIENT, Dict [("scale", Leaf [0]%Q)])];
            tx := identity_tx; opt_state := tt |}
  /\ exists s', apply_gradients owg_state (zeros_like owg_params) [] = Some s'
                /\ apply_fn s' = 7%nat /\ tx s' = identity_tx.
Proof.
  split; [reflexivity|]. eexists. split; [reflexivity|].
  destruct (apply_gradients_frame owg_state _ (zeros_like owg_params) eq_refl)
    as (H1 & H2 & _).
  split; [exact H1 | exact H2].
Defined.

Lemma train_state_step_counter_witness :
  contains OVERWRITE_WITH_GRADIENT plain_params = false
  /\ additive identity_tx
  /\ exists s0 s3 : TrainState unit unit,
       create tt plain_params identity_tx [] = Some s0
       /\ apply_gradients_n 3 (fun s => zeros_like (params s)) s0 = Some s3
       /\ step s3 = 3%Z /\ params s3 = plain_params.
Proof.
  split; [reflexivity|]. split; [exact identity_tx_additive|].
  destruct (@train_state_step_counter unit unit) as (_ & _ & _ & H).
  exact (H tt plain_params identity_tx 3%nat eq_refl identity_tx_additive eq_refl).
Defined.

(** C6 as first stated fails in two places.  When the gradient tree carries
    the overwrite-with-gradient key, the gradient is all-zero and the
    optimizer additive, yet the flagged subtree of the parameters becomes
    the (zero) gradient, so the parameters change.  And the counter is a
    32-bit integer: the call at step [2 ^ 31 - 1] returns step [- 2 ^ 31],
    not that step incremented by 1. *)
Lemma apply_gradients_zero_changes_flagged_params :
  additive identity_tx
  /\ option_map params (apply_gradients owg_state (zeros_like owg_params) [])
     = Some (Dict [("params", Dict [("kernel", Leaf [1; 2]%Q)]);
                   (OVERWRITE_WITH_GRADIENT, Dict [("scale", Leaf [0]%Q)])])
  /\ option_map params (apply_gradients owg_state (zeros_like owg_params) [])
     <> Some (params owg_state)
  /\ option_map step
       (apply_gradients
          {| step := 2147483647; apply_fn := 7%nat; params := plain_params;
             tx := identity_tx; opt_state := tt |}
          (zeros_like plain_params) [])
     = Some (-2147483648)%Z.
Proof.
  split; [exact identity_tx_additive|]. split; [reflexivity|].
  split; [discriminate | reflexivity].
Qed.

(** *** [scale_gradient] *)

(** The arithmetic of a number type. *)
Class Number (T : Type) : Type := {
  mul : T -> T -> T;
  add : T -> T -> T;
  sub : T -> T -> T;
  one : T
}.

(** IEEE 754 arithmetic, round to nearest even, of precision [prec] and
    exponent bound [emax]. *)
Definition ieee_number (prec emax : Z) : Number spec_float :=
  {| mul := SFmul prec emax; add := SFadd prec emax; sub := SFsub prec emax;
     one := SFone prec emax |}.

Definition binary32 : Number spec_float := ieee_number 24 128.
Definition binary64 : Number spec_float := ieee_number 53 1024.

(** A Python float (binary64) taking the type of a [float32] array it
    meets: rounded to binary32. *)
Definition to_binary32 (x : spec_float) : spec_float :=
  match x with
  | S754_finite s m e => binary_round 24 128 s m e
  | _ => x
  end.

(** [jax.lax.stop_gradient]: the identity when the function is evaluated. *)
Definition stop_gradient {T} (x : list T) : list T := x.

(** [scale_gradient(g, scale)]: [g * scale + stop_gradient(g) * (1.0 - scale)],
    the scalars broadcast over the array.  [g] is an array of element type
    [T]; [scale] is a Python float, of type [S]: [1.0 - scale] is formed in
    Python, in the arithmetic of [S], and each of the two scalars takes the
    array's element type ([weak]) where it multiplies the array. *)
Definition scale_gradient {T S} {N : Number T} {P : Number S} (weak : S -> T)
    (g : list T) (scale : S) : list T :=
  map (fun ab => add (fst ab) (snd ab))
      (combine (map (fun x => mul x (weak scale)) g)
               (map (fun x => mul x (weak (sub one scale))) (stop_gradient g))).

(** The float [m * 2 ^ e] of a format. *)
Definition float_of_Z (prec emax : Z) (m : positive) (e : Z) : spec_float :=
  binary_round prec emax false m e.

(** C8.  The docstring promises that the call "keeps the original value
    unchanged"; in floating point it does not.  For the array [[1.0]] the
    scales 0, 0.5, 1 and 2 give the array back, but with the scale
    [2.0 ** 60] the difference [1.0 - scale] rounds to [- 2 ^ 60], the two
    products cancel and the result is [[0.0]], for a [float32] array and for
    a [float64] array alike. *)
Theorem scale_gradient_rounds :
  let one32 := float_of_Z 24 128 1 0 in
  let one64 := float_of_Z 53 1024 1 0 in
  let f32 := scale_gradient (N := binary32) (P := binary64) to_binary32 in
  let f64 := scale_gradient (N := binary64) (P := binary64) (fun x => x) in
  f32 [one32] (S754_zero false) = [one32]
  /\ f32 [one32] (float_of_Z 53 1024 1 (-1)) = [one32]
  /\ f32 [one32] (float_of_Z 53 1024 1 0) = [one32]
  /\ f32 [one32] (float_of_Z 53 1024 2 0) = [one32]
  /\ f32 [one32] (float_of_Z 53 1024 1 60) = [S754_zero false]
  /\ f64 [one64] (float_of_Z 53 1024 1 60) = [S754_zero false]
  /\ SFeqb (S754_zero false) one32 = false
  /\ SFeqb (S754_zero false) one64 = false.
Proof. repeat split; vm_compute; reflexivity. Qed.

(** *** [define_env] *)

Definition lower_char (c : ascii) : ascii :=
  let n := nat_of_ascii c in
  if Nat.leb 65 n && Nat.leb n 90 then ascii_of_nat (n + 32) else c.

(** [str.lower()]. *)
Fixpoint lower (s : string) : string :=
  match s with
  | EmptyString => EmptyString
  | String c s' => String (lower_char c) (lower s')
  end.

Definition same_ignoring_case (a b : string) : Prop := lower a = lower b.

Definition rsa_family : list string :=
  ["rsa"; "rmsa"; "rwa"; "deeprmsa"; "rwa_lightpath_reuse"].

(** A function that returns or raises [ValueError]. *)
Inductive outcome (A : Type) : Type :=
| Returns (a : A)
| ValueError (msg : string).
Arguments Returns {A}.
Arguments ValueError {A}.

Section DefineEnv.

(** The environments, their parameters and the flag dictionary come from
    modules outside this slice. *)
Variables Env EnvParams ConfigDict : Type.
Variable make_vone_env : ConfigDict -> Env * EnvParams.
Variable make_rsa_env : ConfigDict -> Env * EnvParams.

Record FlagValues : Type := {
  env_type : string;
  flag_values : ConfigDict
}.

(** [LogWrapper(env)]. *)
Inductive LogWrapper : Type := LogWrap (env : Env).

Definition define_env (config : FlagValues) : outcome (LogWrapper * EnvParams) :=
  let config_dict := flag_values config in
  let made :=
    if String.eqb (lower (env_type config)) "vone"
    then Some (make_vone_env config_dict)
    else if existsb (String.eqb (lower (env_type config))) rsa_family
         then Some (make_rsa_env config_dict)
         else None in
  match made with
  | None => ValueError ("Invalid environment type " ++ env_type config)
  | Some (env, env_params) =>
      let env := LogWrap env in
      Returns (env, env_params)
  end.

(** The environment type is one of the six names, letter case apart. *)
Definition recognized (config : FlagValues) : Prop :=
  exists name, In name ("vone" :: rsa_family)
               /\ same_ignoring_case (env_type config) name.

Lemma rsa_family_check (s : string) :
  existsb (String.eqb s) rsa_family = true <-> In s rsa_family.
Proof.
  rewrite existsb_exists. split.
  - intros (x & Hx & E). apply String.eqb_eq in E. now subst.
  - intros H. exists s. split; [exact H | apply String.eqb_refl].
Qed.

Lemma recognized_iff (config : FlagValues) :
  recognized config <->
  lower (env_type config) = "vone" \/ In (lower (env_type config)) rsa_family.
Proof.
  unfold recognized, same_ignoring_case. split.
  - intros (name & Hin & E). rewrite E.
    simpl in Hin. decompose [or] Hin; subst; simpl; tauto.
  - intros [E | Hin].
    + exists "vone". split; [now left | exact E].
    + exists (lower (env_type config)). split; [now right|].
      simpl in Hin. decompose [or] Hin; try contradiction;
        match goal with H : _ = lower _ |- _ => rewrite <- H end; reflexivity.
Qed.

(** C7.  [define_env] raises the configuration error exactly when the
    environment type, letter case apart, is neither "vone" nor one of
    "rsa", "rmsa", "rwa", "deeprmsa", "rwa_lightpath_reuse"; for a
    recognized type it returns the environment of the matching constructor
    inside the statistics wrapper, with that constructor's parameters. *)
Theorem define_env_raises_iff_unrecognized (config : FlagValues) :
  ((exists msg, define_env config = ValueError msg) <-> ~ recognized config)
  /\ (recognized config ->
      let made :=
        if String.eqb (lower (env_type config)) "vone"
        then make_vone_env (flag_values config)
        else make_rsa_env (flag_values config) in
      define_env config = Returns (LogWrap (fst made), snd made)).
Proof.
  rewrite recognized_iff. unfold define_env.
  destruct (String.eqb_spec (lower (env_type config)) "vone") as [E | Hne].
  - destruct (make_vone_env (flag_values config)) as [env env_params].
    split; [split|].
    + intros (msg & H). discriminate.
    + intros H. exfalso. apply H. now left.
    + reflexivity.
  - destruct (existsb (String.eqb (lower (env_type config))) rsa_family) eqn:Ers.
    + apply rsa_family_check in Ers.
      destruct (make_rsa_env (flag_values config)) as [env env_params].
      split; [split|].
      * intros (msg & H). discriminate.
      * intros H. exfalso. apply H. now right.
      * reflexivity.
    + assert (Hnot : ~ In (lower (env_type config)) rsa_family).
      { intros Hin. apply rsa_family_check in Hin. congruence. }
      split; [split|].
      * intros _ [H | H]; [now apply Hne | now apply Hnot].
      * intros _. eexists. reflexivity.
      * intros [H | H]; [now destruct Hne | now destruct Hnot].
Qed.

End DefineEnv.

Example define_env_examples :
  let config t := {| env_type := t; flag_values := tt |} in
  let vone (_ : unit) := (1%nat, 10%nat) in
  let rsa (_ : unit) := (2%nat, 20%nat) in
  define_env _ _ _ vone rsa (config "VONE") = Returns (LogWrap _ 1%nat, 10%nat)
  /\ define_env _ _ _ vone rsa (config "DeepRMSA") = Returns (LogWrap _ 2%nat, 20%nat)
  /\ define_env _ _ _ vone rsa (config "rsa ")
     = ValueError "Invalid environment type rsa ".
Proof. repeat split. Qed.

(** *** Action selection and warmup *)

(** [distrax.Categorical(logits=...)] over a batch of logit rows.  Distrax
    shifts every row by a constant to normalise it, which changes neither
    the order of the entries of a row nor its largest entry. *)
Record Categorical : Type := { logits : list (list Q) }.

(** [jnp.argmax] of one row: the first position of the largest entry. *)
Fixpoint argmax_from (best_at : nat) (best : Q) (at_ : nat) (row : list Q) : nat :=
  match row with
  | [] => best_at
  | x :: rest =>
      if Qle_bool x best then argmax_from best_at best (S at_) rest
      else argmax_from at_ x (S at_) rest
  end.

Definition argmax (row : list Q) : nat :=
  match row with
  | [] => 0%nat
  | x :: rest => argmax_from 0 x 1 rest
  end.

(** [Categorical.mode()]. *)
Definition mode (pi : Categorical) : list nat := map argmax (logits pi).

(** [jnp.where(mask, logits, -1e8)]. *)
Definition where_mask (mask : list (list bool)) (lg : list (list Q)) : list (list Q) :=
  map (fun mr : list bool * list Q =>
         map (fun mx : bool * Q => if fst mx then snd mx else (-100000000)%Q)
             (combine (fst mr) (snd mr)))
      (combine mask lg).

(** A single lightpath action per environment, or the (source, path,
    destination) triple of VONE. *)
Inductive action : Type :=
| Lightpath (a : list nat)
| Triple (a : list (nat * nat * nat)).

(** [jnp.stack((s, p, d), axis=1)]. *)
Definition stack3 (s p d : list nat) : list (nat * nat * nat) :=
  combine (combine s p) d.

Record Config : Type := {
  cfg_env_type : string;
  ACTION_MASKING : bool;
  deterministic : bool;
  USE_GNN : bool;
  ENV_WARMUP_STEPS : Z
}.


Section Rollout.

(** Types and operations of the environment, random-number and network
    layers, which lie outside this slice. *)
Variables Key InnerState LogData EnvParams RawObs Value LogProb Reward Info OptState : Type.

(** [jax.random.split(key, num)]. *)
Variable split : Key -> nat -> list Key.
Variable default_key : Key.
(** [Categorical.sample(seed=key)] and [Categorical.log_prob(action)]. *)
Variable sample : Key -> Categorical -> list nat.
Variable log_prob : Categorical -> list nat -> LogProb.
Variable lp_add : LogProb -> LogProb -> LogProb.
(** The mask fields of the environment state. *)
Variable link_slot_mask node_mask_s node_mask_d : InnerState -> list (list bool).

(** The state of the statistics wrapper around the environment state. *)
Record LogEnvState : Type := { env_state : InnerState; log_data : LogData }.

(** An observation: the (state, params) pair of the GNN, or a tuple of raw
    observations. *)
Inductive observation : Type :=
| GraphObs (s : InnerState) (p : EnvParams)
| TupleObs (o : list RawObs).

(** The methods of the environment; [env.step] may raise ([None]). *)
Record Environment : Type := {
  env_step : Key -> LogEnvState -> action -> EnvParams
             -> option (RawObs * LogEnvState * Reward * bool * Info);
  action_mask : InnerState -> EnvParams -> InnerState;
  action_mask_nodes : InnerState -> EnvParams -> InnerState;
  action_mask_dest_node : InnerState -> EnvParams -> list nat -> InnerState;
  action_mask_slots : InnerState -> EnvParams -> list (nat * nat * nat) -> InnerState
}.

Definition ApplyFn : Type := pytree -> observation -> list Categorical * Value.

Definition with_env_state (s : LogEnvState) (inner : InnerState) : LogEnvState :=
  {| env_state := inner; log_data := log_data s |}.

(** [select_action(select_action_state, env, env_params, train_state,
    config)], the debug prints left out.  The batch axis of the VONE masks
    lives inside the state and the arrays. *)
Definition select_action (select_action_state : Key * LogEnvState * observation)
    (env : Environment) (env_params : EnvParams)
    (train_state : TrainState ApplyFn OptState) (config : Config)
  : action * LogProb * Value :=
  let '(rng_key, env_state0, last_obs) := select_action_state in
  let last_obs :=
    if USE_GNN config then GraphObs (env_state env_state0) env_params else last_obs in
  let '(pi, value) := apply_fn train_state (params train_state) last_obs in
  let action_keys := split rng_key (length pi) in
  let pi_ k := nth k pi {| logits := [] |} in
  let key_ k := nth k action_keys default_key in
  if String.eqb (lower (cfg_env_type config)) "vone" then
    let env_state1 :=
      with_env_state env_state0 (action_mask_nodes env (env_state env_state0) env_params) in
    let pi_source :=
      {| logits := where_mask (node_mask_s (env_state env_state1)) (logits (pi_ 0%nat)) |} in
    let action_s :=
      if negb (deterministic config) then sample (key_ 0%nat) pi_source
      else mode pi_source in
    let env_state2 :=
      with_env_state env_state1
        (action_mask_dest_node env (env_state env_state1) env_params action_s) in
    let pi_dest :=
      {| logits := where_mask (node_mask_d (env_state env_state2)) (logits (pi_ 2%nat)) |} in
    let action_p := map (fun _ => 0%nat) action_s in
    let action_d :=
      if negb (deterministic config) then sample (key_ 2%nat) pi_dest
      else mode pi_dest in
    let action := stack3 action_s action_p action_d in
    let env_state3 :=
      with_env_state env_state2
        (action_mask_slots env (env_state env_state2) env_params action) in
    let pi_path :=
      {| logits := where_mask (link_slot_mask (env_state env_state3)) (logits (pi_ 1%nat)) |} in
    let action_p :=
      if negb (deterministic config) then sample (key_ 1%nat) pi_path
      else mode pi_path in
    let action := stack3 action_s action_p action_d in
    let log_prob_source := log_prob pi_source action_s in
    let log_prob_path := log_prob pi_path action_p in
    let log_prob_dest := log_prob pi_dest action_d in
    (Triple action, lp_add (lp_add log_prob_dest log_prob_path) log_prob_source, value)
  else if ACTION_MASKING config then
    let env_state1 :=
      with_env_state env_state0 (action_mask env (env_state env_state0) env_params) in
    let pi_masked :=
      {| logits := where_mask (link_slot_mask (env_state env_state1)) (logits (pi_ 0%nat)) |} in
    let action :=
      if negb (deterministic config) then sample (key_ 0%nat) pi_masked
      else mode (pi_ 0%nat) in
    (Lightpath action, log_prob pi_masked action, value)
  else
    let action :=
      if negb (deterministic config) then sample (key_ 0%nat) (pi_ 0%nat)
      else mode (pi_ 0%nat) in
    (Lightpath action, log_prob (pi_ 0%nat) action, value).



End Rollout.

(** A network with one head that prefers slot 0, over an environment whose
    mask forbids slot 0 and allows slot 1. *)
Definition demo_env : Environment unit (list (list bool)) unit unit unit unit unit :=
  {| env_step := fun _ s _ _ => Some (tt, s, tt, false, tt);
     action_mask := fun _ _ => [[false; true]];
     action_mask_nodes := fun s _ => s;
     action_mask_dest_node := fun s _ _ => s;
     action_mask_slots := fun s _ _ => s |}.

Definition demo_train_state
  : TrainState (ApplyFn (list (list bool)) unit unit unit) unit :=
  {| step := 0;
     apply_fn := fun _ _ => ([{| logits := [[2; 1]]%Q |}], tt);
     params := Leaf [];
     tx := identity_tx;
     opt_state := tt |}.

Definition demo_config (det : bool) : Config :=
  {| cfg_env_type := "rsa"; ACTION_MASKING := true; deterministic := det;
     USE_GNN := false; ENV_WARMUP_STEPS := 0 |}.

Definition demo_state : LogEnvState (list (list bool)) unit :=
  {| env_state := [[true; true]]; log_data := tt |}.

(** The log-probability is kept symbolic: the logits of the distribution it
    is taken from, and the action. *)
Definition demo_select_action (det : bool) :=
  select_action unit (list (list bool)) unit unit unit unit
    (list (list Q) * list nat) unit unit unit
    (fun _ n => repeat tt n) tt
    (fun _ _ => [1%nat]) (fun d a => (logits d, a)) (fun a _ => a)
    (fun m => m) (fun m => m) (fun m => m)
    (tt, demo_state, TupleObs _ _ _ [tt]) demo_env tt demo_train_state
    (demo_config det).

(** C5, where it fails: with [deterministic] set, logits (2, 1) and slot 0
    masked out, [select_action] returns slot 0, the mode of the unmasked
    distribution, although the masked distribution has its mode at slot 1;
    the log-probability it returns is that of slot 0 under the masked
    distribution.  Without [deterministic] the action is the sample drawn
    from the masked distribution. *)
Theorem select_action_deterministic_ignores_mask :
  demo_select_action true
  = (Lightpath [0%nat], ([[(-100000000)%Q; 1%Q]], [0%nat]), tt)
  /\ mode {| logits := where_mask [[false; true]] [[2; 1]]%Q |} = [1%nat]
  /\ demo_select_action false
     = (Lightpath [1%nat], ([[(-100000000)%Q; 1%Q]], [1%nat]), tt).
Proof. repeat split. Qed.




End TrainUtils.

(** ** More on the adjacency scatter and the congestion score *)

Module CutsetFacts.

Import Cutsets.
Local Open Scope nat_scope.

Definition symmetric (m : matrix) : Prop := forall i j, mget m i j = mget m j i.

Lemma square_outside n (M : matrix) i j :
  square n M -> n <= i \/ n <= j -> mget M i j = 0%Z.
Proof.
  intros [Hl Hr] H. unfold mget.
  destruct (Nat.lt_ge_cases i n) as [Hi | Hi].
  - destruct H as [H | H]; [lia|]. apply nth_overflow.
    rewrite (Hr (nth i M [])) by (apply nth_In; lia). exact H.
  - rewrite (nth_overflow M) by lia. now destruct j.
Qed.

Lemma square_zero_nil (M : matrix) : square 0 M -> M = [].
Proof. intros [Hl _]. now apply length_zero_iff_nil. Qed.

(** The clamping of [dynamic_update_slice], made explicit. *)
Lemma update_cell_clamp n (M : matrix) v s d :
  square n M -> 0 < n ->
  dynamic_update_cell M v s d
  = dynamic_update_cell M v (Nat.min s (n - 1)) (Nat.min d (n - 1)).
Proof.
  intros HM Hn. pose proof HM as [Hl Hr].
  assert (Hrow : length (nth (Nat.min s (n - 1)) M []) = n)
    by (apply Hr, nth_In; lia).
  unfold dynamic_update_cell. rewrite Hl.
  replace (Nat.min (Nat.min s (n - 1)) (n - 1)) with (Nat.min s (n - 1)) by lia.
  cbv zeta. rewrite Hrow.
  now replace (Nat.min (Nat.min d (n - 1)) (n - 1)) with (Nat.min d (n - 1)) by lia.
Qed.

Lemma update_cell_square_any n (M : matrix) v s d :
  square n M -> square n (dynamic_update_cell M v s d).
Proof.
  intros HM. destruct (Nat.eq_dec n 0) as [-> | Hn].
  - pose proof (square_zero_nil M HM). subst M. exact HM.
  - rewrite (update_cell_clamp n) by (assumption || lia).
    apply update_cell_square; (assumption || lia).
Qed.

Lemma scatter_edge_clamp n (M : matrix) s d f :
  square n M -> 0 < n ->
  scatter_edge M (s, d, f)
  = scatter_edge M (Nat.min s (n - 1), Nat.min d (n - 1), f).
Proof.
  intros HM Hn. unfold scatter_edge. cbn [fst snd].
  rewrite (update_cell_clamp n M) by assumption.
  now rewrite (update_cell_clamp n (dynamic_update_cell M _ _ _))
    by (try apply update_cell_square_any; assumption).
Qed.

Lemma scatter_edge_keeps n (M : matrix) e :
  square n M -> symmetric M ->
  square n (scatter_edge M e) /\ symmetric (scatter_edge M e).
Proof.
  intros HM Hsym. destruct e as [[s d] f].
  destruct (Nat.eq_dec n 0) as [-> | Hn].
  - pose proof (square_zero_nil M HM). subst M.
    split; [exact HM | intros i j; now destruct i, j].
  - rewrite (scatter_edge_clamp n) by (assumption || lia).
    split; [apply scatter_edge_square; (assumption || lia)|].
    intros i j. rewrite !(scatter_edge_get n) by (assumption || lia).
    rewrite (Hsym i j).
    destruct (Nat.eqb i (Nat.min d (n - 1))), (Nat.eqb j (Nat.min s (n - 1))),
      (Nat.eqb i (Nat.min s (n - 1))), (Nat.eqb j (Nat.min d (n - 1))); reflexivity.
Qed.

Lemma zeros_symmetric n : symmetric (mat_init n (fun _ _ => 0%Z)).
Proof.
  intros i j.
  destruct (Nat.lt_ge_cases i n) as [Hi | Hi], (Nat.lt_ge_cases j n) as [Hj | Hj];
    try (rewrite !(square_outside n) by (try apply mat_init_square; auto);
         reflexivity).
  now rewrite !zeros_get.
Qed.

(** Whatever the edge list and the flags, [edges_to_adjacency] returns a
    symmetric matrix of [num_nodes] rows and columns. *)
Theorem edges_to_adjacency_symmetric (path_array : vector)
    (source_nodes dest_nodes : list nat) (num_nodes : nat) :
  square num_nodes (edges_to_adjacency path_array source_nodes dest_nodes num_nodes)
  /\ symmetric (edges_to_adjacency path_array source_nodes dest_nodes num_nodes).
Proof.
  unfold edges_to_adjacency.
  assert (H : forall (l : list nat) (M : matrix),
             square num_nodes M -> symmetric M ->
             square num_nodes
               (fold_left (fun adj idx =>
                  scatter_edge adj (gather_node source_nodes idx,
                                    gather_node dest_nodes idx,
                                    vget path_array idx)) l M)
             /\ symmetric
                  (fold_left (fun adj idx =>
                     scatter_edge adj (gather_node source_nodes idx,
                                       gather_node dest_nodes idx,
                                       vget path_array idx)) l M)).
  { induction l as [ | idx l IH]; intros M HM Hsym; [now split|].
    simpl fold_left.
    destruct (scatter_edge_keeps num_nodes M
                (gather_node source_nodes idx, gather_node dest_nodes idx,
                 vget path_array idx) HM Hsym) as [H1 H2].
    now apply IH. }
  apply H; [apply mat_init_square | apply zeros_symmetric].
Qed.

(** Reading the scattered matrix back. *)

Lemma same_edge_sym e e' : same_edge e e' = same_edge e' e.
Proof.
  destruct e as [s d], e' as [s' d']. unfold same_edge. cbn [fst snd].
  rewrite (Nat.eqb_sym s s'), (Nat.eqb_sym d d'), (Nat.eqb_sym s d'), (Nat.eqb_sym d s').
  destruct (Nat.eqb s' s), (Nat.eqb d' d), (Nat.eqb d' s), (Nat.eqb s' d); reflexivity.
Qed.

Lemma same_edge_true e e' :
  same_edge e e' = true <-> e' = e \/ e' = (snd e, fst e).
Proof.
  destruct e as [s d], e' as [s' d']. unfold same_edge. cbn [fst snd].
  rewrite orb_true_iff, !andb_true_iff, !Nat.eqb_eq. split.
  - intros [[-> ->] | [-> ->]]; auto.
  - intros [E | E]; injection E as -> ->; auto.
Qed.

Lemma same_edge_trans e1 e2 e3 :
  same_edge e1 e2 = true -> same_edge e2 e3 = true -> same_edge e1 e3 = true.
Proof.
  rewrite !same_edge_true. destruct e1 as [a b], e2 as [c d], e3 as [x y]. cbn [fst snd].
  intros [E | E] [E' | E']; injection E as -> ->; injection E' as -> ->; auto.
Qed.

Lemma find_none_iff {A} (p : A -> bool) (l : list A) :
  find p l = None <-> forall x, In x l -> p x = false.
Proof.
  split; [apply find_none|]. intros H. destruct (find p l) as [x | ] eqn:E; [|reflexivity].
  apply find_some in E. destruct E as [Hin Hp]. rewrite (H x Hin) in Hp. discriminate.
Qed.

(** After the scatter of a simple edge list a cell holds the flag of the
    edge between its two indices, or what it held before. *)
Lemma scatter_find n (T : list (nat * nat * Z)) (M : matrix) i j :
  square n M -> simple_edges n (map fst T) = true ->
  mget (fold_left scatter_edge T M) i j
  = match find (fun e => same_edge (fst e) (i, j)) T with
    | Some e => snd e
    | None => mget M i j
    end.
Proof.
  revert M. induction T as [ | [[s d] f] T IH]; intros M HM Hsimple; [reflexivity|].
  pose proof (simple_edges_in n _ (s, d) Hsimple (or_introl eq_refl)) as [Hs Hd].
  cbn [fst snd] in Hs, Hd.
  simpl in Hsimple. rewrite !andb_true_iff in Hsimple.
  destruct Hsimple as ((_ & Hfresh) & Hrest).
  simpl fold_left. rewrite IH by (try apply scatter_edge_square; assumption).
  cbn [find fst snd]. destruct (same_edge (s, d) (i, j)) eqn:E.
  - assert (Hnone : find (fun e => same_edge (fst e) (i, j)) T = None).
    { apply find_none_iff. intros e He.
      rewrite forallb_forall in Hfresh.
      specialize (Hfresh (fst e) (in_map fst _ _ He)). apply negb_true_iff in Hfresh.
      destruct (same_edge (fst e) (i, j)) eqn:E'; [|reflexivity].
      rewrite (same_edge_trans (s, d) (i, j) (fst e)) in Hfresh;
        [discriminate | exact E | now rewrite same_edge_sym]. }
    rewrite Hnone, (scatter_edge_get n) by assumption.
    apply same_edge_true in E. cbn [fst snd] in E.
    destruct E as [E | E]; injection E as -> ->; rewrite !Nat.eqb_refl; cbn [andb];
      [now destruct (Nat.eqb s d && Nat.eqb d s) | reflexivity].
  - destruct (find _ T); [reflexivity|].
    rewrite (scatter_edge_get n) by assumption.
    unfold same_edge in E. cbn [fst snd] in E. apply orb_false_iff in E.
    destruct E as [E1 E2].
    rewrite (Nat.eqb_sym s i), (Nat.eqb_sym d j) in E1.
    rewrite (Nat.eqb_sym s j), (Nat.eqb_sym d i), andb_comm in E2.
    now rewrite E1, E2.
Qed.

Lemma simple_edges_unique n (T : list (nat * nat * Z)) a b :
  simple_edges n (map fst T) = true -> In a T -> In b T ->
  same_edge (fst a) (fst b) = true -> a = b.
Proof.
  induction T as [ | e T IH]; intros Hsimple Ha Hb Hsame; [contradiction|].
  simpl in Hsimple. rewrite !andb_true_iff in Hsimple.
  destruct Hsimple as ((_ & Hfresh) & Hrest). rewrite forallb_forall in Hfresh.
  destruct Ha as [-> | Ha], Hb as [-> | Hb]; [reflexivity | | | now apply IH].
  - specialize (Hfresh (fst b) (in_map fst _ _ Hb)). rewrite Hsame in Hfresh. discriminate.
  - specialize (Hfresh (fst a) (in_map fst _ _ Ha)).
    rewrite same_edge_sym, Hsame in Hfresh. discriminate.
Qed.

(** For the edge list of a simple graph, [edges_to_adjacency] holds the flag
    of every edge at both of its cells, and 0 in every cell that no edge
    joins. *)
Theorem edges_to_adjacency_cells (path_array : vector)
    (source_nodes dest_nodes : list nat) (num_nodes : nat) :
  length source_nodes = length path_array ->
  length dest_nodes = length path_array ->
  simple_edges num_nodes (combine source_nodes dest_nodes) = true ->
  let adjacency := edges_to_adjacency path_array source_nodes dest_nodes num_nodes in
  (forall idx, idx < length path_array ->
     mget adjacency (nth idx source_nodes 0) (nth idx dest_nodes 0) = vget path_array idx
     /\ mget adjacency (nth idx dest_nodes 0) (nth idx source_nodes 0) = vget path_array idx)
  /\ (forall i j,
        (forall idx, idx < length path_array ->
           same_edge (nth idx source_nodes 0, nth idx dest_nodes 0) (i, j) = false) ->
        mget adjacency i j = 0%Z).
Proof.
  intros Hs Hd Hsimple adjacency. subst adjacency.
  rewrite edges_to_adjacency_fold by assumption.
  set (T := combine (combine source_nodes dest_nodes) path_array).
  assert (HT : length T = length path_array)
    by (unfold T; rewrite !length_combine; lia).
  assert (Hnth : forall idx, idx < length path_array ->
            nth idx T (0, 0, 0%Z)
            = (nth idx source_nodes 0, nth idx dest_nodes 0, vget path_array idx)).
  { intros idx Hidx. unfold T, vget.
    now rewrite !combine_nth by (rewrite ?length_combine; lia). }
  assert (Hfst : map fst T = combine source_nodes dest_nodes).
  { unfold T. clear - Hs Hd.
    assert (Hl : length (combine source_nodes dest_nodes) = length path_array)
      by (rewrite length_combine; lia).
    revert Hl. generalize (combine source_nodes dest_nodes) as E. clear.
    intros E. revert path_array. induction E as [ | e E IH]; intros [ | f fl] Hl;
      simpl in *; try discriminate; [reflexivity|]. f_equal. apply IH. lia. }
  assert (HsT : simple_edges num_nodes (map fst T) = true) by now rewrite Hfst.
  split.
  - intros idx Hidx.
    assert (Hin : In (nth idx T (0, 0, 0%Z)) T) by (apply nth_In; lia).
    rewrite Hnth in Hin by exact Hidx.
    assert (Hcell : forall i j,
              same_edge (nth idx source_nodes 0, nth idx dest_nodes 0) (i, j) = true ->
              mget (fold_left scatter_edge T (mat_init num_nodes (fun _ _ => 0%Z))) i j
              = vget path_array idx).
    { intros i j Hsame. rewrite (scatter_find num_nodes) by (try apply mat_init_square; exact HsT).
      destruct (find _ T) as [e | ] eqn:E.
      - apply find_some in E. destruct E as [He Hp].
        rewrite (simple_edges_unique num_nodes T e _ HsT He Hin); [reflexivity|].
        cbn [fst]. apply same_edge_trans with (i, j); [exact Hp|].
        now rewrite same_edge_sym.
      - rewrite find_none_iff in E. specialize (E _ Hin). cbn [fst] in E. congruence. }
    split; apply Hcell; apply same_edge_true; cbn [fst snd]; auto.
  - intros i j Hno. rewrite (scatter_find num_nodes) by (try apply mat_init_square; exact HsT).
    destruct (find _ T) as [e | ] eqn:E.
    + apply find_some in E. destruct E as [He Hp].
      destruct (In_nth _ _ (0, 0, 0%Z) He) as (idx & Hidx & <-).
      rewrite Hnth in Hp by lia. cbn [fst] in Hp. rewrite Hno in Hp by lia. discriminate.
    + destruct (Nat.lt_ge_cases i num_nodes), (Nat.lt_ge_cases j num_nodes);
        try (apply (square_outside num_nodes); [apply mat_init_square | lia]).
      now apply zeros_get.
Qed.

Lemma edges_to_adjacency_cells_witness :
  mget (edges_to_adjacency [0; 1; 1; 0]%Z ring_sources ring_dests 4) 3 0 = 1%Z
  /\ mget (edges_to_adjacency [0; 1; 1; 0]%Z ring_sources ring_dests 4) 0 2 = 0%Z.
Proof.
  destruct (edges_to_adjacency_cells [0; 1; 1; 0]%Z ring_sources ring_dests 4
              eq_refl eq_refl eq_refl) as [Hedge Hnone].
  split.
  - exact (proj2 (Hedge 1 ltac:(repeat constructor))).
  - apply Hnone. intros idx Hidx.
    do 4 (destruct idx as [ | idx]; [reflexivity|]). simpl in Hidx. lia.
Defined.

(** *** The score of a partition and of its complement *)

(** The body of [calculate_congestion] for the two sides [p1] and [p2]. *)
Definition gate_code (n : nat) (adjacency cut_matrix : matrix) (p : vector) : bool :=
  let partitioned_adj :=
    mat_init n (fun i j => (mget adjacency i j - mget cut_matrix i j)%Z) in
  let masked :=
    mat_init n (fun i j =>
      if (vget p i * vget p j >? 0)%Z then mget partitioned_adj i j else 0%Z) in
  forallb (fun b => b)
    (vec_init n (fun j =>
       if (vget p j >? 0)%Z then (vget (sum_axis0 n masked) j >? 0)%Z else true)).

Definition traffic_code (n : nat) (traffic_matrix : list (list Q)) (p1 p2 : vector) : Q :=
  fold_right Qplus 0%Q
    (concat (mat_init n (fun i j =>
       (nth j (nth i traffic_matrix []) 0%Q * inject_Z (vget p1 i * vget p2 j))%Q))).

Definition score (p1 p2 : vector) (adjacency : matrix) (traffic_matrix : list (list Q))
    (source_nodes dest_nodes : list nat) : option Q :=
  match find_cutset_edges p1 p2 source_nodes dest_nodes with
  | None => None
  | Some edges =>
      let n := length adjacency in
      let cut_matrix := edges_to_adjacency edges source_nodes dest_nodes n in
      let cut_size := msum cut_matrix in
      let congestion :=
        if (cut_size >? 0)%Z
        then (traffic_code n traffic_matrix p1 p2 / inject_Z cut_size)%Q else 0%Q in
      Some (congestion
            * (if gate_code n adjacency cut_matrix p1 && gate_code n adjacency cut_matrix p2
               then 1 else 0))%Q
  end.

Lemma calculate_congestion_score (partition_mask : vector) (adjacency : matrix)
    (traffic_matrix : list (list Q)) (source_nodes dest_nodes : list nat) :
  calculate_congestion partition_mask adjacency traffic_matrix source_nodes dest_nodes
  = score partition_mask (map (fun x => 1 - x)%Z partition_mask)
          adjacency traffic_matrix source_nodes dest_nodes.
Proof. reflexivity. Qed.

(** Equality of two results: both raise, or both return equal numbers. *)
Definition same_result (a b : option Q) : Prop :=
  match a, b with
  | Some x, Some y => x == y
  | None, None => True
  | _, _ => False
  end.

Lemma find_cutset_edges_swap (p1 p2 : vector) (source_nodes dest_nodes : list nat) :
  find_cutset_edges p1 p2 source_nodes dest_nodes
  = find_cutset_edges p2 p1 source_nodes dest_nodes.
Proof.
  unfold find_cutset_edges. destruct (source_nodes ++ dest_nodes); [reflexivity|].
  f_equal. apply map_ext. intros [u v]. cbn [fst snd]. f_equal.
  destruct (gather p1 _ =? 0)%Z, (gather p2 _ =? 0)%Z,
    (gather p1 _ =? 0)%Z, (gather p2 _ =? 0)%Z; reflexivity.
Qed.

Lemma complement_involutive (p : vector) :
  map (fun x => 1 - x)%Z (map (fun x => 1 - x)%Z p) = p.
Proof.
  rewrite map_map. rewrite <- (map_id p) at 2. apply map_ext. intros x. lia.
Qed.

(** Sums over a square of indices. *)

Definition qsum (l : list Q) : Q := fold_right Qplus 0%Q l.

Section RationalSums.

Local Open Scope Q_scope.

Lemma qsum_cons (x : Q) (l : list Q) : qsum (x :: l) = (x + qsum l)%Q.
Proof. reflexivity. Qed.

Lemma qsum_nil : qsum [] = 0%Q.
Proof. reflexivity. Qed.

Lemma qsum_app (a b : list Q) : qsum (a ++ b) == qsum a + qsum b.
Proof.
  induction a as [ | x a IH]; cbn [app].
  - rewrite qsum_nil. ring.
  - rewrite !qsum_cons, IH. ring.
Qed.

Lemma qsum_add {A} (f g : A -> Q) (l : list A) :
  qsum (map (fun x => f x + g x) l) == qsum (map f l) + qsum (map g l).
Proof.
  induction l as [ | x l IH]; cbn [map].
  - rewrite qsum_nil. ring.
  - rewrite !qsum_cons, IH. ring.
Qed.

Lemma qsum_ext_in {A} (f g : A -> Q) (l : list A) :
  (forall x, In x l -> f x == g x) -> qsum (map f l) == qsum (map g l).
Proof.
  induction l as [ | x l IH]; intros H; cbn [map]; [reflexivity|].
  rewrite !qsum_cons, IH by (intros y Hy; apply H; now right).
  rewrite (H x) by now left. reflexivity.
Qed.

Lemma qsum_concat_map {A B} (F : A -> B -> Q) (l1 : list A) (l2 : list B) :
  qsum (concat (map (fun i => map (F i) l2) l1))
  == qsum (map (fun i => qsum (map (F i) l2)) l1).
Proof.
  induction l1 as [ | a l1 IH]; cbn [map concat]; [reflexivity|].
  now rewrite qsum_app, qsum_cons, IH.
Qed.

Lemma qsum_zeros {A} (l : list A) : qsum (map (fun _ => 0%Q) l) == 0.
Proof.
  induction l as [ | x l IH]; cbn [map]; [reflexivity|].
  rewrite qsum_cons, IH. ring.
Qed.

Lemma qsum_swap {A B} (F : A -> B -> Q) (l1 : list A) (l2 : list B) :
  qsum (map (fun i => qsum (map (F i) l2)) l1)
  == qsum (map (fun j => qsum (map (fun i => F i j) l1)) l2).
Proof.
  induction l1 as [ | a l1 IH]; cbn [map].
  - rewrite qsum_nil. symmetry. apply qsum_zeros.
  - rewrite qsum_cons, IH, <- qsum_add. apply qsum_ext_in. intros j _.
    now rewrite qsum_cons.
Qed.

Lemma qsum_transpose n (F : nat -> nat -> Q) :
  qsum (concat (mat_init n (fun i j => F i j)))
  == qsum (concat (mat_init n (fun i j => F j i))).
Proof.
  unfold mat_init, vec_init.
  rewrite (qsum_concat_map F), (qsum_concat_map (fun i j => F j i)).
  apply qsum_swap.
Qed.

End RationalSums.

(** The traffic matrix reads the same in both directions, on the first [n]
    nodes. *)
Definition symmetric_traffic (n : nat) (traffic_matrix : list (list Q)) : bool :=
  forallb (fun i =>
    forallb (fun j =>
      Qeq_bool (nth j (nth i traffic_matrix []) 0%Q) (nth i (nth j traffic_matrix []) 0%Q))
      (seq 0 n)) (seq 0 n).

Lemma traffic_code_swap n (traffic_matrix : list (list Q)) (p1 p2 : vector) :
  symmetric_traffic n traffic_matrix = true ->
  traffic_code n traffic_matrix p1 p2 == traffic_code n traffic_matrix p2 p1.
Proof.
  intros Hsym. unfold traffic_code.
  change (fold_right Qplus 0%Q) with qsum.
  rewrite (qsum_transpose n
    (fun i j => (nth j (nth i traffic_matrix []) 0 * inject_Z (vget p1 i * vget p2 j))%Q)).
  unfold mat_init, vec_init.
  rewrite !qsum_concat_map. apply qsum_ext_in. intros i Hi.
  apply qsum_ext_in. intros j Hj.
  unfold symmetric_traffic in Hsym. rewrite forallb_forall in Hsym.
  specialize (Hsym i Hi). rewrite forallb_forall in Hsym. specialize (Hsym j Hj).
  apply Qeq_bool_iff in Hsym. rewrite Hsym, Z.mul_comm. reflexivity.
Qed.

(** When demand is symmetric the score does not depend on which side of the
    cut is called partition1. *)
Lemma score_swap (p1 p2 : vector) (adjacency : matrix) (traffic_matrix : list (list Q))
    (source_nodes dest_nodes : list nat) :
  symmetric_traffic (length adjacency) traffic_matrix = true ->
  same_result (score p1 p2 adjacency traffic_matrix source_nodes dest_nodes)
              (score p2 p1 adjacency traffic_matrix source_nodes dest_nodes).
Proof.
  intros Hsym. unfold score. rewrite (find_cutset_edges_swap p2 p1).
  destruct (find_cutset_edges p1 p2 source_nodes dest_nodes) as [edges | ]; [|exact I].
  cbv zeta. unfold same_result.
  rewrite (andb_comm (gate_code _ _ _ p2)).
  destruct (msum _ >? 0)%Z; [|reflexivity].
  now rewrite (traffic_code_swap _ _ p1 p2 Hsym).
Qed.

(** [calculate_congestion] gives a mask and its complement the same score,
    when the traffic matrix is symmetric. *)
Theorem calculate_congestion_complement (partition_mask : vector) (adjacency : matrix)
    (traffic_matrix : list (list Q)) (source_nodes dest_nodes : list nat) :
  symmetric_traffic (length adjacency) traffic_matrix = true ->
  same_result
    (calculate_congestion partition_mask adjacency traffic_matrix source_nodes dest_nodes)
    (calculate_congestion (map (fun x => 1 - x)%Z partition_mask) adjacency
                          traffic_matrix source_nodes dest_nodes).
Proof.
  intros Hsym. rewrite !calculate_congestion_score, complement_involutive.
  now apply score_swap.
Qed.

Lemma calculate_congestion_complement_witness :
  symmetric_traffic 4 unit_traffic = true
  /\ same_result
       (calculate_congestion [1; 0; 0; 1]%Z ring_adjacency unit_traffic
                             ring_sources ring_dests)
       (calculate_congestion [0; 1; 1; 0]%Z ring_adjacency unit_traffic
                             ring_sources ring_dests).
Proof.
  split; [reflexivity|].
  exact (calculate_congestion_complement [1; 0; 0; 1]%Z ring_adjacency unit_traffic
           ring_sources ring_dests eq_refl).
Defined.

(** *** Partitions that score 0 *)

Lemma set_nth_Forall {A} (P : A -> Prop) (l : list A) i x :
  Forall P l -> P x -> Forall P (set_nth l i x).
Proof.
  intros Hl Hx. revert i. induction Hl as [ | h t Hh Ht IH]; intros [ | i]; simpl;
    constructor; auto.
Qed.

Lemma update_cell_Forall (P : Z -> Prop) (M : matrix) v s d :
  Forall (Forall P) M -> P v -> Forall (Forall P) (dynamic_update_cell M v s d).
Proof.
  intros HM Hv. unfold dynamic_update_cell. apply set_nth_Forall; [exact HM|].
  apply set_nth_Forall; [|exact Hv].
  destruct (nth_in_or_default (Nat.min s (length M - 1)) M []) as [Hin | ->];
    [|constructor].
  rewrite Forall_forall in HM. now apply HM.
Qed.

Lemma Forall_vget (P : Z -> Prop) (v : vector) i : P 0%Z -> Forall P v -> P (vget v i).
Proof.
  intros H0 Hv. unfold vget. destruct (nth_in_or_default i v 0%Z) as [Hin | ->];
    [|exact H0].
  rewrite Forall_forall in Hv. now apply Hv.
Qed.

Lemma Forall_mget (P : Z -> Prop) (M : matrix) i j :
  P 0%Z -> Forall (Forall P) M -> P (mget M i j).
Proof.
  intros H0 HM. unfold mget. apply (Forall_vget P); [exact H0|].
  destruct (nth_in_or_default i M []) as [Hin | ->]; [|constructor].
  rewrite Forall_forall in HM. now apply HM.
Qed.

(** Every cell of the scattered matrix is 0 or one of the flags. *)
Lemma edges_to_adjacency_Forall (P : Z -> Prop) (path_array : vector)
    (source_nodes dest_nodes : list nat) (num_nodes : nat) :
  P 0%Z -> Forall P path_array ->
  Forall (Forall P) (edges_to_adjacency path_array source_nodes dest_nodes num_nodes).
Proof.
  intros H0 Hflags. unfold edges_to_adjacency.
  assert (Hinit : Forall (Forall P) (mat_init num_nodes (fun _ _ => 0%Z))).
  { unfold mat_init, vec_init. apply Forall_forall. intros row Hrow.
    apply in_map_iff in Hrow. destruct Hrow as (i & <- & _).
    apply Forall_forall. intros x Hx. apply in_map_iff in Hx.
    destruct Hx as (j & <- & _). exact H0. }
  revert Hinit. generalize (mat_init num_nodes (fun _ _ => 0%Z)) as M.
  induction (seq 0 (length path_array)) as [ | idx l IH]; intros M HM; [exact HM|].
  simpl fold_left. apply IH.
  assert (Hv : P (1 * vget path_array idx)%Z)
    by (rewrite Z.mul_1_l; now apply Forall_vget).
  now repeat apply update_cell_Forall.
Qed.

Lemma msum_all_zero (M : matrix) : Forall (Forall (eq 0%Z)) M -> msum M = 0%Z.
Proof.
  unfold msum. induction 1 as [ | row M Hrow _ IH]; [reflexivity|].
  cbn [map]. change (vsum (?a :: ?t)) with (a + vsum t)%Z. rewrite IH.
  assert (vsum row = 0%Z); [|lia].
  clear - Hrow. induction Hrow as [ | x row <- _ IH]; [reflexivity|].
  change (vsum (0%Z :: row)) with (0 + vsum row)%Z. lia.
Qed.

(** For the two columns of an edge list, [find_cutset_edges] raises exactly
    when the list is empty; otherwise it returns one flag per edge, each 0
    or 1. *)
Theorem find_cutset_edges_flags (p1 p2 : vector) (source_nodes dest_nodes : list nat) :
  length source_nodes = length dest_nodes ->
  (find_cutset_edges p1 p2 source_nodes dest_nodes = None <-> source_nodes = [])
  /\ (forall flags, find_cutset_edges p1 p2 source_nodes dest_nodes = Some flags ->
        length flags = length source_nodes
        /\ Forall (fun f => f = 0%Z \/ f = 1%Z) flags).
Proof.
  intros Hlen. unfold find_cutset_edges.
  destruct (source_nodes ++ dest_nodes) as [ | x rest] eqn:E.
  - apply app_eq_nil in E. destruct E as [-> _]. split; [tauto | discriminate].
  - split.
    + split; [discriminate|]. intros ->.
      destruct dest_nodes; [discriminate E | discriminate Hlen].
    + intros flags H. injection H as <-.
      rewrite length_map, length_combine, <- Hlen, Nat.min_id. split; [reflexivity|].
      apply Forall_forall. intros f Hf. apply in_map_iff in Hf.
      destruct Hf as (e & <- & _). destruct (_ || _); simpl; auto.
Qed.

Lemma find_cutset_edges_flags_witness :
  find_cutset_edges [1; 1; 0; 0]%Z [0; 0; 1; 1]%Z ring_sources ring_dests
  = Some [0; 1; 1; 0]%Z
  /\ length [0; 1; 1; 0]%Z = length ring_sources.
Proof.
  split; [reflexivity|].
  destruct (find_cutset_edges_flags [1; 1; 0; 0]%Z [0; 0; 1; 1]%Z ring_sources ring_dests
              eq_refl) as [_ H].
  exact (proj1 (H [0; 1; 1; 0]%Z eq_refl)).
Defined.

Lemma gather_all_zero (v : vector) i : Forall (eq 0%Z) v -> gather v i = 0%Z.
Proof. intros H. unfold gather. symmetry. now apply (Forall_vget (eq 0%Z)). Qed.

(** With all nodes on one side no edge is cut and the score is 0: the
    division by the empty cut is never made. *)
Theorem calculate_congestion_one_sided (partition_mask : vector) (adjacency : matrix)
    (traffic_matrix : list (list Q)) (source_nodes dest_nodes : list nat) :
  source_nodes ++ dest_nodes <> [] ->
  Forall (eq 1%Z) partition_mask \/ Forall (eq 0%Z) partition_mask ->
  exists q,
    calculate_congestion partition_mask adjacency traffic_matrix source_nodes dest_nodes
    = Some q /\ q == 0.
Proof.
  intros Hne Hside. rewrite calculate_congestion_score. unfold score.
  assert (Hflags : exists flags,
            find_cutset_edges partition_mask (map (fun x => 1 - x)%Z partition_mask)
                              source_nodes dest_nodes = Some flags
            /\ Forall (eq 0%Z) flags).
  { unfold find_cutset_edges. destruct (source_nodes ++ dest_nodes) as [ | x rest];
      [contradiction|].
    eexists. split; [reflexivity|].
    apply Forall_forall. intros f Hf. apply in_map_iff in Hf. destruct Hf as (e & <- & _).
    destruct Hside as [H1 | H0].
    - assert (Hz : Forall (eq 0%Z) (map (fun x => 1 - x)%Z partition_mask)).
      { apply Forall_forall. intros y Hy. apply in_map_iff in Hy.
        destruct Hy as (x' & <- & Hx'). rewrite Forall_forall in H1.
        rewrite <- (H1 x' Hx'). reflexivity. }
      rewrite !(gather_all_zero _ _ Hz). cbn. now rewrite !andb_false_r.
    - rewrite !(gather_all_zero _ _ H0). reflexivity. }
  destruct Hflags as (flags & -> & Hz). cbv zeta.
  rewrite msum_all_zero by (apply edges_to_adjacency_Forall; [reflexivity | exact Hz]).
  eexists. split; [reflexivity|]. cbn. ring.
Qed.

Lemma calculate_congestion_one_sided_witness :
  exists q,
    calculate_congestion [1; 1; 1; 1]%Z ring_adjacency unit_traffic ring_sources ring_dests
    = Some q /\ q == 0.
Proof.
  apply calculate_congestion_one_sided; [discriminate | left; repeat constructor].
Defined.

(** *** The partition of [get_cutset_from_path] and the subgraph boundary *)

(** [in_subgraph] of [find_cutset_adj]: the nodes with a connection in the
    subgraph matrix. *)
Definition in_subgraph (subgraph_matrix full_matrix : matrix) : list bool :=
  let n := length full_matrix in
  vec_init n (fun k =>
    (vget (sum_axis0 n subgraph_matrix) k + vget (sum_axis1 n subgraph_matrix) k >? 0)%Z).

(** The same for the subgraph that [get_cutset_from_path] completes around
    the path. *)
Definition path_subgraph (path_array : vector) (adjacency : matrix)
    (source_nodes dest_nodes : list nat) : list bool :=
  in_subgraph
    (make_complete_subgraph
       (edges_to_adjacency path_array source_nodes dest_nodes (length adjacency)) adjacency)
    adjacency.

Lemma remaining_graph_cell path_array adjacency source_nodes dest_nodes i j :
  i < length adjacency -> j < length adjacency ->
  let inside := path_subgraph path_array adjacency source_nodes dest_nodes in
  mget (remaining_graph path_array adjacency source_nodes dest_nodes) i j
  = (mget adjacency i j
     * (1 - Z.b2z (negb (mget adjacency i j =? 0)%Z
                   && xorb (nth i inside false) (nth j inside false))))%Z.
Proof.
  intros Hi Hj inside. unfold remaining_graph, find_cutset_adj.
  rewrite !mat_init_get by assumption.
  unfold inside, path_subgraph, in_subgraph, mat_init.
  rewrite !vec_init_nth by assumption.
  do 3 f_equal.
  repeat match goal with
         | |- context [(?x >? 0)%Z] => destruct (x >? 0)%Z
         end; reflexivity.
Qed.

Lemma partition1_iter path_array adjacency source_nodes dest_nodes :
  fst (get_cutset_from_path path_array adjacency source_nodes dest_nodes)
  = Nat.iter (length adjacency - 1)
      (update_reachable (length adjacency)
         (remaining_graph path_array adjacency source_nodes dest_nodes))
      (set_nth (vec_init (length adjacency) (fun _ => 0%Z)) 0 1%Z).
Proof.
  unfold get_cutset_from_path. cbn [fst].
  now rewrite fold_left_const_iter, length_seq.
Qed.

(** The partition that [get_cutset_from_path] grows from node 0 always holds
    node 0, never crosses the boundary of the subgraph completed around the
    path, and is separated from the other partition by edges of that
    boundary only. *)
Theorem get_cutset_from_path_respects_subgraph
    (path_array : vector) (adjacency : matrix) (source_nodes dest_nodes : list nat) :
  adjacency_ok adjacency = true ->
  let n := length adjacency in
  let inside := path_subgraph path_array adjacency source_nodes dest_nodes in
  let partition1 := fst (get_cutset_from_path path_array adjacency source_nodes dest_nodes) in
  (0 < n -> vget partition1 0 = 1%Z)
  /\ (forall j, j < n -> vget partition1 j = 1%Z -> nth j inside false = nth 0 inside false)
  /\ (forall i j, i < n -> j < n ->
        vget partition1 i = 1%Z -> vget partition1 j = 0%Z ->
        mget adjacency i j <> 0%Z ->
        nth i inside false <> nth j inside false).
Proof.
  intros Hok n inside partition1.
  set (remaining := remaining_graph path_array adjacency source_nodes dest_nodes).
  assert (Hnn : forall i j, i < n -> j < n -> (0 <= mget remaining i j)%Z)
    by (intros; now apply remaining_graph_nonneg).
  assert (E1 : partition1 =
               Nat.iter (n - 1) (update_reachable n remaining)
                        (set_nth (vec_init n (fun _ => 0%Z)) 0 1%Z))
    by apply partition1_iter.
  assert (Hside : forall j, reachable_from_0 n remaining j ->
                            nth j inside false = nth 0 inside false).
  { induction 1 as [Hn | i j Hi IH Hj Hp]; [reflexivity|].
    rewrite <- IH. pose proof (reachable_lt n remaining i Hi) as Hlt.
    unfold remaining in Hp. rewrite remaining_graph_cell in Hp by assumption.
    fold inside in Hp.
    destruct (mget adjacency i j =? 0)%Z eqn:Ez;
      [apply Z.eqb_eq in Ez; rewrite Ez in Hp; lia|].
    destruct (nth i inside false), (nth j inside false); try reflexivity;
      cbn in Hp; lia. }
  split; [|split].
  - intros Hn. rewrite E1. now apply iter_keeps_start.
  - intros j Hj H1. apply Hside. apply (propagate_reachable n remaining Hnn j Hj).
    now rewrite <- E1.
  - intros i j Hi Hj H1 H0 Hadj Hsame.
    assert (Hri : reachable_from_0 n remaining i).
    { apply (propagate_reachable n remaining Hnn i Hi). now rewrite <- E1. }
    assert (Hrj : ~ reachable_from_0 n remaining j).
    { intros Hr. apply (propagate_reachable n remaining Hnn j Hj) in Hr.
      rewrite <- E1 in Hr. lia. }
    apply Hrj. apply reach_step with (i := i); [exact Hri | exact Hj|].
    unfold remaining. rewrite remaining_graph_cell by assumption. fold inside.
    rewrite Hsame, xorb_nilpotent, andb_false_r. cbn [Z.b2z].
    pose proof (adjacency_ok_nonneg adjacency i j Hok). lia.
Qed.

Lemma get_cutset_from_path_respects_subgraph_witness :
  vget (fst (get_cutset_from_path [1; 0; 0; 0]%Z ring_adjacency ring_sources ring_dests)) 0
  = 1%Z
  /\ nth 1 (path_subgraph [1; 0; 0; 0]%Z ring_adjacency ring_sources ring_dests) false
     = nth 0 (path_subgraph [1; 0; 0; 0]%Z ring_adjacency ring_sources ring_dests) false
  /\ nth 1 (path_subgraph [1; 0; 0; 0]%Z ring_adjacency ring_sources ring_dests) false
     <> nth 2 (path_subgraph [1; 0; 0; 0]%Z ring_adjacency ring_sources ring_dests) false.
Proof.
  destruct (get_cutset_from_path_respects_subgraph
              [1; 0; 0; 0]%Z ring_adjacency ring_sources ring_dests eq_refl)
    as (H0 & Hin & Hout).
  split; [apply H0; repeat constructor|].
  split; [apply (Hin 1); [repeat constructor | reflexivity]|].
  apply (Hout 1 2); [repeat constructor | repeat constructor | reflexivity | reflexivity|].
  discriminate.
Defined.

(** *** Node numbering in [find_cutset_edges] *)

Lemma fold_min_shift k (l : list nat) (a : nat) :
  fold_left Nat.min (map (Nat.add k) l) (k + a) = k + fold_left Nat.min l a.
Proof.
  revert a. induction l as [ | x l IH]; intros a; [reflexivity|].
  cbn [map fold_left]. rewrite Nat.add_min_distr_l. apply IH.
Qed.

(** Only the differences to the smallest node number matter: adding the
    same number to every endpoint leaves the flags, and the failure on an
    empty edge list, as they are. *)
Theorem find_cutset_edges_shift (k : nat) (p1 p2 : vector)
    (source_nodes dest_nodes : list nat) :
  find_cutset_edges p1 p2 (map (Nat.add k) source_nodes) (map (Nat.add k) dest_nodes)
  = find_cutset_edges p1 p2 source_nodes dest_nodes.
Proof.
  unfold find_cutset_edges. rewrite <- map_app.
  destruct (source_nodes ++ dest_nodes) as [ | x rest]; [reflexivity|].
  cbn [map]. rewrite fold_min_shift. f_equal.
  generalize (fold_left Nat.min rest x) as lowest. intros lowest.
  revert dest_nodes. induction source_nodes as [ | s S IH]; intros [ | d D];
    try reflexivity.
  cbn [map combine fst snd]. rewrite IH.
  replace (k + s - (k + lowest)) with (s - lowest) by lia.
  replace (k + d - (k + lowest)) with (d - lowest) by lia.
  reflexivity.
Qed.

End CutsetFacts.

(** ** The exhaustive search over partition masks *)

Module Exhaustive.

Import Cutsets Postprocess.
Local Open Scope nat_scope.

(** [calculate_congestion_batch]: [jax.vmap] of [calculate_congestion] over
    the rows of the mask batch. *)
Definition calculate_congestion_batch (partition_masks_batch : list vector)
    (adjacency_matrix : matrix) (traffic_matrix : list (list Q))
    (source_nodes dest_nodes : list nat) : option (list Q) :=
  all_some
    (map (fun mask =>
            calculate_congestion mask adjacency_matrix traffic_matrix source_nodes dest_nodes)
         partition_masks_batch).

(** [jax.lax.scan(f, None, xs)] for a body without carry: the outputs of the
    body along [xs]; a body that raises makes the scan raise. *)
Definition scan {X Y} (f : X -> option Y) (xs : list X) : option (list Y) :=
  all_some (map f xs).

(** The inner closure [batch_eval_sort] of [find_congested_cuts_exhaustive],
    with the variables it captures as arguments.  The indices are entries
    of [int32] arrays, here and in the two scans below. *)
Definition batch_eval_sort (adj_matrix : matrix) (traf_matrix : list (list Q))
    (num_nodes top_k max_batch_size : nat) (source_nodes dest_nodes : list nat) (j : Z)
  : option (list Q * list vector) :=
  let j := int32 (j * Z.of_nat max_batch_size) in
  let new_masks := Gray.generate_gray_code_masks num_nodes max_batch_size j in
  match calculate_congestion_batch new_masks adj_matrix traf_matrix source_nodes dest_nodes
  with
  | None => None
  | Some new_congestions =>
      let top_indices := last_k top_k (argsort new_congestions) in
      let new_congestions := index 0%Q new_congestions top_indices in
      let new_masks := index [] new_masks top_indices in
      Some (new_congestions, new_masks)
  end.

(** The closure [find_congested_cuts_iter]. *)
Definition find_congested_cuts_iter (num_batches_per_iteration : nat)
    (adj_matrix : matrix) (traf_matrix : list (list Q))
    (num_nodes top_k max_batch_size : nat) (source_nodes dest_nodes : list nat) (i : Z)
  : option (list Q * list vector) :=
  let batch_indices := map (fun b => int32 (b + i)) (arange num_batches_per_iteration) in
  match scan (batch_eval_sort adj_matrix traf_matrix num_nodes top_k max_batch_size
                              source_nodes dest_nodes) batch_indices
  with
  | None => None
  | Some results =>
      let result_congestions := concat (map fst results) in
      let result_masks := concat (map snd results) in
      let sorted_indices := last_k top_k (argsort result_congestions) in
      let congestions_iter := index 0%Q result_congestions sorted_indices in
      let masks_iter := index [] result_masks sorted_indices in
      Some (congestions_iter, masks_iter)
  end.

(** [find_congested_cuts_exhaustive(start, num_iterations,
    num_batches_per_iteration, adj_matrix, traf_matrix, num_nodes, top_k,
    max_batch_size, source_nodes, dest_nodes)] for one process, [start] a
    single number. *)
Definition find_congested_cuts_exhaustive (start : Z)
    (num_iterations num_batches_per_iteration : nat)
    (adj_matrix : matrix) (traf_matrix : list (list Q))
    (num_nodes top_k max_batch_size : nat) (source_nodes dest_nodes : list nat)
  : option (list Q * list vector * list vector) :=
  match scan (find_congested_cuts_iter num_batches_per_iteration adj_matrix traf_matrix
                num_nodes top_k max_batch_size source_nodes dest_nodes)
             (map (fun k => int32 (int32 (k + start) * Z.of_nat num_batches_per_iteration))
                  (arange num_iterations))
  with
  | None => None
  | Some results =>
      let congestions := concat (map fst results) in
      let masks := concat (map snd results) in
      let partition1 := masks in
      let partition2 := map (map (fun x => 1 - x)%Z) masks in
      Some (congestions, partition1, partition2)
  end.

(** *** Lists of results *)

Lemma all_some_Forall2 {A B} (F : A -> option B) (xs : list A) (rs : list B) :
  all_some (map F xs) = Some rs -> Forall2 (fun x r => F x = Some r) xs rs.
Proof.
  revert rs. induction xs as [ | x xs IH]; intros rs H; cbn in H.
  - injection H as <-. constructor.
  - destruct (F x) as [r | ] eqn:E; [|discriminate].
    destruct (all_some (map F xs)) as [rs' | ]; [|discriminate].
    injection H as <-. constructor; [exact E | now apply IH].
Qed.

Lemma all_some_total {A B} (F : A -> option B) (xs : list A) :
  (forall x, In x xs -> exists r, F x = Some r) ->
  exists rs, all_some (map F xs) = Some rs.
Proof.
  induction xs as [ | x xs IH]; intros H; cbn; [now exists []|].
  destruct (H x (or_introl eq_refl)) as [r ->].
  destruct IH as [rs ->]; [intros y Hy; apply H; now right|].
  now exists (r :: rs).
Qed.

Lemma Forall2_In_l {A B} (R : A -> B -> Prop) xs rs x :
  Forall2 R xs rs -> In x xs -> exists r, In r rs /\ R x r.
Proof.
  induction 1 as [ | a b xs rs Hab _ IH]; intros Hin; [contradiction|].
  destruct Hin as [-> | Hin]; [exists b; split; [now left | exact Hab]|].
  destruct (IH Hin) as (r & Hr & HR). exists r. split; [now right | exact HR].
Qed.

Lemma Forall2_In_r {A B} (R : A -> B -> Prop) xs rs r :
  Forall2 R xs rs -> In r rs -> exists x, In x xs /\ R x r.
Proof.
  induction 1 as [ | a b xs rs Hab _ IH]; intros Hin; [contradiction|].
  destruct Hin as [-> | Hin]; [exists a; split; [now left | exact Hab]|].
  destruct (IH Hin) as (x & Hx & HR). exists x. split; [now right | exact HR].
Qed.

Lemma Forall2_combine {A B} (R : A -> B -> Prop) xs rs x r :
  Forall2 R xs rs -> In (r, x) (combine rs xs) -> R x r.
Proof.
  induction 1 as [ | a b xs rs Hab _ IH]; intros Hin; [contradiction|].
  destruct Hin as [E | Hin]; [injection E as -> ->; exact Hab | now apply IH].
Qed.

(** The (congestion, mask) rows of a result. *)
Definition pairs (r : list Q * list vector) : list (Q * vector) :=
  combine (fst r) (snd r).

Lemma combine_concat (rs : list (list Q * list vector)) :
  Forall (fun r => length (fst r) = length (snd r)) rs ->
  combine (concat (map fst rs)) (concat (map snd rs)) = concat (map pairs rs).
Proof.
  induction 1 as [ | r rs Hr _ IH]; [reflexivity|].
  cbn [map concat]. rewrite <- IH. unfold pairs.
  destruct r as [a b]. cbn [fst snd] in *.
  clear IH. revert b Hr. induction a as [ | x a IHa]; intros [ | y b] Hr;
    try discriminate; [reflexivity|].
  cbn. f_equal. apply IHa. now injection Hr.
Qed.

Lemma concat_lengths (rs : list (list Q * list vector)) :
  Forall (fun r => length (fst r) = length (snd r)) rs ->
  length (concat (map fst rs)) = length (concat (map snd rs)).
Proof.
  induction 1 as [ | r rs Hr _ IH]; [reflexivity|].
  cbn [map concat]. rewrite !length_app. now rewrite Hr, IH.
Qed.

Lemma concat_uniform_length {A} (K : nat) (ll : list (list A)) :
  Forall (fun l => length l = K) ll -> length (concat ll) = length ll * K.
Proof.
  induction 1 as [ | l ll Hl _ IH]; [reflexivity|].
  cbn [concat length]. rewrite length_app, Hl, IH. lia.
Qed.

(** *** Keeping the rows of largest congestion *)

(** [keys[idx], rows[idx]] for [idx = argsort(keys)[-k:]]. *)
Definition top_rows (k : nat) (keys : list Q) (rows : list vector)
  : list Q * list vector :=
  let idx := last_k k (argsort keys) in (index 0%Q keys idx, index [] rows idx).

Lemma selected_lt k (keys : list Q) t :
  In t (last_k k (argsort keys)) -> t < length keys.
Proof.
  intros Ht. destruct (last_k_suffix k (argsort keys)) as [pre Hpre].
  assert (H : In t (argsort keys)) by (rewrite Hpre; apply in_or_app; now right).
  apply (Permutation_in _ (Permutation_sym (argsort_perm keys))), in_seq in H. lia.
Qed.

Lemma top_rows_pairs k keys rows :
  pairs (top_rows k keys rows)
  = map (fun t => (nth t keys 0%Q, nth t rows [])) (last_k k (argsort keys)).
Proof.
  unfold pairs, top_rows, index. cbn [fst snd].
  induction (last_k k (argsort keys)) as [ | t l IH]; [reflexivity|].
  cbn [map combine]. now rewrite IH.
Qed.

Lemma top_rows_length k keys rows :
  length (fst (top_rows k keys rows))
  = (if Nat.eqb k 0 then length keys else Nat.min k (length keys))
  /\ length (snd (top_rows k keys rows)) = length (fst (top_rows k keys rows)).
Proof.
  unfold top_rows, index. cbn [fst snd]. rewrite !length_map, last_k_length.
  now rewrite <- (Permutation_length (argsort_perm keys)), length_seq.
Qed.

Lemma top_rows_incl k keys rows :
  length rows = length keys -> incl (pairs (top_rows k keys rows)) (combine keys rows).
Proof.
  intros Hlen p Hp. rewrite top_rows_pairs in Hp. apply in_map_iff in Hp.
  destruct Hp as (t & <- & Ht). apply selected_lt in Ht.
  rewrite <- (combine_nth keys rows t 0%Q []) by (now symmetry).
  apply nth_In. rewrite length_combine. lia.
Qed.

Lemma top_rows_max k keys rows c m :
  length rows = length keys -> In (c, m) (combine keys rows) ->
  exists c' m', In (c', m') (pairs (top_rows k keys rows)) /\ (c <= c')%Q.
Proof.
  intros Hlen Hin. destruct (In_nth _ _ (0%Q, []) Hin) as (t & Ht & Et).
  rewrite length_combine in Ht. rewrite combine_nth in Et by (now symmetry).
  injection Et as Ec Em.
  destruct (last_k_suffix k (argsort keys)) as [pre Hpre].
  assert (Hsrt : In t (argsort keys))
    by (apply (Permutation_in _ (argsort_perm keys)), in_seq; lia).
  rewrite top_rows_pairs.
  rewrite Hpre in Hsrt. apply in_app_or in Hsrt. destruct Hsrt as [Hp | Hs].
  - assert (Hne : last_k k (argsort keys) <> []).
    { intros E. apply (f_equal (@length nat)) in E. rewrite last_k_length in E.
      rewrite <- (Permutation_length (argsort_perm keys)), length_seq in E.
      cbn [length] in E. destruct (Nat.eqb_spec k 0); lia. }
    destruct (last_k k (argsort keys)) as [ | u suf] eqn:Esuf; [contradiction|].
    exists (nth u keys 0%Q), (nth u rows []). split; [now left|].
    pose proof (argsort_sorted keys) as Hs. rewrite Hpre in Hs.
    pose proof (sorted_app_le _ pre (u :: suf) t u Hs Hp (or_introl eq_refl)) as Hle.
    apply Qle_bool_iff in Hle. now rewrite Ec in Hle.
  - exists c, m. split; [|apply Qle_refl].
    apply in_map_iff. exists t. split; [now rewrite Ec, Em | exact Hs].
Qed.

(** *** What the search returns *)

Section Search.

Variables (adj_matrix : matrix) (traf_matrix : list (list Q)).
Variables (num_nodes top_k max_batch_size : nat).
Variables (source_nodes dest_nodes : list nat).

Let congestion_of (mask : vector) : option Q :=
  calculate_congestion mask adj_matrix traf_matrix source_nodes dest_nodes.

(** A returned row is the mask of a Gray number of the range, with the
    congestion [calculate_congestion] gives it. *)
Definition evaluated (lo hi : Z) (cm : Q * vector) : Prop :=
  exists idx, (lo <= idx < hi)%Z /\ snd cm = Gray.mask_row num_nodes idx
              /\ congestion_of (snd cm) = Some (fst cm).

(** Every mask of the range is matched by a returned row of at least its
    congestion. *)
Definition covers (lo hi : Z) (ps : list (Q * vector)) : Prop :=
  forall idx, (lo <= idx < hi)%Z ->
    exists c c' m', congestion_of (Gray.mask_row num_nodes idx) = Some c
                    /\ In (c', m') ps /\ (c <= c')%Q.

Definition rows_kept (count : nat) : nat :=
  if Nat.eqb top_k 0 then count else Nat.min top_k count.

Definition searched (lo hi : Z) (count : nat) (r : list Q * list vector) : Prop :=
  Forall (evaluated lo hi) (pairs r) /\ covers lo hi (pairs r)
  /\ length (fst r) = count /\ length (snd r) = count.

Lemma evaluated_widen lo hi lo' hi' cm :
  (lo' <= lo)%Z -> (hi <= hi')%Z -> evaluated lo hi cm -> evaluated lo' hi' cm.
Proof.
  intros Hlo Hhi (idx & Hidx & H). exists idx. split; [lia | exact H].
Qed.

Lemma top_rows_searched lo hi keys rows :
  length rows = length keys ->
  Forall (evaluated lo hi) (combine keys rows) -> covers lo hi (combine keys rows) ->
  searched lo hi (rows_kept (length keys)) (top_rows top_k keys rows).
Proof.
  intros Hlen Hs Hc. destruct (top_rows_length top_k keys rows) as [L1 L2].
  split; [|split; [|split; [exact L1 | now rewrite L2]]].
  - apply Forall_forall. intros p Hp. rewrite Forall_forall in Hs.
    apply Hs. now apply (top_rows_incl top_k keys rows Hlen).
  - intros idx Hidx. destruct (Hc idx Hidx) as (c & c' & m' & Hv & Hin & Hle).
    destruct (top_rows_max top_k keys rows c' m' Hlen Hin) as (c2 & m2 & Hin2 & Hle2).
    exists c, c2, m2. split; [exact Hv|]. split; [exact Hin2|].
    now apply Qle_trans with c'.
Qed.

Lemma batch_eval_sort_searched j r :
  num_nodes <= 31 -> 0 < max_batch_size ->
  (0 <= j * Z.of_nat max_batch_size)%Z ->
  (j * Z.of_nat max_batch_size + Z.of_nat max_batch_size <= 2 ^ 31)%Z ->
  batch_eval_sort adj_matrix traf_matrix num_nodes top_k max_batch_size
                  source_nodes dest_nodes j = Some r ->
  searched (j * Z.of_nat max_batch_size) (j * Z.of_nat max_batch_size + Z.of_nat max_batch_size)
           (rows_kept max_batch_size) r.
Proof.
  intros Hn HB Hlo Hhi. unfold batch_eval_sort, calculate_congestion_batch.
  rewrite int32_small by lia.
  set (lo := (j * Z.of_nat max_batch_size)%Z) in *.
  assert (Hfit : Gray.in_int32 num_nodes max_batch_size lo)
    by (repeat split; [exact Hn | lia | exact Hhi]).
  set (masks := Gray.generate_gray_code_masks num_nodes max_batch_size lo).
  destruct (all_some _) as [congs | ] eqn:E; [|discriminate].
  intros H. injection H as <-.
  apply all_some_Forall2 in E.
  assert (Hlen : length masks = length congs) by (eapply Forall2_length; exact E).
  assert (Hmasks : length masks = max_batch_size) by apply Gray.masks_length.
  fold (top_rows top_k congs masks).
  replace (rows_kept max_batch_size) with (rows_kept (length congs)) by (f_equal; lia).
  apply top_rows_searched; [exact Hlen | | ].
  - apply Forall_forall. intros [c m] Hin.
    pose proof (Forall2_combine _ _ _ _ _ E Hin) as Hv. cbn beta in Hv.
    apply in_combine_r in Hin. destruct (In_nth _ _ [] Hin) as (t & Ht & Et).
    exists (lo + Z.of_nat t)%Z. split; [lia|]. cbn [fst snd]. split; [|exact Hv].
    rewrite <- Et. unfold masks. apply Gray.masks_nth; [exact Hfit | lia].
  - intros idx Hidx. set (t := Z.to_nat (idx - lo)).
    assert (Ht : t < max_batch_size) by lia.
    assert (Em : nth t masks [] = Gray.mask_row num_nodes idx).
    { unfold masks. rewrite Gray.masks_nth by assumption. f_equal. lia. }
    assert (Hin : In (nth t congs 0%Q, nth t masks []) (combine congs masks)).
    { rewrite <- combine_nth by (now symmetry). apply nth_In.
      rewrite length_combine. lia. }
    exists (nth t congs 0%Q), (nth t congs 0%Q), (nth t masks []).
    split; [|split; [exact Hin | apply Qle_refl]].
    rewrite <- Em. exact (Forall2_combine _ _ _ _ _ E Hin).
Qed.

(** The results of a scan over adjacent ranges, put end to end. *)
Lemma scan_searched (F : Z -> option (list Q * list vector)) (lo hi : Z -> Z)
    (count : nat) (xs : list Z) (rs : list (list Q * list vector)) (LO HI : Z) :
  (forall x r, In x xs -> F x = Some r -> searched (lo x) (hi x) count r) ->
  scan F xs = Some rs ->
  (forall x, In x xs -> (LO <= lo x)%Z /\ (hi x <= HI)%Z) ->
  (forall idx, (LO <= idx < HI)%Z -> exists x, In x xs /\ (lo x <= idx < hi x)%Z) ->
  length (concat (map snd rs)) = length (concat (map fst rs))
  /\ length (concat (map fst rs)) = length xs * count
  /\ Forall (evaluated LO HI) (combine (concat (map fst rs)) (concat (map snd rs)))
  /\ covers LO HI (combine (concat (map fst rs)) (concat (map snd rs))).
Proof.
  intros HF Hscan Hin Hcov. apply all_some_Forall2 in Hscan.
  assert (Hall : Forall (fun r => length (fst r) = length (snd r)) rs).
  { apply Forall_forall. intros r Hr.
    destruct (Forall2_In_r _ _ _ _ Hscan Hr) as (x & Hxin & Hx).
    destruct (HF x r Hxin Hx) as (_ & _ & L1 & L2). congruence. }
  split; [symmetry; now apply concat_lengths|].
  split.
  { rewrite (concat_uniform_length count).
    - now rewrite length_map, (Forall2_length Hscan).
    - apply Forall_forall. intros l Hl. apply in_map_iff in Hl.
      destruct Hl as (r & <- & Hr).
      destruct (Forall2_In_r _ _ _ _ Hscan Hr) as (x & Hxin & Hx).
      now destruct (HF x r Hxin Hx) as (_ & _ & L1 & _). }
  rewrite combine_concat by exact Hall. split.
  - apply Forall_forall. intros p Hp. apply in_concat in Hp.
    destruct Hp as (ps & Hps & Hp). apply in_map_iff in Hps.
    destruct Hps as (r & <- & Hr).
    destruct (Forall2_In_r _ _ _ _ Hscan Hr) as (x & Hx & HFx).
    destruct (HF x r Hx HFx) as (Hs & _). rewrite Forall_forall in Hs.
    destruct (Hin x Hx). apply evaluated_widen with (lo x) (hi x); auto.
  - intros idx Hidx. destruct (Hcov idx Hidx) as (x & Hx & Hr).
    destruct (Forall2_In_l _ _ _ _ Hscan Hx) as (r & Hrin & HFx).
    destruct (HF x r Hx HFx) as (_ & Hc & _).
    destruct (Hc idx Hr) as (c & c' & m' & Hv & Hp & Hle).
    exists c, c', m'. split; [exact Hv|]. split; [|exact Hle].
    apply in_concat. exists (pairs r). split; [|exact Hp].
    apply in_map_iff. now exists r.
Qed.

Lemma in_shifted_arange (count : nat) (f : Z -> Z) (x : Z) :
  In x (map f (arange count)) <-> exists b, (0 <= b < Z.of_nat count)%Z /\ x = f b.
Proof.
  unfold arange. rewrite map_map, in_map_iff. split.
  - intros (t & <- & Ht). apply in_seq in Ht. exists (Z.of_nat t). split; [lia | reflexivity].
  - intros (b & Hb & ->). exists (Z.to_nat b). split; [f_equal; lia | apply in_seq; lia].
Qed.

Lemma find_congested_cuts_iter_searched (num_batches_per_iteration : nat) i r :
  num_nodes <= 31 -> 0 < max_batch_size -> (0 <= i)%Z ->
  ((i + Z.of_nat num_batches_per_iteration) * Z.of_nat max_batch_size <= 2 ^ 31)%Z ->
  find_congested_cuts_iter num_batches_per_iteration adj_matrix traf_matrix num_nodes
                           top_k max_batch_size source_nodes dest_nodes i = Some r ->
  searched (i * Z.of_nat max_batch_size)
           ((i + Z.of_nat num_batches_per_iteration) * Z.of_nat max_batch_size)
           (rows_kept (num_batches_per_iteration * rows_kept max_batch_size)) r.
Proof.
  intros Hn HB Hi Hfit. unfold find_congested_cuts_iter.
  set (xs := map (fun b => int32 (b + i)) (arange num_batches_per_iteration)).
  assert (Hxs : forall x, In x xs <->
                  exists b, (0 <= b < Z.of_nat num_batches_per_iteration)%Z
                            /\ x = (b + i)%Z).
  { intros x. unfold xs. rewrite in_shifted_arange. split.
    - intros (b & Hb & ->). exists b. split; [exact Hb|]. apply int32_small. nia.
    - intros (b & Hb & ->). exists b. split; [exact Hb|]. symmetry.
      apply int32_small. nia. }
  destruct (scan _ xs) as [rs | ] eqn:E; [|discriminate].
  intros H. injection H as <-.
  destruct (scan_searched
              (batch_eval_sort adj_matrix traf_matrix num_nodes top_k max_batch_size
                               source_nodes dest_nodes)
              (fun j => (j * Z.of_nat max_batch_size)%Z)
              (fun j => (j * Z.of_nat max_batch_size + Z.of_nat max_batch_size)%Z)
              (rows_kept max_batch_size) xs rs
              (i * Z.of_nat max_batch_size)%Z
              ((i + Z.of_nat num_batches_per_iteration) * Z.of_nat max_batch_size)%Z)
    as (L1 & L2 & Hs & Hc).
  - intros x r Hx. apply Hxs in Hx. destruct Hx as (b & Hb & ->).
    apply batch_eval_sort_searched; [exact Hn | exact HB | nia | nia].
  - exact E.
  - intros x Hx. apply Hxs in Hx. destruct Hx as (b & Hb & ->). nia.
  - intros idx Hidx.
    assert (HB' : (0 < Z.of_nat max_batch_size)%Z) by lia.
    exists (idx / Z.of_nat max_batch_size)%Z.
    pose proof (Z.div_mod idx (Z.of_nat max_batch_size) ltac:(lia)) as Hdm.
    pose proof (Z.mod_pos_bound idx (Z.of_nat max_batch_size) HB') as Hmod.
    split; [|nia].
    apply Hxs. exists (idx / Z.of_nat max_batch_size - i)%Z.
    split; [nia | lia].
  - fold (top_rows top_k (concat (map fst rs)) (concat (map snd rs))).
    unfold xs in L2. rewrite length_map, arange_length in L2. rewrite <- L2.
    now apply top_rows_searched.
Qed.

Lemma congestion_of_some (mask : vector) :
  source_nodes ++ dest_nodes <> [] -> exists c, congestion_of mask = Some c.
Proof.
  intros Hne. unfold congestion_of, calculate_congestion, find_cutset_edges.
  destruct (source_nodes ++ dest_nodes); [contradiction|]. eexists. reflexivity.
Qed.

Lemma batch_eval_sort_some j :
  source_nodes ++ dest_nodes <> [] ->
  exists r, batch_eval_sort adj_matrix traf_matrix num_nodes top_k max_batch_size
                            source_nodes dest_nodes j = Some r.
Proof.
  intros Hne. unfold batch_eval_sort, calculate_congestion_batch.
  destruct (all_some_total congestion_of
              (Gray.generate_gray_code_masks num_nodes max_batch_size
                 (int32 (j * Z.of_nat max_batch_size))))
    as [congs E]; [intros m _; now apply congestion_of_some|].
  unfold congestion_of in E. rewrite E. eexists. reflexivity.
Qed.

Lemma find_congested_cuts_iter_some (num_batches_per_iteration : nat) i :
  source_nodes ++ dest_nodes <> [] ->
  exists r, find_congested_cuts_iter num_batches_per_iteration adj_matrix traf_matrix
              num_nodes top_k max_batch_size source_nodes dest_nodes i = Some r.
Proof.
  intros Hne. unfold find_congested_cuts_iter, scan.
  destruct (all_some_total
              (batch_eval_sort adj_matrix traf_matrix num_nodes top_k max_batch_size
                               source_nodes dest_nodes)
              (map (fun b => int32 (b + i)) (arange num_batches_per_iteration)))
    as [rs E]; [intros j _; now apply batch_eval_sort_some|].
  rewrite E. eexists. reflexivity.
Qed.

(** For at most 31 nodes, a non-empty edge list, at least one batch per
    iteration of at least one mask, and a range of numbers
    [start * b * s .. (start + num_iterations) * b * s - 1] inside the
    non-negative 32-bit integers ([b] batches per iteration of [s] masks),
    the search of one process returns, for [num_iterations] iterations, the
    same number of rows each: all the masks of the iteration when [top_k] is
    0, otherwise at most [top_k].  Every returned row is the Gray-code mask
    of a number of the range, together with the congestion
    [calculate_congestion] gives that mask, and partition2 is the complement
    of partition1.  No mask of the range has a congestion above all the
    returned ones: keeping the best rows per batch and then per iteration
    loses no maximum. *)
Theorem find_congested_cuts_exhaustive_keeps_max
    (start : Z) (num_iterations num_batches_per_iteration : nat) :
  num_nodes <= 31 -> 0 < max_batch_size -> 0 < num_batches_per_iteration ->
  (0 <= start)%Z ->
  ((start + Z.of_nat num_iterations) * Z.of_nat num_batches_per_iteration
   * Z.of_nat max_batch_size <= 2 ^ 31)%Z ->
  length source_nodes = length dest_nodes ->
  source_nodes <> [] ->
  exists congestions partition1 partition2,
    find_congested_cuts_exhaustive start num_iterations num_batches_per_iteration
      adj_matrix traf_matrix num_nodes top_k max_batch_size source_nodes dest_nodes
    = Some (congestions, partition1, partition2)
    /\ length partition1 = length congestions
    /\ partition2 = map (map (fun x => 1 - x)%Z) partition1
    /\ length congestions
       = num_iterations
         * rows_kept (num_batches_per_iteration * rows_kept max_batch_size)
    /\ let lo := (start * Z.of_nat num_batches_per_iteration * Z.of_nat max_batch_size)%Z in
       let hi := ((start + Z.of_nat num_iterations) * Z.of_nat num_batches_per_iteration
                  * Z.of_nat max_batch_size)%Z in
       Forall (evaluated lo hi) (combine congestions partition1)
       /\ forall idx, (lo <= idx < hi)%Z ->
            exists c c',
              calculate_congestion (Gray.mask_row num_nodes idx) adj_matrix traf_matrix
                                   source_nodes dest_nodes = Some c
              /\ In c' congestions /\ (c <= c')%Q.
Proof.
  intros Hn HB Hb Hstart Hfit _ Hsrc.
  assert (Hne : source_nodes ++ dest_nodes <> []).
  { intros E. apply app_eq_nil in E. destruct E as [E _]. contradiction. }
  unfold find_congested_cuts_exhaustive.
  set (b := num_batches_per_iteration) in *.
  set (xs := map (fun k => int32 (int32 (k + start) * Z.of_nat b)) (arange num_iterations)).
  assert (Hxs : forall x, In x xs <->
                  exists k, (0 <= k < Z.of_nat num_iterations)%Z
                            /\ x = ((k + start) * Z.of_nat b)%Z).
  { assert (Hk : forall k, (0 <= k < Z.of_nat num_iterations)%Z ->
                   int32 (int32 (k + start) * Z.of_nat b) = ((k + start) * Z.of_nat b)%Z).
    { intros k Hk.
      assert (H1 : ((k + start + 1) * Z.of_nat b * Z.of_nat max_batch_size
                    <= (start + Z.of_nat num_iterations) * Z.of_nat b
                       * Z.of_nat max_batch_size)%Z) by nia.
      assert (H2 : ((k + start + 1) <= (k + start + 1) * Z.of_nat b)%Z) by nia.
      assert (H3 : ((k + start + 1) * Z.of_nat b
                    <= (k + start + 1) * Z.of_nat b * Z.of_nat max_batch_size)%Z) by nia.
      rewrite (int32_small (k + start)) by lia. apply int32_small. nia. }
    intros x. unfold xs. rewrite in_shifted_arange. split.
    - intros (k & Hk' & ->). exists k. split; [exact Hk' | now apply Hk].
    - intros (k & Hk' & ->). exists k. split; [exact Hk' | symmetry; now apply Hk]. }
  destruct (all_some_total
              (find_congested_cuts_iter b adj_matrix traf_matrix num_nodes top_k
                 max_batch_size source_nodes dest_nodes) xs)
    as [rs E]; [intros i _; now apply find_congested_cuts_iter_some|].
  fold (scan (find_congested_cuts_iter b adj_matrix traf_matrix num_nodes top_k
                max_batch_size source_nodes dest_nodes) xs) in E.
  rewrite E. do 3 eexists. split; [reflexivity|].
  destruct (scan_searched
              (find_congested_cuts_iter b adj_matrix traf_matrix num_nodes top_k
                 max_batch_size source_nodes dest_nodes)
              (fun i => (i * Z.of_nat max_batch_size)%Z)
              (fun i => ((i + Z.of_nat b) * Z.of_nat max_batch_size)%Z)
              (rows_kept (b * rows_kept max_batch_size)) xs rs
              (start * Z.of_nat b * Z.of_nat max_batch_size)%Z
              ((start + Z.of_nat num_iterations) * Z.of_nat b * Z.of_nat max_batch_size)%Z)
    as (L1 & L2 & Hs & Hc).
  - intros x r Hx. apply Hxs in Hx. destruct Hx as (k & Hk & ->).
    apply find_congested_cuts_iter_searched; [exact Hn | exact HB | nia | nia].
  - exact E.
  - intros x Hx. apply Hxs in Hx. destruct Hx as (k & Hk & ->). nia.
  - intros idx Hidx.
    assert (HB' : (0 < Z.of_nat max_batch_size)%Z) by lia.
    assert (Hb' : (0 < Z.of_nat b)%Z) by lia.
    set (q := (idx / Z.of_nat max_batch_size)%Z).
    pose proof (Z.div_mod idx (Z.of_nat max_batch_size) ltac:(lia)) as Hdm.
    pose proof (Z.mod_pos_bound idx (Z.of_nat max_batch_size) HB') as Hmod.
    fold q in Hdm.
    pose proof (Z.div_mod q (Z.of_nat b) ltac:(lia)) as Hdm2.
    pose proof (Z.mod_pos_bound q (Z.of_nat b) Hb') as Hmod2.
    assert (Hq1 : (start * Z.of_nat b <= q)%Z) by nia.
    assert (Hq2 : (q < (start + Z.of_nat num_iterations) * Z.of_nat b)%Z) by nia.
    assert (Hq3 : (start <= q / Z.of_nat b < start + Z.of_nat num_iterations)%Z) by nia.
    exists (q / Z.of_nat b * Z.of_nat b)%Z. split; [|nia].
    apply Hxs. exists (q / Z.of_nat b - start)%Z.
    split; [lia | f_equal; lia].
  - split; [exact L1|]. split; [reflexivity|].
    split; [unfold xs in L2; now rewrite length_map, arange_length in L2|].
    split; [exact Hs|].
    intros idx Hidx. destruct (Hc idx Hidx) as (c & c' & m' & Hv & Hin & Hle).
    exists c, c'. split; [exact Hv|]. split; [|exact Hle].
    now apply in_combine_l in Hin.
Qed.

End Search.

(** The sixteen masks of the four-node ring, searched in two iterations of
    two batches of four masks, two rows kept each time. *)
Lemma find_congested_cuts_exhaustive_keeps_max_witness :
  exists congestions partition1 partition2,
    find_congested_cuts_exhaustive 0 2 2 ring_adjacency unit_traffic 4 2 4
                                   ring_sources ring_dests
    = Some (congestions, partition1, partition2)
    /\ length congestions = 4
    /\ forall idx, (0 <= idx < 16)%Z ->
         exists c c',
           calculate_congestion (Gray.mask_row 4 idx) ring_adjacency unit_traffic
                                ring_sources ring_dests = Some c
           /\ In c' congestions /\ (c <= c')%Q.
Proof.
  destruct (find_congested_cuts_exhaustive_keeps_max
              ring_adjacency unit_traffic 4 2 4 ring_sources ring_dests 0 2 2)
    as (c & p1 & p2 & H & _ & _ & L & _ & Hmax);
    [repeat constructor | repeat constructor | repeat constructor | discriminate
    | discriminate | reflexivity | discriminate | ].
  exists c, p1, p2. split; [exact H|]. split; [exact L | exact Hmax].
Defined.

End Exhaustive.

(** ** Further facts about the training utilities *)

Module TrainFacts.

Import TrainUtils.
Local Open Scope string_scope.

(** *** Parameter counts *)

(** [jax.tree_util.tree_leaves(t)]: the arrays at the leaves.  JAX lists the
    entries of a dictionary in the order of their keys; a sum over the
    leaves does not depend on the order. *)
Fixpoint tree_leaves (t : pytree) : list (list Q) :=
  match t with
  | Leaf a => [a]
  | Dict items =>
      (fix go (l : list (string * pytree)) : list (list Q) :=
         match l with
         | [] => []
         | (_, v) :: l' => (tree_leaves v ++ go l')%list
         end) items
  end.

(** [count_parameters(params)]. *)
Definition count_parameters (params : pytree) : nat :=
  list_sum (map (fun x => length x) (tree_leaves params)).

Lemma list_sum_lengths_app (a b : list (list Q)) :
  list_sum (map (fun x => length x) (a ++ b)%list)
  = (list_sum (map (fun x => length x) a) + list_sum (map (fun x => length x) b))%nat.
Proof. now rewrite map_app, list_sum_app. Qed.

Lemma count_parameters_zeros_like (t : pytree) :
  count_parameters (zeros_like t) = count_parameters t.
Proof.
  unfold count_parameters.
  induction t as [a | items IH] using pytree_rect'.
  - cbn. now rewrite length_map.
  - cbn [zeros_like tree_leaves].
    induction IH as [ | [k v] l Hv _ IHl]; [reflexivity|].
    cbn [snd] in Hv. rewrite !list_sum_lengths_app. now rewrite Hv, IHl.
Qed.

Lemma same_shape_same_count (a b : pytree) :
  zeros_like a = zeros_like b -> count_parameters a = count_parameters b.
Proof.
  intros H. rewrite <- (count_parameters_zeros_like a), H.
  apply count_parameters_zeros_like.
Qed.

Lemma zeros_length (a b : list Q) :
  map (fun _ => 0%Q) a = map (fun _ => 0%Q) b -> length a = length b.
Proof. intros H. apply (f_equal (@length Q)) in H. now rewrite !length_map in H. Qed.

Lemma zeros_combine (p u : list Q) :
  length u = length p ->
  map (fun _ => 0%Q) (map (fun pu => (fst pu + snd pu)%Q) (combine p u))
  = map (fun _ => 0%Q) p.
Proof.
  revert u. induction p as [ | x p IH]; intros [ | y u] H; try discriminate;
    [reflexivity|].
  cbn. f_equal. apply IH. now injection H.
Qed.

(** Updates of the structure and leaf sizes of the parameters are applied
    without error and give parameters of that structure again. *)
Lemma apply_updates_same_shape (p u : pytree) :
  zeros_like u = zeros_like p ->
  exists p', apply_updates p u = Some p' /\ zeros_like p' = zeros_like p.
Proof.
  revert u. induction p as [a | items IH] using pytree_rect'; intros u H.
  - destruct u as [b | ]; [|discriminate]. cbn in H. injection H as H.
    apply zeros_length in H. cbn. rewrite <- H, Nat.eqb_refl.
    eexists. split; [reflexivity|]. cbn. f_equal. now apply zeros_combine.
  - destruct u as [ | us]; [discriminate|]. cbn [zeros_like] in H. injection H as H.
    cbn [apply_updates].
    match goal with
    | |- exists p', option_map Dict ?x = Some p' /\ _ =>
        assert (E : exists r, x = Some r /\ zeros_like (Dict r) = zeros_like (Dict items))
    end.
    { clear - IH H. revert us H. induction IH as [ | [k v] l Hv _ IHl]; intros us H.
      - destruct us as [ | [k' u'] us]; [|discriminate]. exists []. now split.
      - destruct us as [ | [k' u'] us]; [discriminate|].
        injection H as Hk Hu Hrest. subst k'. cbn [snd] in Hv.
        destruct (Hv u' Hu) as (x & -> & Hx).
        destruct (IHl us Hrest) as (r & -> & Hr).
        rewrite String.eqb_refl. exists ((k, x) :: r). split; [reflexivity|].
        cbn [zeros_like] in Hr |- *. injection Hr as Hr. now rewrite Hx, Hr. }
    destruct E as (r & -> & Hr). exists (Dict r). now split.
Qed.

Section GradientSteps.

Context {ApplyFn OptState : Type}.

(** A gradient step whose optimizer returns updates of the structure and
    leaf sizes of the parameters (as every Optax transformation does for
    gradients of that structure) succeeds when there is no
    overwrite-with-gradient subtree and no keyword clashes with the ones
    [apply_gradients] sets itself; the new parameters have the structure and
    the leaf sizes of the old ones, hence [count_parameters] gives the same
    number before and after. *)
Theorem apply_gradients_keeps_shapes (s : TrainState ApplyFn OptState)
    (grads : pytree) (kwargs : list (@field ApplyFn OptState)) :
  contains OVERWRITE_WITH_GRADIENT grads = false ->
  zeros_like (fst (update (tx s) grads (opt_state s) (params s))) = zeros_like (params s) ->
  existsb given_by_apply_gradients kwargs = false ->
  exists s',
    apply_gradients s grads kwargs = Some s'
    /\ zeros_like (params s') = zeros_like (params s)
    /\ count_parameters (params s') = count_parameters (params s).
Proof.
  intros Hno Hshape Hkw. unfold apply_gradients. rewrite Hno.
  destruct (update (tx s) grads (opt_state s) (params s)) as [updates new_opt_state].
  cbn [fst] in Hshape.
  destruct (apply_updates_same_shape (params s) updates Hshape) as (p' & -> & Hp').
  rewrite Hkw. eexists. split; [reflexivity|].
  change (([step_field (int32 (step s + 1)); params_field p';
             opt_state_field new_opt_state] ++ kwargs)%list)
    with (step_field (int32 (step s + 1)) :: params_field p'
            :: opt_state_field new_opt_state :: kwargs).
  unfold replace. cbn [fold_left set_field].
  match goal with
  | |- context [fold_left set_field kwargs ?s0] =>
      destruct (replace_keeps s0 kwargs Hkw) as (_ & E & _); unfold replace in E;
        rewrite E
  end.
  cbn [params]. split; [exact Hp' | now apply same_shape_same_count].
Qed.

End GradientSteps.

Lemma apply_gradients_keeps_shapes_witness :
  exists s',
    apply_gradients
      {| step := 0; apply_fn := 0%nat; params := plain_params; tx := identity_tx;
         opt_state := tt |}
      plain_params [] = Some s'
    /\ count_parameters (params s') = count_parameters plain_params.
Proof.
  destruct (apply_gradients_keeps_shapes
              {| step := 0; apply_fn := 0%nat; params := plain_params; tx := identity_tx;
                 opt_state := tt |}
              plain_params [] eq_refl eq_refl eq_refl)
    as (s' & H & _ & Hc).
  exists s'. split; [exact H | exact Hc].
Defined.

(** *** Learning-rate schedules *)

Record ScheduleConfig : Type := {
  LR : Q;
  LR_SCHEDULE : string;
  NUM_UPDATES : Z;
  UPDATE_EPOCHS : Z;
  NUM_MINIBATCHES : Z;
  SCHEDULE_MULTIPLIER : Q;
  WARMUP_PEAK_MULTIPLIER : Q;
  WARMUP_STEPS_FRACTION : Q;
  WARMUP_END_FRACTION : Q
}.

(** [int(x)]: the integer part, rounding toward zero. *)
Definition int (x : Q) : Z := if Qle_bool 0 x then Qfloor x else Qceiling x.

Section Schedules.

Local Open Scope Q_scope.

(** [optax.warmup_cosine_decay_schedule(init_value, peak_value, warmup_steps,
    decay_steps, end_value)] applied to a count; a library function. *)
Variable warmup_cosine_decay_schedule : Q -> Q -> Z -> Q -> Q -> Z -> Q.

(** The inner [linear_schedule(count)] of [make_lr_schedule]; the quotients
    are those of the source when the divisors are not 0. *)
Definition linear_schedule (config : ScheduleConfig) (count : Z) : Q :=
  let frac :=
    1 - inject_Z (count / (NUM_MINIBATCHES config * UPDATE_EPOCHS config))
        / (inject_Z (NUM_UPDATES config) * SCHEDULE_MULTIPLIER config) in
  LR config * frac.

(** [make_lr_schedule(config)]: the closure [lr_schedule]. *)
Definition make_lr_schedule (config : ScheduleConfig) : Z -> outcome Q :=
  fun count =>
    let total_steps :=
      inject_Z (NUM_UPDATES config * UPDATE_EPOCHS config * NUM_MINIBATCHES config)
      * SCHEDULE_MULTIPLIER config in
    if String.eqb (LR_SCHEDULE config) "warmup_cosine" then
      Returns (warmup_cosine_decay_schedule
                 (LR config)
                 (LR config * WARMUP_PEAK_MULTIPLIER config)
                 (int (total_steps * WARMUP_STEPS_FRACTION config))
                 total_steps
                 (LR config * WARMUP_END_FRACTION config)
                 count)
    else if String.eqb (LR_SCHEDULE config) "linear" then
      Returns (linear_schedule config count)
    else if String.eqb (LR_SCHEDULE config) "constant" then
      Returns (LR config)
    else ValueError ("Invalid LR schedule " ++ LR_SCHEDULE config).

Lemma linear_schedule_order (config : ScheduleConfig) (c1 c2 : Z) :
  (0 < NUM_MINIBATCHES config * UPDATE_EPOCHS config)%Z ->
  0 < inject_Z (NUM_UPDATES config) * SCHEDULE_MULTIPLIER config ->
  0 <= LR config ->
  (c1 <= c2)%Z ->
  linear_schedule config c2 <= linear_schedule config c1.
Proof.
  intros Hm HD HLR Hc. unfold linear_schedule.
  set (D := inject_Z (NUM_UPDATES config) * SCHEDULE_MULTIPLIER config) in *.
  set (m := (NUM_MINIBATCHES config * UPDATE_EPOCHS config)%Z) in *.
  assert (Hq : inject_Z (c1 / m) <= inject_Z (c2 / m))
    by (rewrite <- Zle_Qle; now apply Z.div_le_mono).
  assert (Hx : inject_Z (c1 / m) / D <= inject_Z (c2 / m) / D).
  { unfold Qdiv. apply Qmult_le_compat_r; [exact Hq|].
    apply Qlt_le_weak. now apply Qinv_lt_0_compat. }
  set (x1 := inject_Z (c1 / m) / D) in *. set (x2 := inject_Z (c2 / m) / D) in *.
  setoid_replace (LR config * (1 - x2)) with (LR config * (1 - x1) - LR config * (x2 - x1))
    by ring.
  assert (H0 : 0 <= LR config * (x2 - x1)).
  { apply Qmult_le_0_compat; [exact HLR|].
    setoid_replace 0 with (x1 - x1) by ring.
    apply Qplus_le_compat; [exact Hx | apply Qle_refl]. }
  setoid_replace (LR config * (1 - x1)) with (LR config * (1 - x1) - 0) at 2 by ring.
  apply Qplus_le_compat; [apply Qle_refl | now apply Qopp_le_compat].
Qed.

Lemma linear_schedule_sign (config : ScheduleConfig) (count : Z) :
  0 < inject_Z (NUM_UPDATES config) * SCHEDULE_MULTIPLIER config ->
  0 < LR config ->
  linear_schedule config count < 0
  <-> inject_Z (NUM_UPDATES config) * SCHEDULE_MULTIPLIER config
      < inject_Z (count / (NUM_MINIBATCHES config * UPDATE_EPOCHS config)).
Proof.
  intros HD HLR. unfold linear_schedule.
  set (D := inject_Z (NUM_UPDATES config) * SCHEDULE_MULTIPLIER config) in *.
  set (q := inject_Z (count / (NUM_MINIBATCHES config * UPDATE_EPOCHS config))).
  assert (HDne : ~ D == 0) by (intros E; rewrite E in HD; now apply Qlt_irrefl in HD).
  assert (E : LR config * (1 - q / D) == (LR config / D) * (D - q)) by (field; exact HDne).
  rewrite E.
  assert (Hpos : 0 < LR config / D).
  { unfold Qdiv. apply Qmult_lt_0_compat; [exact HLR | now apply Qinv_lt_0_compat]. }
  split.
  - intros Hneg. apply Qnot_le_lt. intros Hle.
    apply (Qlt_not_le _ _ Hneg). apply Qmult_le_0_compat; [now apply Qlt_le_weak|].
    setoid_replace 0 with (q - q) by ring.
    apply Qplus_le_compat; [exact Hle | apply Qle_refl].
  - intros Hlt.
    setoid_replace (LR config / D * (D - q)) with (- (LR config / D * (q - D))) by ring.
    setoid_replace 0 with (- 0) by ring. apply Qopp_lt_compat.
    apply Qmult_lt_0_compat; [exact Hpos|].
    setoid_replace 0 with (D - D) by ring.
    apply Qplus_lt_l. exact Hlt.
Qed.

(** The "linear" schedule starts at [LR], never rises as the count grows
    and takes the same value through the [NUM_MINIBATCHES * UPDATE_EPOCHS]
    counts of one update; it is not held at 0: once more than
    [NUM_UPDATES * SCHEDULE_MULTIPLIER] updates are counted the rate is
    negative. *)
Theorem make_lr_schedule_linear (config : ScheduleConfig) :
  LR_SCHEDULE config = "linear" ->
  (0 < NUM_MINIBATCHES config * UPDATE_EPOCHS config)%Z ->
  0 < inject_Z (NUM_UPDATES config) * SCHEDULE_MULTIPLIER config ->
  0 < LR config ->
  exists rate : Z -> Q,
    (forall count, make_lr_schedule config count = Returns (rate count))
    /\ rate 0%Z == LR config
    /\ (forall c1 c2, (c1 <= c2)%Z -> rate c2 <= rate c1)
    /\ (forall c1 c2,
          (c1 / (NUM_MINIBATCHES config * UPDATE_EPOCHS config)
           = c2 / (NUM_MINIBATCHES config * UPDATE_EPOCHS config))%Z ->
          rate c1 = rate c2)
    /\ (forall count,
          rate count < 0
          <-> inject_Z (NUM_UPDATES config) * SCHEDULE_MULTIPLIER config
              < inject_Z (count / (NUM_MINIBATCHES config * UPDATE_EPOCHS config))).
Proof.
  intros Hname Hm HD HLR. exists (linear_schedule config).
  split; [intros count; unfold make_lr_schedule; now rewrite Hname|].
  split.
  { assert (HDne : ~ inject_Z (NUM_UPDATES config) * SCHEDULE_MULTIPLIER config == 0)
      by (intros E; rewrite E in HD; now apply Qlt_irrefl in HD).
    unfold linear_schedule. rewrite Z.div_0_l by lia. field.
    split; intros E; apply HDne; rewrite E; ring. }
  split; [intros c1 c2 Hc; apply linear_schedule_order; auto; now apply Qlt_le_weak|].
  split; [intros c1 c2 Hc; unfold linear_schedule; now rewrite Hc|].
  intros count. now apply linear_schedule_sign.
Qed.

End Schedules.

(** Ten updates of four minibatches, two epochs each. *)
Definition demo_schedule : ScheduleConfig :=
  {| LR := 1 # 1000; LR_SCHEDULE := "linear"; NUM_UPDATES := 10; UPDATE_EPOCHS := 2;
     NUM_MINIBATCHES := 4; SCHEDULE_MULTIPLIER := 1; WARMUP_PEAK_MULTIPLIER := 1;
     WARMUP_STEPS_FRACTION := 0; WARMUP_END_FRACTION := 1 |}.

Lemma make_lr_schedule_linear_witness :
  exists rate : Z -> Q,
    (forall count, make_lr_schedule (fun _ _ _ _ _ _ => 0%Q) demo_schedule count
                   = Returns (rate count))
    /\ (rate 88%Z < 0)%Q.
Proof.
  destruct (make_lr_schedule_linear (fun _ _ _ _ _ _ => 0%Q) demo_schedule
              eq_refl eq_refl eq_refl eq_refl)
    as (rate & H & _ & _ & _ & Hneg).
  exists rate. split; [exact H|]. apply Hneg. reflexivity.
Defined.

(** *** The mode of a masked distribution *)

Lemma argmax_from_spec (row pre : list Q) (best_at : nat) (best : Q) :
  (best_at < length pre)%nat -> nth best_at pre 0%Q = best ->
  (forall j, (j < length pre)%nat -> (nth j pre 0 <= best)%Q) ->
  let r := argmax_from best_at best (length pre) row in
  (r < length (pre ++ row)%list)%nat
  /\ forall j, (j < length (pre ++ row)%list)%nat ->
               (nth j (pre ++ row)%list 0 <= nth r (pre ++ row)%list 0)%Q.
Proof.
  revert pre best_at best. induction row as [ | x rest IH]; intros pre best_at best Hb Eb Hmax.
  - cbn [argmax_from]. rewrite app_nil_r. split; [exact Hb|].
    intros j Hj. rewrite Eb. now apply Hmax.
  - cbn [argmax_from].
    assert (Eapp : (pre ++ x :: rest = (pre ++ [x]) ++ rest)%list)
      by (now rewrite <- app_assoc).
    assert (Elen : length (pre ++ [x])%list = S (length pre))
      by (rewrite length_app; cbn; lia).
    rewrite Eapp, <- Elen.
    destruct (Qle_bool x best) eqn:Ex.
    + apply IH.
      * rewrite Elen. lia.
      * now rewrite app_nth1.
      * intros j Hj. rewrite Elen in Hj.
        destruct (Nat.eq_dec j (length pre)) as [-> | Hne].
        -- rewrite app_nth2, Nat.sub_diag by lia. now apply Qle_bool_iff.
        -- rewrite app_nth1 by lia. apply Hmax. lia.
    + assert (Hlt : (best < x)%Q).
      { apply Qnot_le_lt. intros Hle. apply Qle_bool_iff in Hle. congruence. }
      apply IH.
      * rewrite Elen. lia.
      * now rewrite app_nth2, Nat.sub_diag by lia.
      * intros j Hj. rewrite Elen in Hj.
        destruct (Nat.eq_dec j (length pre)) as [-> | Hne].
        -- rewrite app_nth2, Nat.sub_diag by lia. apply Qle_refl.
        -- rewrite app_nth1 by lia. apply Qle_trans with best;
             [apply Hmax; lia | now apply Qlt_le_weak].
Qed.

(** [argmax] points at a largest entry of a row that has one. *)
Lemma argmax_spec (row : list Q) :
  row <> [] ->
  (argmax row < length row)%nat
  /\ forall j, (j < length row)%nat -> (nth j row 0 <= nth (argmax row) row 0)%Q.
Proof.
  destruct row as [ | x rest]; [contradiction|]. intros _.
  apply (argmax_from_spec rest [x] 0 x); [cbn; lia | reflexivity|].
  intros [ | j] Hj; [apply Qle_refl | cbn in Hj; lia].
Qed.

(** Every row of the mask allows an action, and the entries of the masked
    array [lg] at the allowed actions lie above the value written over the
    others.  In [select_action] the masked array is [pi[k]._logits], the
    logits of a head as distrax keeps them, shifted so that the
    probabilities of a row sum to 1. *)
Definition maskable (mask : list (list bool)) (lg : list (list Q)) : Prop :=
  Forall2 (fun mr lr =>
             length mr = length lr
             /\ (exists a, nth a mr false = true)
             /\ forall a, nth a mr false = true -> (-100000000 < nth a lr 0)%Q)
          mask lg.

(** One allowed action per row. *)
Definition respects (mask : list (list bool)) (act : list nat) : Prop :=
  Forall2 (fun mr a => nth a mr false = true) mask act.

Lemma masked_row_nth (mr : list bool) (lr : list Q) (j : nat) :
  length mr = length lr -> (j < length mr)%nat ->
  nth j (map (fun mx : bool * Q => if fst mx then snd mx else (-100000000)%Q)
             (combine mr lr)) 0%Q
  = if nth j mr false then nth j lr 0%Q else (-100000000)%Q.
Proof.
  intros Hlen Hj.
  rewrite nth_map_lt with (d' := (false, 0%Q)) by (rewrite length_combine; lia).
  now rewrite combine_nth by exact Hlen.
Qed.

Lemma mask_true_lt (mr : list bool) (a : nat) :
  nth a mr false = true -> (a < length mr)%nat.
Proof.
  intros H. destruct (Nat.lt_ge_cases a (length mr)) as [Hlt | Hge]; [exact Hlt|].
  rewrite nth_overflow in H by exact Hge. discriminate.
Qed.

(** The mode of [distrax.Categorical(logits=jnp.where(mask, lg, -1e8))], as
    the VONE branch of [select_action] takes it three times, is an allowed
    action in every row, for whatever array [lg] is masked, whenever every
    row of the mask allows an action and the entries of [lg] at the allowed
    actions are above -1e8.  The hypothesis speaks of the array that is
    masked; a mask that allows nothing in a row, or an allowed entry at or
    below -1e8, is not covered. *)
Theorem masked_mode_respects (mask : list (list bool)) (lg : list (list Q)) :
  maskable mask lg -> respects mask (mode {| logits := where_mask mask lg |}).
Proof.
  unfold maskable, respects, mode, where_mask. cbn [logits].
  induction 1 as [ | mr lr mask lg (Hlen & (a & Ha) & Habove) _ IH]; [constructor|].
  cbn [combine map fst snd]. constructor; [|exact IH].
  set (row := map (fun mx : bool * Q => if fst mx then snd mx else (-100000000)%Q)
                  (combine mr lr)).
  assert (Hrowlen : length row = length mr)
    by (unfold row; rewrite length_map, length_combine; lia).
  pose proof (mask_true_lt mr a Ha) as Halt.
  destruct (argmax_spec row) as [Hlt Hmax].
  { intros E. rewrite E in Hrowlen. cbn in Hrowlen. lia. }
  specialize (Hmax a ltac:(lia)). unfold row in Hmax at 1 3.
  rewrite !masked_row_nth in Hmax by (try exact Hlen; lia).
  rewrite Ha in Hmax. fold row in Hmax.
  destruct (nth (argmax row) mr false) eqn:E; [reflexivity|].
  exfalso. apply (Qlt_not_le _ _ (Habove a Ha)). exact Hmax.
Qed.

(** A row that prefers position 0, under a mask that allows positions 1
    and 2 only. *)
Lemma masked_mode_respects_witness :
  mode {| logits := where_mask [[false; true; true]] [[0; -3; -2]]%Q |} = [2%nat]
  /\ respects [[false; true; true]]
              (mode {| logits := where_mask [[false; true; true]] [[0; -3; -2]]%Q |}).
Proof.
  split; [reflexivity|].
  apply masked_mode_respects. repeat constructor.
  - exists 1%nat. reflexivity.
  - intros [ | [ | [ | [ | a]]]] Ha; try discriminate Ha; reflexivity.
Defined.

(** *** Merging leading dimensions *)













End TrainFacts.

(** ** The network of [init_network] *)

Module NetworkInit.

Import TrainUtils.
Local Open Scope string_scope.

(** A function that returns, raises [ValueError] or raises
    [ZeroDivisionError]. *)
Inductive result (A : Type) : Type :=
| Return (a : A)
| RaiseValueError (msg : string)
| RaiseZeroDivisionError.
Arguments Return {A}.
Arguments RaiseValueError {A}.
Arguments RaiseZeroDivisionError {A}.

(** [math.ceil(a / b)] for integers [a] and [b]. *)
Definition ceil_div (a b : Z) : option Z :=
  if (b =? 0)%Z then None else Some (Qceiling (inject_Z a / inject_Z b)).

Section InitNetwork.

(** The environment, its spaces and the network classes come from modules
    outside this slice. *)
Variables Env EnvParams InnerState LogData ConfigDict Activation : Type.
Variable make_vone_env : ConfigDict -> Env * EnvParams.
Variable make_rsa_env : ConfigDict -> Env * EnvParams.
(** [[space.n for space in env.action_space(env_params).spaces]],
    [env.action_space(env_params).n] and
    [env.observation_space(env_params).n]. *)
Variable action_space_sizes : LogWrapper Env -> EnvParams -> list nat.
Variable action_space_n : LogWrapper Env -> EnvParams -> nat.
Variable observation_space_n : LogWrapper Env -> EnvParams -> nat.
Variables link_resources aggregate_slots : EnvParams -> Z.

(** The flags [init_network] reads, next to the ones of [define_env]. *)
Record NetworkFlags : Type := {
  flags : FlagValues ConfigDict;
  ACTIVATION : Activation;
  NUM_LAYERS : Z;
  NUM_UNITS : Z;
  LAYER_NORM : bool;
  USE_GNN : bool;
  gnn_latent : Z;
  message_passing_steps : Z;
  output_nodes_size : Z;
  output_globals_size : Z;
  gnn_mlp_layers : Z;
  normalize_by_link_length : bool
}.

Inductive network : Type :=
| ActorCriticMLP (action_dim : list nat) (activation : Activation)
    (num_layers num_units : Z) (layer_norm : bool)
| ActorCriticGNN (activation : Activation)
    (num_layers num_units gnn_latent message_passing_steps output_edges_size
     output_nodes_size output_globals_size gnn_mlp_layers : Z)
    (normalise_by_link_length mlp_layer_norm vmap : bool).

(** The example input of the network: a tuple with one zero vector, or the
    pair of environment state and parameters. *)
Inductive init_x : Type :=
| Zeros (n : nat)
| StateAndParams (s : InnerState) (p : EnvParams).

(** [init_network(config, env, env_state, env_params)]. *)
Definition init_network (config : NetworkFlags) (env : LogWrapper Env)
    (env_state : LogEnvState InnerState LogData) (env_params : EnvParams)
  : result (network * init_x) :=
  let env_type := env_type _ (flags config) in
  if String.eqb (lower env_type) "vone" then
    let network :=
      ActorCriticMLP (action_space_sizes env env_params) (ACTIVATION config)
                     (NUM_LAYERS config) (NUM_UNITS config) (LAYER_NORM config) in
    let init_x := Zeros (observation_space_n env env_params) in
    Return (network, init_x)
  else if existsb (String.eqb (lower env_type)) rsa_family then
    if USE_GNN config then
      match ceil_div (link_resources env_params) (aggregate_slots env_params) with
      | None => RaiseZeroDivisionError
      | Some output_edges_size =>
          let network :=
            ActorCriticGNN (ACTIVATION config) (NUM_LAYERS config) (NUM_UNITS config)
                           (gnn_latent config) (message_passing_steps config)
                           output_edges_size
                           (output_nodes_size config) (output_globals_size config)
                           (gnn_mlp_layers config) (normalize_by_link_length config)
                           (LAYER_NORM config) false in
          let init_x := StateAndParams (TrainUtils.env_state _ _ env_state) env_params in
          Return (network, init_x)
      end
    else
      let network :=
        ActorCriticMLP [action_space_n env env_params] (ACTIVATION config)
                       (NUM_LAYERS config) (NUM_UNITS config) (LAYER_NORM config) in
      let init_x := Zeros (observation_space_n env env_params) in
      Return (network, init_x)
  else RaiseValueError ("Invalid environment type " ++ env_type).

Lemma ceil_div_bounds (a b e : Z) :
  (0 < b)%Z -> ceil_div a b = Some e -> ((e - 1) * b < a <= e * b)%Z.
Proof.
  intros Hb H. unfold ceil_div in H.
  destruct (Z.eqb_spec b 0) as [E | _]; [lia|]. injection H as <-.
  assert (Hq : (0 < inject_Z b)%Q) by (rewrite (Zlt_Qlt 0 b) in Hb; exact Hb).
  set (x := (inject_Z a / inject_Z b)%Q).
  assert (Ex : (x * inject_Z b == inject_Z a)%Q).
  { unfold x. field. intros E. rewrite E in Hq. now apply Qlt_irrefl in Hq. }
  pose proof (Qle_ceiling x) as Hup. pose proof (Qceiling_lt x) as Hlow.
  split.
  - rewrite Zlt_Qlt, inject_Z_mult, <- Ex.
    now apply Qmult_lt_compat_r.
  - rewrite Zle_Qle, inject_Z_mult, <- Ex.
    apply Qmult_le_compat_r; [exact Hup | now apply Qlt_le_weak].
Qed.

(** [init_network] refuses exactly the environment types that [define_env]
    refuses, with the same message, so it never raises [ValueError] for a
    configuration whose environment was built.  The graph network is built
    only for the RSA family with [USE_GNN]; its number of output edges is
    the least number of groups of [aggregate_slots] slots that cover
    [link_resources], and a zero [aggregate_slots] raises
    [ZeroDivisionError]. *)
Theorem init_network_accepts_defined_env (config : NetworkFlags) (env : LogWrapper Env)
    (env_state : LogEnvState InnerState LogData) (env_params : EnvParams) :
  (forall msg,
      init_network config env env_state env_params = RaiseValueError msg
      <-> define_env Env EnvParams ConfigDict make_vone_env make_rsa_env (flags config)
          = ValueError msg)
  /\ (init_network config env env_state env_params = RaiseZeroDivisionError
      <-> lower (env_type _ (flags config)) <> "vone"
          /\ In (lower (env_type _ (flags config))) rsa_family
          /\ USE_GNN config = true /\ aggregate_slots env_params = 0%Z)
  /\ (forall a nl nu gl mp output_edges_size on og gm nb ln vm x,
        init_network config env env_state env_params
        = Return (ActorCriticGNN a nl nu gl mp output_edges_size on og gm nb ln vm, x) ->
        USE_GNN config = true
        /\ x = StateAndParams (TrainUtils.env_state _ _ env_state) env_params
        /\ ((0 < aggregate_slots env_params)%Z ->
            ((output_edges_size - 1) * aggregate_slots env_params
             < link_resources env_params
             <= output_edges_size * aggregate_slots env_params)%Z)).
Proof.
  unfold init_network, define_env.
  destruct (String.eqb (lower (env_type _ (flags config))) "vone") eqn:Ev.
  { destruct (make_vone_env _) as [e p].
    split; [split; discriminate|]. split; [|discriminate].
    apply String.eqb_eq in Ev. split; [discriminate | tauto]. }
  apply String.eqb_neq in Ev.
  destruct (existsb (String.eqb (lower (env_type _ (flags config)))) rsa_family) eqn:Er.
  - apply rsa_family_check in Er. destruct (make_rsa_env _) as [e p].
    destruct (USE_GNN config) eqn:Eg.
    + destruct (ceil_div (link_resources env_params) (aggregate_slots env_params))
        as [e' | ] eqn:Ec.
      * split; [split; discriminate|]. split.
        -- split; [discriminate|]. intros (_ & _ & _ & E0).
           unfold ceil_div in Ec. rewrite E0 in Ec. discriminate.
        -- intros a nl nu gl mp oes on og gm nb ln vm x H. injection H as <- <- <- <- <- <-.
           subst. split; [reflexivity|]. split; [reflexivity|].
           intros Hpos. now apply ceil_div_bounds.
      * split; [split; discriminate|]. split; [|discriminate].
        split; [|reflexivity]. intros _. repeat split; auto.
        unfold ceil_div in Ec. destruct (Z.eqb_spec (aggregate_slots env_params) 0);
          [assumption | discriminate].
    + split; [split; discriminate|]. split; [|discriminate].
      split; [discriminate|]. intros (_ & _ & H & _). discriminate.
  - split; [split; intros H; injection H as <-; reflexivity|].
    split; [|discriminate]. split; [discriminate|].
    intros (_ & Hin & _). apply rsa_family_check in Hin. congruence.
Qed.

End InitNetwork.

End NetworkInit.

(** ** The plan of the exhaustive search in [main_jax] *)

Module SearchPlan.

Local Open Scope Z_scope.

Record plan : Type := {
  batch_size : Z;
  batches_per_process : Z;
  iterations_per_process : Z;
  batches_per_iteration : Z;
  starts : list Z
}.

(** The sizes [main_jax] computes under [FLAGS.CUTSET_EXHAUSTIVE].  The
    quotients are exact here; the floating-point ones of the source agree
    with them for the graph sizes that 32-bit masks allow.  A divisor equal
    to 0 raises in the source and is not covered. *)
Definition main_jax_plan (num_nodes : nat) (NUM_ENVS CUTSET_BATCH_SIZE CUTSET_ITERATIONS : Z)
  : plan :=
  let total_combinations := 2 ^ Z.of_nat num_nodes in
  let parallel_processes := NUM_ENVS in
  let batch_size := Z.min CUTSET_BATCH_SIZE total_combinations in
  let batches_per_process :=
    Qceiling (inject_Z total_combinations / inject_Z parallel_processes
              / inject_Z batch_size) in
  let iterations_per_process := Z.min CUTSET_ITERATIONS batches_per_process in
  let batches_per_iteration :=
    Qceiling (inject_Z total_combinations / inject_Z parallel_processes
              / inject_Z iterations_per_process / inject_Z batch_size) in
  let starts :=
    map (fun p => p * iterations_per_process * batch_size)
        (arange (Z.to_nat parallel_processes)) in
  {| batch_size := batch_size;
     batches_per_process := batches_per_process;
     iterations_per_process := iterations_per_process;
     batches_per_iteration := batches_per_iteration;
     starts := starts |}.

Lemma ceiling_quotient (t a b : Z) :
  0 < a -> 0 < b ->
  t <= Qceiling (inject_Z t / inject_Z 1 / inject_Z a / inject_Z b) * a * b.
Proof.
  intros Ha Hb.
  assert (Hqa : (0 < inject_Z a)%Q) by (rewrite (Zlt_Qlt 0 a) in Ha; exact Ha).
  assert (Hqb : (0 < inject_Z b)%Q) by (rewrite (Zlt_Qlt 0 b) in Hb; exact Hb).
  assert (Hna : ~ (inject_Z a == 0)%Q)
    by (intros E; rewrite E in Hqa; now apply Qlt_irrefl in Hqa).
  assert (Hnb : ~ (inject_Z b == 0)%Q)
    by (intros E; rewrite E in Hqb; now apply Qlt_irrefl in Hqb).
  set (x := (inject_Z t / inject_Z 1 / inject_Z a / inject_Z b)%Q).
  assert (Ex : (x * inject_Z a * inject_Z b == inject_Z t)%Q)
    by (unfold x; field; split; assumption).
  rewrite Zle_Qle, !inject_Z_mult, <- Ex.
  apply Qmult_le_compat_r; [|now apply Qlt_le_weak].
  apply Qmult_le_compat_r; [apply Qle_ceiling | now apply Qlt_le_weak].
Qed.

Lemma ceiling_positive (x : Q) : (0 < x)%Q -> 0 < Qceiling x.
Proof.
  intros Hx. pose proof (Qle_ceiling x) as H.
  assert (H0 : (0 < inject_Z (Qceiling x))%Q) by (eapply Qlt_le_trans; eauto).
  now rewrite <- (Zlt_Qlt 0) in H0.
Qed.

(** With one process and positive batch size and iteration count, the plan
    starts at 0 and its iterations, batches and batch size multiply to at
    least [2 ^ num_nodes]: the range that [find_congested_cuts_exhaustive]
    scans holds the number of every partition mask. *)
Theorem main_jax_plan_covers (num_nodes : nat) (CUTSET_BATCH_SIZE CUTSET_ITERATIONS : Z) :
  1 <= CUTSET_BATCH_SIZE -> 1 <= CUTSET_ITERATIONS ->
  let p := main_jax_plan num_nodes 1 CUTSET_BATCH_SIZE CUTSET_ITERATIONS in
  starts p = [0]
  /\ 1 <= batch_size p <= CUTSET_BATCH_SIZE
  /\ 1 <= iterations_per_process p <= CUTSET_ITERATIONS
  /\ 1 <= batches_per_iteration p
  /\ forall idx, 0 <= idx < 2 ^ Z.of_nat num_nodes ->
       0 * batches_per_iteration p * batch_size p <= idx
       < (0 + iterations_per_process p) * batches_per_iteration p * batch_size p.
Proof.
  intros HB HI p.
  assert (HT : 1 <= 2 ^ Z.of_nat num_nodes)
    by (pose proof (Z.pow_pos_nonneg 2 (Z.of_nat num_nodes)); lia).
  set (T := 2 ^ Z.of_nat num_nodes) in *.
  set (B := Z.min CUTSET_BATCH_SIZE T).
  assert (HB1 : 1 <= B <= CUTSET_BATCH_SIZE) by (unfold B; lia).
  set (bpp := Qceiling (inject_Z T / inject_Z 1 / inject_Z B)).
  assert (Hbpp : 0 < bpp).
  { apply ceiling_positive. unfold Qdiv.
    repeat apply Qmult_lt_0_compat; try apply Qinv_lt_0_compat;
      try reflexivity; rewrite <- (Zlt_Qlt 0); lia. }
  set (ipp := Z.min CUTSET_ITERATIONS bpp).
  assert (Hipp : 1 <= ipp <= CUTSET_ITERATIONS) by (unfold ipp; lia).
  set (bpi := Qceiling (inject_Z T / inject_Z 1 / inject_Z ipp / inject_Z B)).
  assert (Hcover : T <= bpi * ipp * B) by (apply ceiling_quotient; lia).
  assert (Hbpi : 1 <= bpi).
  { destruct (Z.le_gt_cases bpi 0) as [Hle | Hgt]; [|lia]. nia. }
  change (starts p) with (map (fun q => q * ipp * B) (arange (Z.to_nat 1))).
  change (batch_size p) with B. change (iterations_per_process p) with ipp.
  change (batches_per_iteration p) with bpi.
  split; [reflexivity|]. split; [exact HB1|]. split; [exact Hipp|].
  split; [exact Hbpi|]. intros idx Hidx. nia.
Qed.

Lemma main_jax_plan_covers_witness :
  starts (main_jax_plan 4 1 4 2) = [0]
  /\ iterations_per_process (main_jax_plan 4 1 4 2) = 2
  /\ batches_per_iteration (main_jax_plan 4 1 4 2) = 2
  /\ 0 * batches_per_iteration (main_jax_plan 4 1 4 2) * batch_size (main_jax_plan 4 1 4 2)
     <= 15
     < (0 + iterations_per_process (main_jax_plan 4 1 4 2))
       * batches_per_iteration (main_jax_plan 4 1 4 2) * batch_size (main_jax_plan 4 1 4 2).
Proof.
  destruct (main_jax_plan_covers 4 4 2 ltac:(lia) ltac:(lia)) as (Hs & _ & _ & _ & Hc).
  split; [exact Hs|]. split; [reflexivity|]. split; [reflexivity|].
  apply (Hc 15). split; [lia | reflexivity].
Defined.

End SearchPlan.

(** ** Partitions that the connectivity gate rejects *)

Module GateFacts.

Import Cutsets CutsetFacts.
Local Open Scope nat_scope.

Lemma gate_spec_isolated n (adjacency : matrix) (p : vector) j :
  j < n -> in_partition p j = true ->
  (forall i, i < n -> in_partition p i = true -> mget adjacency i j = 0%Z) ->
  gate_spec n adjacency p = false.
Proof.
  intros Hj Hin Hiso. unfold gate_spec.
  destruct (forallb _ (seq 0 n)) eqn:E; [|reflexivity].
  rewrite forallb_forall in E. specialize (E j ltac:(apply in_seq; lia)).
  rewrite Hin in E. cbn [implb] in E. apply existsb_exists in E.
  destruct E as (i & Hi & H). apply in_seq in Hi.
  apply andb_true_iff in H. destruct H as [Hpi Hadj].
  rewrite (Hiso i) in Hadj by (try assumption; lia). discriminate.
Qed.

(** On well-formed input, a node without a neighbour on its own side of the
    partition makes [calculate_congestion] return 0, whatever the traffic
    and the cut: in particular a partition that isolates a single node (one
    without self-loop) is never given a congestion. *)
Theorem calculate_congestion_isolated_node (partition_mask : vector) (adjacency : matrix)
    (traffic_matrix : list (list Q)) (source_nodes dest_nodes : list nat) (j : nat) :
  well_formed partition_mask adjacency source_nodes dest_nodes = true ->
  j < length adjacency ->
  (forall i, i < length adjacency -> vget partition_mask i = vget partition_mask j ->
             mget adjacency i j = 0%Z) ->
  exists q,
    calculate_congestion partition_mask adjacency traffic_matrix source_nodes dest_nodes
    = Some q /\ q == 0.
Proof.
  intros wf Hj Hiso.
  destruct (wf_parts _ _ _ _ wf) as (Hbin & Hok & _ & _).
  pose proof (complement_binary _ _ Hbin) as Hbin2.
  assert (Hl : length partition_mask = length adjacency).
  { unfold binary_mask in Hbin. apply andb_true_iff in Hbin. now apply Nat.eqb_eq. }
  rewrite calculate_congestion_score. unfold score.
  rewrite (find_cutset_edges_spec _ adjacency) by exact wf. cbv zeta.
  eexists. split; [reflexivity|].
  unfold gate_code. rewrite !gate_code_spec.
  - assert (Hgate : gate_spec (length adjacency) adjacency partition_mask
                    && gate_spec (length adjacency) adjacency
                         (map (fun x => (1 - x)%Z) partition_mask) = false).
    { destruct (binary_mask_get _ _ j Hbin Hj) as [E0 | E1].
      - apply andb_false_iff. right. apply gate_spec_isolated with j; [exact Hj | | ].
        + unfold in_partition. rewrite (complement_get (length adjacency)), E0
            by assumption. reflexivity.
        + intros i Hi Hin. apply Hiso; [exact Hi|]. rewrite E0.
          unfold in_partition in Hin.
          rewrite (complement_get (length adjacency)) in Hin by assumption.
          destruct (binary_mask_get _ _ i Hbin Hi) as [Ei | Ei]; [exact Ei|].
          rewrite Ei in Hin. discriminate.
      - apply andb_false_iff. left. apply gate_spec_isolated with j; [exact Hj | | ].
        + unfold in_partition. now rewrite E1.
        + intros i Hi Hin. apply Hiso; [exact Hi|]. rewrite E1.
          unfold in_partition in Hin.
          destruct (binary_mask_get _ _ i Hbin Hi) as [Ei | Ei]; [|exact Ei].
          rewrite Ei in Hin. discriminate. }
    rewrite Hgate. ring.
  - exact Hbin2.
  - intros i k. now apply adjacency_ok_nonneg.
  - intros i k Hi Hk Ei Ek. apply cut_matrix_same_side; try assumption.
    rewrite (complement_get (length adjacency)) in Ei, Ek by assumption.
    unfold in_partition. replace (vget partition_mask i) with 0%Z by lia.
    now replace (vget partition_mask k) with 0%Z by lia.
  - exact Hbin.
  - intros i k. now apply adjacency_ok_nonneg.
  - intros i k Hi Hk Ei Ek. apply cut_matrix_same_side; try assumption.
    unfold in_partition. now rewrite Ei, Ek.
Qed.

(** Node 0 of the ring cut off on its own. *)
Lemma calculate_congestion_isolated_node_witness :
  exists q,
    calculate_congestion [1; 0; 0; 0]%Z ring_adjacency unit_traffic ring_sources ring_dests
    = Some q /\ q == 0.
Proof.
  apply (calculate_congestion_isolated_node
           [1; 0; 0; 0]%Z ring_adjacency unit_traffic ring_sources ring_dests 0 eq_refl).
  - repeat constructor.
  - intros [ | [ | [ | [ | i]]]] Hi E; try reflexivity; try discriminate E.
    cbn in Hi. lia.
Defined.

End GateFacts.

(** ** The traffic matrix *)

Module TrafficMatrix.

Import Cutsets CutsetFacts.
Local Open Scope nat_scope.

Abbreviation qmatrix := (list (list Q)).

Definition qget (m : qmatrix) (i j : nat) : Q := nth j (nth i m []) 0%Q.

(** [jax.lax.dynamic_update_slice(traffic_matrix, [[v]], (s, d))], the start
    indices clamped as in [dynamic_update_cell]. *)
Definition dynamic_update_slice (m : qmatrix) (v : Q) (s d : nat) : qmatrix :=
  let s' := Nat.min s (length m - 1) in
  let row := nth s' m [] in
  set_nth m s' (set_nth row (Nat.min d (length row - 1)) v).

Definition qsquare (n : nat) (m : qmatrix) : Prop :=
  length m = n /\ forall row, In row m -> length row = n.

Section Traffic.

(** [get_paths_se(params, [s, d])[0]]: the spectral efficiency of the first
    path from [s] to [d], computed outside this slice. *)
Variable paths_se : nat -> nat -> Q.

(** The value written at cell [(s, d)]. *)
Definition demand (s d : nat) : Q :=
  if negb (Nat.eqb s d) then (1 / paths_se s d)%Q else 0%Q.

(** [get_weighted_traffic_matrix(graph, params)] for a graph of [n_nodes]
    nodes; the two loops are folds over [range(n_nodes)]. *)
Definition get_weighted_traffic_matrix (n_nodes : nat) : qmatrix :=
  fold_left
    (fun traffic_matrix s =>
       fold_left
         (fun traffic_matrix d =>
            if negb (Nat.eqb s d)
            then dynamic_update_slice traffic_matrix (1 / paths_se s d)%Q s d
            else dynamic_update_slice traffic_matrix 0%Q s d)
         (seq 0 n_nodes) traffic_matrix)
    (seq 0 n_nodes) (mat_init n_nodes (fun _ _ => 0%Q)).

Lemma update_slice_cell n (m : qmatrix) (v : Q) s d :
  qsquare n m -> s < n -> d < n ->
  qsquare n (dynamic_update_slice m v s d)
  /\ forall i j, qget (dynamic_update_slice m v s d) i j
                 = if Nat.eqb i s && Nat.eqb j d then v else qget m i j.
Proof.
  intros [Hl Hr] Hs Hd.
  assert (Hrow : length (nth s m []) = n) by (apply Hr, nth_In; lia).
  assert (E : dynamic_update_slice m v s d = set_nth m s (set_nth (nth s m []) d v)).
  { unfold dynamic_update_slice. rewrite Hl.
    replace (Nat.min s (n - 1)) with s by lia. rewrite Hrow.
    now replace (Nat.min d (n - 1)) with d by lia. }
  rewrite E. split.
  - split; [now rewrite set_nth_length|].
    intros row H. apply set_nth_In in H. destruct H as [-> | H]; [|now apply Hr].
    now rewrite set_nth_length.
  - intros i j. unfold qget.
    destruct (Nat.eqb_spec i s) as [-> | Hi]; cbn [andb].
    + rewrite set_nth_same by lia.
      destruct (Nat.eqb_spec j d) as [-> | Hj].
      * apply set_nth_same. now rewrite Hrow.
      * apply set_nth_other. auto.
    + now rewrite set_nth_other by auto.
Qed.

Lemma fill_row n (s : nat) (cols : list nat) (m : qmatrix) :
  qsquare n m -> s < n -> (forall d, In d cols -> d < n) ->
  let filled :=
    fold_left
      (fun traffic_matrix d =>
         if negb (Nat.eqb s d)
         then dynamic_update_slice traffic_matrix (1 / paths_se s d)%Q s d
         else dynamic_update_slice traffic_matrix 0%Q s d)
      cols m in
  qsquare n filled
  /\ forall i j, qget filled i j
                 = if Nat.eqb i s && existsb (Nat.eqb j) cols then demand s j
                   else qget m i j.
Proof.
  revert m. induction cols as [ | d cols IH]; intros m Hm Hs Hcols filled.
  - split; [exact Hm|]. intros i j. cbn. now rewrite andb_false_r.
  - unfold filled. cbn [fold_left].
    set (m1 := if negb (Nat.eqb s d)
               then dynamic_update_slice m (1 / paths_se s d)%Q s d
               else dynamic_update_slice m 0%Q s d).
    assert (E1 : m1 = dynamic_update_slice m (demand s d) s d)
      by (unfold m1, demand; now destruct (negb (Nat.eqb s d))).
    destruct (update_slice_cell n m (demand s d) s d Hm Hs (Hcols d (or_introl eq_refl)))
      as [Hsq Hget].
    rewrite <- E1 in Hsq, Hget.
    destruct (IH m1 Hsq Hs (fun x Hx => Hcols x (or_intror Hx))) as [Hsq' Hget'].
    split; [exact Hsq'|]. intros i j. rewrite Hget', Hget. cbn [existsb].
    destruct (Nat.eqb_spec i s) as [-> | Hi]; cbn [andb]; [|reflexivity].
    destruct (existsb (Nat.eqb j) cols); [now rewrite orb_true_r|].
    rewrite orb_false_r. destruct (Nat.eqb_spec j d) as [-> | Hj]; reflexivity.
Qed.

Lemma fill_rows n (rows : list nat) (m : qmatrix) :
  qsquare n m -> (forall s, In s rows -> s < n) ->
  let filled :=
    fold_left
      (fun traffic_matrix s =>
         fold_left
           (fun traffic_matrix d =>
              if negb (Nat.eqb s d)
              then dynamic_update_slice traffic_matrix (1 / paths_se s d)%Q s d
              else dynamic_update_slice traffic_matrix 0%Q s d)
           (seq 0 n) traffic_matrix)
      rows m in
  qsquare n filled
  /\ forall i j, j < n ->
       qget filled i j = if existsb (Nat.eqb i) rows then demand i j else qget m i j.
Proof.
  revert m. induction rows as [ | s rows IH]; intros m Hm Hrows filled.
  - split; [exact Hm | reflexivity].
  - unfold filled. cbn [fold_left].
    destruct (fill_row n s (seq 0 n) m Hm (Hrows s (or_introl eq_refl)))
      as [Hsq Hget]; [intros d Hd; apply in_seq in Hd; lia|].
    destruct (IH _ Hsq (fun x Hx => Hrows x (or_intror Hx))) as [Hsq' Hget'].
    split; [exact Hsq'|]. intros i j Hj. rewrite Hget' by exact Hj. rewrite Hget.
    cbn [existsb].
    assert (Hin : existsb (Nat.eqb j) (seq 0 n) = true).
    { apply existsb_exists. exists j. split; [apply in_seq; lia | apply Nat.eqb_refl]. }
    rewrite Hin, andb_true_r.
    destruct (existsb (Nat.eqb i) rows); [now rewrite orb_true_r|].
    rewrite orb_false_r. destruct (Nat.eqb_spec i s) as [-> | Hi]; reflexivity.
Qed.

(** When no pair of distinct nodes has spectral efficiency 0, the traffic
    matrix is [n_nodes] by [n_nodes], is 0 on the diagonal and holds
    [1 / se] elsewhere; a symmetric spectral efficiency gives a symmetric
    traffic matrix. *)
Theorem get_weighted_traffic_matrix_cells (n_nodes : nat) :
  (forall s d, s <> d -> ~ paths_se s d == 0) ->
  let traffic_matrix := get_weighted_traffic_matrix n_nodes in
  qsquare n_nodes traffic_matrix
  /\ (forall s d, s < n_nodes -> d < n_nodes ->
        qget traffic_matrix s d = if Nat.eqb s d then 0%Q else (1 / paths_se s d)%Q)
  /\ ((forall s d, paths_se s d == paths_se d s) ->
      symmetric_traffic n_nodes traffic_matrix = true).
Proof.
  intros _ traffic_matrix.
  assert (Hzero : qsquare n_nodes (mat_init n_nodes (fun _ _ => 0%Q))).
  { split; [apply vec_init_length|]. intros row H. unfold mat_init, vec_init in H.
    apply in_map_iff in H. destruct H as (i & <- & _).
    now rewrite length_map, length_seq. }
  destruct (fill_rows n_nodes (seq 0 n_nodes) _ Hzero) as [Hsq Hget];
    [intros s Hs; apply in_seq in Hs; lia|].
  fold (get_weighted_traffic_matrix n_nodes) in Hsq, Hget. fold traffic_matrix in Hsq, Hget.
  assert (Hcell : forall s d, s < n_nodes -> d < n_nodes ->
                    qget traffic_matrix s d
                    = if Nat.eqb s d then 0%Q else (1 / paths_se s d)%Q).
  { intros s d Hs Hd. rewrite Hget by exact Hd.
    assert (Hin : existsb (Nat.eqb s) (seq 0 n_nodes) = true).
    { apply existsb_exists. exists s. split; [apply in_seq; lia | apply Nat.eqb_refl]. }
    rewrite Hin. unfold demand. now destruct (Nat.eqb s d). }
  split; [exact Hsq|]. split; [exact Hcell|].
  intros Hsym. unfold symmetric_traffic.
  apply forallb_forall. intros i Hi. apply forallb_forall. intros j Hj.
  apply in_seq in Hi, Hj. apply Qeq_bool_iff.
  change (qget traffic_matrix i j == qget traffic_matrix j i).
  rewrite !Hcell by lia. rewrite (Nat.eqb_sym j i).
  destruct (Nat.eqb i j); [reflexivity|]. now rewrite (Hsym i j).
Qed.

End Traffic.

Lemma get_weighted_traffic_matrix_cells_witness :
  get_weighted_traffic_matrix (fun _ _ => 2%Q) 3
  = [[0; 1 / 2; 1 / 2]; [1 / 2; 0; 1 / 2]; [1 / 2; 1 / 2; 0]]%Q
  /\ symmetric_traffic 3 (get_weighted_traffic_matrix (fun _ _ => 2%Q) 3) = true.
Proof.
  destruct (get_weighted_traffic_matrix_cells (fun _ _ => 2%Q) 3) as (_ & _ & Hsym).
  - intros s d _ E. discriminate E.
  - split; [reflexivity | apply Hsym; reflexivity].
Defined.

End TrafficMatrix.
